(** * TreeCat: training-side bookkeeping and serving-side inference

    A shallow embedding of [treecat/training.py] and [treecat/serving.py],
    and the properties of the two modules that are proved about it.

    Conventions of the embedding.
    - numpy [int8] / [int32] cells are integers of [Z] kept in range by
      [wrap8] / [wrap32], written at every place where numpy casts or
      stores into an array of that dtype.
    - numpy [float32] values are exact rationals, [Qc], so that equal
      tables are equal terms: what is proved of the probability tables is
      proved in exact arithmetic. Dividing by zero gives [0] here and [inf]
      or [nan] in numpy.
    - the counter of the annealing schedule is a Python [float]: the
      generator is modelled twice, with the counter in IEEE 754 binary64
      ([annealing_step_float], on the [spec_float] operations of the
      Standard Library), which is the generator of the source, and with the
      counter an exact rational ([annealing_step]), which is the schedule
      the binary64 counter yields whenever it does not round.
    - [np.log] and [scipy.special.gammaln] produce reals: the logarithm is
      [ln] of the Standard Library, and [gammaln] is an argument of the
      functions that call it.
    - arrays are lists (of lists). The exceptions that are modelled are the
      assertions of the source, the [ValueError] of [_propagate], and the
      [IndexError] of [cond_data[0]] on an empty list and of
      [self.assignments[row_id, :]] on a row that the data does not have;
      any other array index that numpy would refuse leaves the array
      unchanged on update and reads a default.
    - a method returns its exception (if any) together with the object as
      the call leaves it, so that a failing call can be seen to change
      nothing.
    - the classes and functions of [treecat.structure] and [treecat.util]
      (tree topology, propagation schedule, tree resampling, categorical
      draws) and numpy's random generator are not part of these two files:
      they are the fields of the class [Collaborators], and numpy's global
      random state is the explicit [RNG] value threaded through every draw.
      Logging and profiling are left out. *)

From Stdlib Require Import ZArith QArith Qcanon Qround Reals Psatz List Permutation SpecFloat.
From stdpp Require Import base list gmap sets numbers strings sorting.

#[local] Set Warnings "-clear-no-such-hyp".

(** ** Machine integers *)

Definition wrap8 (z : Z) : Z := ((z + 128) mod 256 - 128)%Z.
Definition wrap32 (z : Z) : Z := ((z + 2147483648) mod 4294967296 - 2147483648)%Z.

Definition int8 (z : Z) : Prop := (-128 <= z <= 127)%Z.
Definition int32 (z : Z) : Prop := (-2147483648 <= z <= 2147483647)%Z.

(** ** Configuration *)

Record Config := {
  model_num_clusters : nat;
  learning_annealing_epochs : Q;
  learning_annealing_init_rows : Q;
  learning_sample_tree_steps : Z;
  seed : Z
}.

(** ** get_annealing_schedule *)

Inductive action :=
  | add_row_action (row_id : nat)
  | remove_row_action (row_id : nat)
  | sample_tree_action.

(** [next(itertools.cycle(row_ids))] at position [i]. *)
Definition cycle_at (row_ids : list nat) (i : nat) : nat :=
  nth (i mod length row_ids) row_ids 0%nat.

(** *** The generator, with its counter in binary64

    [epochs], [add_rate], [remove_rate] and [state] are Python floats:
    binary64 values (precision 53, largest exponent 1024) under the
    operations of [SpecFloat], rounding to nearest, ties to even. *)
Definition float_add : spec_float -> spec_float -> spec_float := SFadd 53 1024.
Definition float_sub : spec_float -> spec_float -> spec_float := SFsub 53 1024.
Definition float_mul : spec_float -> spec_float -> spec_float := SFmul 53 1024.
(** [x >= 0.0] *)
Definition float_ge0 (x : spec_float) : bool := SFleb (S754_zero false) x.
(** [float(z)] of a Python integer, and [1.0]. *)
Definition float_of_Z (z : Z) : spec_float := binary_normalize 53 1024 z 0 false.
Definition float_one : spec_float := float_of_Z 1.

(** The local variables of the generator. [f_row_to_add] and
    [f_row_to_remove] are the positions of the two [itertools.cycle]
    iterators. *)
Record annealing_float := {
  f_state : spec_float;
  f_num_fresh : Z;
  f_num_stale : Z;
  f_row_to_add : nat;
  f_row_to_remove : nat
}.

(** [epochs] is [float(config['learning_annealing_epochs'])] and
    [init_rows] the float of [config['learning_annealing_init_rows']]. *)
Definition annealing_init_float (epochs init_rows : spec_float) : annealing_float :=
  {| f_state := float_mul epochs init_rows;
     f_num_fresh := 0; f_num_stale := 0; f_row_to_add := 0; f_row_to_remove := 0 |}.

(** One iteration of the [while] loop: the actions it yields, in order, and
    the locals afterwards. *)
Definition annealing_step_float (epochs : spec_float) (sampling_tree : bool)
    (row_ids : list nat) (g : annealing_float) : list action * annealing_float :=
  let add_rate := epochs in
  let remove_rate := float_sub epochs float_one in
  let '(acts, g1) :=
    if float_ge0 (f_state g) then
      ([add_row_action (cycle_at row_ids (f_row_to_add g))],
       {| f_state := float_sub (f_state g) remove_rate;
          f_num_fresh := f_num_fresh g + 1;
          f_num_stale := f_num_stale g;
          f_row_to_add := S (f_row_to_add g);
          f_row_to_remove := f_row_to_remove g |})
    else
      ([remove_row_action (cycle_at row_ids (f_row_to_remove g))],
       {| f_state := float_add (f_state g) add_rate;
          f_num_fresh := f_num_fresh g;
          f_num_stale := f_num_stale g - 1;
          f_row_to_add := f_row_to_add g;
          f_row_to_remove := S (f_row_to_remove g) |}) in
  if sampling_tree && (f_num_stale g1 =? 0)%Z && (0 <? f_num_fresh g1)%Z then
    (acts ++ [sample_tree_action],
     {| f_state := f_state g1;
        f_num_fresh := 0;
        f_num_stale := f_num_fresh g1;
        f_row_to_add := f_row_to_add g1;
        f_row_to_remove := f_row_to_remove g1 |})
  else (acts, g1).

(** The [while num_fresh + num_stale != num_rows] loop, run for at most
    [fuel] iterations: [None] when the fuel runs out before the loop exits. *)
Fixpoint annealing_loop_float (epochs : spec_float) (sampling_tree : bool)
    (num_rows : nat) (row_ids : list nat) (fuel : nat) (g : annealing_float)
  : option (list action) :=
  if (f_num_fresh g + f_num_stale g =? Z.of_nat num_rows)%Z then Some []
  else match fuel with
       | O => None
       | S fuel' =>
           let '(acts, g') := annealing_step_float epochs sampling_tree row_ids g in
           match annealing_loop_float epochs sampling_tree num_rows row_ids fuel' g' with
           | Some rest => Some (acts ++ rest)
           | None => None
           end
       end.

(** [row_ids] is [list(range(num_rows))] after [np.random.shuffle], and
    [steps] is [config['learning_sample_tree_steps']]. *)
Definition get_annealing_schedule_float (num_rows : nat) (epochs init_rows : spec_float)
    (steps : Z) (row_ids : list nat) (fuel : nat) : option (list action) :=
  annealing_loop_float epochs (0 <? steps)%Z num_rows row_ids fuel
    (annealing_init_float epochs init_rows).

(** What the generator has yielded after [n] iterations of the loop (or
    all it yields, when the loop exits before). *)
Fixpoint annealing_yielded_float (epochs : spec_float) (sampling_tree : bool)
    (num_rows : nat) (row_ids : list nat) (n : nat) (g : annealing_float)
  : list action :=
  if (f_num_fresh g + f_num_stale g =? Z.of_nat num_rows)%Z then []
  else match n with
       | O => []
       | S n' =>
           let '(acts, g') := annealing_step_float epochs sampling_tree row_ids g in
           acts ++ annealing_yielded_float epochs sampling_tree num_rows row_ids n' g'
       end.

Definition annealing_stream_float (num_rows : nat) (epochs init_rows : spec_float)
    (steps : Z) (row_ids : list nat) (n : nat) : list action :=
  annealing_yielded_float epochs (0 <? steps)%Z num_rows row_ids n
    (annealing_init_float epochs init_rows).

(** *** The generator, with its counter in exact arithmetic *)

(** The local variables of the generator. [row_to_add] and [row_to_remove]
    are the positions of the two [itertools.cycle] iterators. *)
Record annealing := {
  state : Q;
  num_fresh : Z;
  num_stale : Z;
  row_to_add : nat;
  row_to_remove : nat
}.

Definition annealing_init (config : Config) : annealing :=
  {| state := learning_annealing_epochs config * learning_annealing_init_rows config;
     num_fresh := 0; num_stale := 0; row_to_add := 0; row_to_remove := 0 |}.

(** One iteration of the [while] loop: the actions it yields, in order, and
    the locals afterwards. *)
Definition annealing_step (config : Config) (row_ids : list nat) (g : annealing)
  : list action * annealing :=
  let epochs := learning_annealing_epochs config in
  let add_rate := epochs in
  let remove_rate := (epochs - 1)%Q in
  let sampling_tree := (0 <? learning_sample_tree_steps config)%Z in
  let '(acts, g1) :=
    if Qle_bool 0 (state g) then
      ([add_row_action (cycle_at row_ids (row_to_add g))],
       {| state := state g - remove_rate;
          num_fresh := num_fresh g + 1;
          num_stale := num_stale g;
          row_to_add := S (row_to_add g);
          row_to_remove := row_to_remove g |})
    else
      ([remove_row_action (cycle_at row_ids (row_to_remove g))],
       {| state := state g + add_rate;
          num_fresh := num_fresh g;
          num_stale := num_stale g - 1;
          row_to_add := row_to_add g;
          row_to_remove := S (row_to_remove g) |}) in
  if sampling_tree && (num_stale g1 =? 0)%Z && (0 <? num_fresh g1)%Z then
    (acts ++ [sample_tree_action],
     {| state := state g1;
        num_fresh := 0;
        num_stale := num_fresh g1;
        row_to_add := row_to_add g1;
        row_to_remove := row_to_remove g1 |})
  else (acts, g1).

(** The [while num_fresh + num_stale != num_rows] loop, run for at most
    [fuel] iterations: [None] when the fuel runs out before the loop exits. *)
Fixpoint annealing_loop (config : Config) (num_rows : nat) (row_ids : list nat)
    (fuel : nat) (g : annealing) : option (list action) :=
  if (num_fresh g + num_stale g =? Z.of_nat num_rows)%Z then Some []
  else match fuel with
       | O => None
       | S fuel' =>
           let '(acts, g') := annealing_step config row_ids g in
           match annealing_loop config num_rows row_ids fuel' g' with
           | Some rest => Some (acts ++ rest)
           | None => None
           end
       end.

(** [row_ids] is [list(range(num_rows))] after [np.random.shuffle]. *)
Definition get_annealing_schedule (num_rows : nat) (config : Config)
    (row_ids : list nat) (fuel : nat) : option (list action) :=
  annealing_loop config num_rows row_ids fuel (annealing_init config).

Definition is_add (a : action) : bool :=
  match a with add_row_action _ => true | _ => false end.
Definition is_remove (a : action) : bool :=
  match a with remove_row_action _ => true | _ => false end.

Definition count_adds (acts : list action) : Z :=
  Z.of_nat (length (filter (fun a => is_add a = true) acts)).
Definition count_removes (acts : list action) : Z :=
  Z.of_nat (length (filter (fun a => is_remove a = true) acts)).

(** The dispatch of [train] on the assigned set alone: [add_row] asserts
    that the row is absent, [remove_row] that it is present. *)
Definition apply_action (assigned : gset nat) (a : action) : option (gset nat) :=
  match a with
  | add_row_action r =>
      if decide (r ∈ assigned) then None else Some ({[r]} ∪ assigned)
  | remove_row_action r =>
      if decide (r ∈ assigned) then Some (assigned ∖ {[r]}) else None
  | sample_tree_action => Some assigned
  end.

Fixpoint replay (assigned : gset nat) (acts : list action) : option (gset nat) :=
  match acts with
  | [] => Some assigned
  | a :: rest =>
      match apply_action assigned a with
      | Some assigned' => replay assigned' rest
      | None => None
      end
  end.

(** ** Exact arithmetic on rows of probability tables *)

Definition qz (z : Z) : Qc := Q2Qc (inject_Z z).
Definition qn (n : nat) : Qc := qz (Z.of_nat n).
Definition half : Qc := Q2Qc (1 # 2).

Definition vsum (x : list Qc) : Qc := foldr Qcplus 0%Qc x.
Definition vmul (x y : list Qc) : list Qc := zip_with Qcmult x y.
Definition vdiv (x y : list Qc) : list Qc := zip_with Qcdiv x y.
Definition vadd (x y : list Qc) : list Qc := zip_with Qcplus x y.
Definition vshift (c : Qc) (x : list Qc) : list Qc := map (fun a => (a + c)%Qc) x.
Definition vscale_div (x : list Qc) (c : Qc) : list Qc := map (fun a => (a / c)%Qc) x.

(** [table.sum(axis=0)] of a [K x M] table: the per-cluster column sums
    ([M] zeros when the table has no row). *)
Definition sum_axis0 (M : nat) (table : list (list Qc)) : list Qc :=
  foldl vadd (replicate M 0%Qc) table.
(** [table.sum(axis=1)]. *)
Definition sum_axis1 (table : list (list Qc)) : list Qc := map vsum table.

Definition transpose (M : nat) (t : list (list Qc)) : list (list Qc) :=
  map (fun j => map (fun row => nth j row 0%Qc) t) (seq 0 M).
(** [np.dot(trans, x)]. *)
Definition dot (trans : list (list Qc)) (x : list Qc) : list Qc :=
  map (fun row => vsum (vmul row x)) trans.

(** [ss.astype(np.float32) + prior]. *)
Definition plus_prior (prior : Qc) (ss : list (list Z)) : list (list Qc) :=
  map (map (fun z => (qz z + prior)%Qc)) ss.

(** ** The evidence fold-in shared by [add_row] and [_propagate]

    The running state is [(message, obs_lat, lat)]. One count unit of
    category [c]:
    [message *= obs_lat[c, :] / lat; obs_lat[c, :] += 1.0; lat += 1.0]. *)
Definition urn : Type := list Qc * list (list Qc) * list Qc.

Definition fold_unit (c : nat) (u : urn) : urn :=
  let '(message, obs_lat, lat) := u in
  let row := nth c obs_lat [] in
  (vmul message (vdiv row lat),
   <[c := vshift 1 row]> obs_lat,
   vshift 1 lat).

(** A sequence of units, each named by its category, folded in order. *)
Definition fold_units (units : list nat) (u : urn) : urn :=
  foldl (fun u c => fold_unit c u) u units.

(** The units in the order of the source:
    [for c, count in enumerate(row): for _ in range(count)]. *)
Definition units_of (row : list Z) : list nat :=
  concat (imap (fun c count => replicate (Z.to_nat count) c) row).

Definition fold_in (M : nat) (message : list Qc) (table : list (list Qc))
    (row : list Z) : urn :=
  fold_units (units_of row) (message, table, sum_axis0 M table).

(** ** The collaborators of [treecat.structure] and [treecat.util] *)

Record TreeStructure := {
  num_vertices : nat;
  vertices : list nat;
  (** the columns [(e, v1, v2)] of the [3 x E] grid of tree edges *)
  tree_grid : list (nat * nat * nat);
  (** the columns [(k, v1, v2)] of the [3 x K] grid of all candidate edges *)
  complete_grid : list (nat * nat * nat);
  find_tree_edge : nat -> nat -> nat
}.

(** A step of the propagation schedule: [(v, parent, children)]. *)
Definition visit : Type := nat * option nat * list nat.

Class Collaborators := {
  RNG : Type;
  (** [np.random.seed] *)
  random_seed : Z -> RNG;
  (** [np.random.shuffle] *)
  random_shuffle : list nat -> RNG -> list nat * RNG;
  (** [np.random.multinomial(n, probs)] *)
  random_multinomial : Z -> list Qc -> RNG -> list Z * RNG;
  (** [treecat.util.sample_from_probs] *)
  sample_from_probs : list Qc -> RNG -> nat * RNG;
  (** [TreeStructure(num_features)], [tree.set_edges(edges)], [tree.gc()] *)
  TreeStructure_new : nat -> TreeStructure;
  set_edges : TreeStructure -> list (nat * nat) -> TreeStructure;
  gc : TreeStructure -> TreeStructure;
  (** [treecat.structure.make_propagation_schedule] *)
  make_propagation_schedule : list (nat * nat * nat) -> list visit;
  (** [treecat.structure.sample_tree(grid, edge_logits, edges, steps)] *)
  structure_sample_tree :
    list (nat * nat * nat) -> list R -> list (nat * nat) -> Z -> RNG ->
    list (nat * nat) * RNG
}.

Inductive error :=
  | AssertionError
  | ZeroDivisionError
  | IndexError
  | ValueError (message : string).

(** ** Indexing numpy arrays of integers *)

Definition get2 (a : list (list Z)) (i j : nat) : Z := nth j (nth i a []) 0%Z.
Definition set2 (a : list (list Z)) (i j : nat) (z : Z) : list (list Z) :=
  alter (fun row => <[j := z]> row) i a.
Definition get3 (a : list (list (list Z))) (e i j : nat) : Z := get2 (nth e a []) i j.
Definition set3 (a : list (list (list Z))) (e i j : nat) (z : Z) : list (list (list Z)) :=
  alter (fun mat => set2 mat i j z) e a.

(** [a[rows, cols] += diff] with index arrays, on an [int32] array: numpy
    reads every addressed cell of the array as it was, adds, and writes the
    results back one index after the other. *)
Definition iadd_at2 (a : list (list Z)) (idx : list (nat * nat)) (diff : Z)
  : list (list Z) :=
  foldl (fun acc '(i, j) => set2 acc i j (wrap32 (get2 a i j + diff))) a idx.
Definition iadd_at3 (a : list (list (list Z))) (idx : list (nat * nat * nat))
    (diff : Z) : list (list (list Z)) :=
  foldl (fun acc '(e, i, j) => set3 acc e i j (wrap32 (get3 a e i j + diff))) a idx.

(** [table[:, m] += xs] on an [int32] table, [xs] an [int8] vector. *)
Definition iadd_column (table : list (list Z)) (m : nat) (xs : list Z)
  : list (list Z) :=
  imap (fun c row => alter (fun old => wrap32 (old + nth c xs 0%Z)) m row) table.

(** ** count_pairs and logprob_dc *)

(** [assert v1 != v2], then
    [np.bincount(pairs, minlength=M * M).reshape((M, M))] for
    [pairs = assignments[:, v1] * M + assignments[:, v2]]. *)
Definition count_pairs (assignments : list (list nat)) (v1 v2 M : nat)
  : error + list (list Z) :=
  if (v1 =? v2)%nat then inl AssertionError
  else
    let pairs := map (fun row => (nth v1 row 0 * M + nth v2 row 0)%nat) assignments in
    inr (map (fun i =>
                map (fun j => Z.of_nat (count_occ Nat.eq_dec pairs (i * M + j)%nat))
                    (seq 0 M))
             (seq 0 M)).

Definition Rsum (x : list R) : R := foldr Rplus 0%R x.
Definition Qc2R (q : Qc) : R := Q2R (this q).

(** [gammaln(counts_plus_prior).sum()] over every cell of a table. *)
Definition logprob_dc (gammaln : R -> R) (counts_plus_prior : list (list Qc)) : R :=
  Rsum (map (fun row => Rsum (map (fun q => gammaln (Qc2R q)) row)) counts_plus_prior).
(** [gammaln(counts_plus_prior).sum(axis=1)]. *)
Definition logprob_dc_axis1 (gammaln : R -> R) (counts_plus_prior : list (list Qc))
  : list R :=
  map (fun row => Rsum (map (fun q => gammaln (Qc2R q)) row)) counts_plus_prior.
(** [logprob_dc] of a vector. *)
Definition logprob_dc_vector (gammaln : R -> R) (x : list Qc) : R :=
  Rsum (map (fun q => gammaln (Qc2R q)) x).

(** ** TreeCatTrainer *)

Record TreeCatTrainer := {
  (** [_data[v][row_id][c]], cells of dtype [int8] *)
  _data : list (list (list Z));
  _config : Config;
  _assigned_rows : gset nat;
  (** [assignments[row_id][v]]; the assertion [M <= 128] of [__init__]
      keeps every draw below 128, where the [int8] store is exact *)
  assignments : list (list nat);
  tree : TreeStructure;
  _schedule : list visit;
  _VEKM : nat * nat * nat * nat;
  (** [_vert_ss[v][m]], [_edge_ss[e][m1][m2]], [_feat_ss[v][c][m]]: [int32] *)
  _vert_ss : list (list Z);
  _edge_ss : list (list (list Z));
  _feat_ss : list (list (list Z))
}.

Definition trainer_M (t : TreeCatTrainer) : nat :=
  let '(_, _, _, M) := _VEKM t in M.
Definition trainer_K (t : TreeCatTrainer) : nat :=
  let '(_, _, K, _) := _VEKM t in K.
Definition trainer_V (t : TreeCatTrainer) : nat :=
  let '(V, _, _, _) := _VEKM t in V.

(** Jeffreys priors. *)
Definition _vert_prior : Qc := half.
Definition _edge_prior (M : nat) : Qc := (half / qn M)%Qc.
Definition _feat_prior (M : nat) : Qc := (half / qn M)%Qc.

Definition with_assigned (t : TreeCatTrainer) (s : gset nat) : TreeCatTrainer :=
  {| _data := _data t; _config := _config t; _assigned_rows := s;
     assignments := assignments t; tree := tree t; _schedule := _schedule t;
     _VEKM := _VEKM t; _vert_ss := _vert_ss t; _edge_ss := _edge_ss t;
     _feat_ss := _feat_ss t |}.

Definition with_assignments (t : TreeCatTrainer) (a : list (list nat)) : TreeCatTrainer :=
  {| _data := _data t; _config := _config t; _assigned_rows := _assigned_rows t;
     assignments := a; tree := tree t; _schedule := _schedule t;
     _VEKM := _VEKM t; _vert_ss := _vert_ss t; _edge_ss := _edge_ss t;
     _feat_ss := _feat_ss t |}.

Definition with_suffstats (t : TreeCatTrainer) (vs : list (list Z))
    (es fs : list (list (list Z))) : TreeCatTrainer :=
  {| _data := _data t; _config := _config t; _assigned_rows := _assigned_rows t;
     assignments := assignments t; tree := tree t; _schedule := _schedule t;
     _VEKM := _VEKM t; _vert_ss := vs; _edge_ss := es; _feat_ss := fs |}.

Definition with_tree (t : TreeCatTrainer) (tr : TreeStructure) (sch : list visit)
    (es : list (list (list Z))) : TreeCatTrainer :=
  {| _data := _data t; _config := _config t; _assigned_rows := _assigned_rows t;
     assignments := assignments t; tree := tr; _schedule := sch;
     _VEKM := _VEKM t; _vert_ss := _vert_ss t; _edge_ss := es;
     _feat_ss := _feat_ss t |}.

(** [_update_tensors(row_id, diff)], [diff] being [+1] or [-1]. The product
    [diff * column[row_id, :]] is an [int8] array. *)
Definition _update_tensors (t : TreeCatTrainer) (row_id : nat) (diff : Z)
  : TreeCatTrainer :=
  let a := nth row_id (assignments t) [] in
  let vs := iadd_at2 (_vert_ss t) (zip (vertices (tree t)) a) diff in
  let es := iadd_at3 (_edge_ss t)
              (map (fun '(e, v1, v2) => (e, nth v1 a 0%nat, nth v2 a 0%nat))
                   (tree_grid (tree t)))
              diff in
  let fs := foldl (fun fs '(v, column) =>
                     alter (fun table =>
                              iadd_column table (nth v a 0%nat)
                                (map (fun x => wrap8 (diff * x)) (nth row_id column [])))
                           v fs)
                  (_feat_ss t)
                  (imap (fun v column => (v, column)) (_data t)) in
  with_suffstats t vs es fs.

(** ** Message passing

    [messages] is the [V x M] array of messages and [message = messages[v, :]]
    a view of it, so each in-place operation on [message] is an update of
    row [v] of [messages]. *)

(** The body of [for child in children], for vertex [v]. The second
    component collects the successive values of [message.sum()]. *)
Definition child_fold (M : nat) (tr : TreeStructure)
    (edge_probs : list (list (list Qc))) (vert_probs : list (list Qc)) (v : nat)
    (acc : list (list Qc) * list Qc) (child : nat) : list (list Qc) * list Qc :=
  let '(messages, sums) := acc in
  let e := find_tree_edge tr v child in
  let trans := nth e edge_probs [] in
  let trans := if (child <? v)%nat then transpose M trans else trans in
  let message := nth v messages [] in
  let message :=
    vmul message (dot trans (vdiv (nth child messages []) (nth child vert_probs []))) in
  let message := vdiv message (nth v vert_probs []) in
  let message_sum := vsum message in
  let message := vscale_div message message_sum in
  (<[v := message]> messages, sums ++ [message_sum]).

(** The body of [for v, parent, children in reversed(self._schedule)]:
    evidence of feature [v], then the children of [v]. *)
Definition upward_visit (M : nat) (tr : TreeStructure)
    (feat_table : nat -> list (list Qc)) (data_row : nat -> list Z)
    (edge_probs : list (list (list Qc))) (vert_probs : list (list Qc))
    (acc : list (list Qc) * list Qc) (s : visit) : list (list Qc) * list Qc :=
  let '(v, _, children) := s in
  let '(messages, sums) := acc in
  let '(message, _, _) := fold_in M (nth v messages []) (feat_table v) (data_row v) in
  foldl (child_fold M tr edge_probs vert_probs v) (<[v := message]> messages, sums) children.

Definition upward (M : nat) (tr : TreeStructure) (schedule : list visit)
    (feat_table : nat -> list (list Qc)) (data_row : nat -> list Z)
    (edge_probs : list (list (list Qc))) (vert_probs : list (list Qc))
  : list (list Qc) * list Qc :=
  foldl (upward_visit M tr feat_table data_row edge_probs vert_probs)
        (vert_probs, []) (reverse schedule).

Section Trainer.
Context `{Collaborators}.

(** The body of the second loop of [add_row]: the state is the messages,
    the row [assignments[row_id, :]] and the random state. *)
Definition add_row_downward_visit (M : nat) (tr : TreeStructure)
    (edge_probs : list (list (list Qc))) (vert_probs : list (list Qc))
    (acc : list (list Qc) * list nat * RNG) (s : visit)
  : list (list Qc) * list nat * RNG :=
  let '(v, parent, _) := s in
  let '(messages, a, rng) := acc in
  let message := nth v messages [] in
  let message :=
    match parent with
    | Some p =>
        let e := find_tree_edge tr p v in
        let trans := nth e edge_probs [] in
        let trans := if (v <? p)%nat then transpose M trans else trans in
        vdiv (vmul message (nth (nth p a 0%nat) trans [])) (nth v vert_probs [])
    | None => message
    end in
  let message := vscale_div message (vsum message) in
  let '(k, rng') := sample_from_probs message rng in
  (<[v := message]> messages, <[v := k]> a, rng').

(** [add_row]. After the assertion, [self.assignments[row_id, :]] raises
    on a row that the data does not have. *)
Definition add_row (t : TreeCatTrainer) (row_id : nat) (rng : RNG)
  : option error * TreeCatTrainer * RNG :=
  if decide (row_id ∈ _assigned_rows t) then (Some AssertionError, t, rng)
  else if decide (length (assignments t) <= row_id)%nat then (Some IndexError, t, rng)
  else
    let M := trainer_M t in
    let edge_probs := map (plus_prior (_edge_prior M)) (_edge_ss t) in
    let vert_probs := plus_prior _vert_prior (_vert_ss t) in
    let '(messages, _) :=
      upward M (tree t) (_schedule t)
             (fun v => plus_prior (_feat_prior M) (nth v (_feat_ss t) []))
             (fun v => nth row_id (nth v (_data t) []) [])
             edge_probs vert_probs in
    let '(_, a, rng') :=
      foldl (add_row_downward_visit M (tree t) edge_probs vert_probs)
            (messages, nth row_id (assignments t) [], rng) (_schedule t) in
    let t := with_assignments t (<[row_id := a]> (assignments t)) in
    let t := with_assigned t ({[row_id]} ∪ _assigned_rows t) in
    (None, _update_tensors t row_id 1, rng').

(** [remove_row]. The row leaves the assigned set before
    [_update_tensors] reads [self.assignments[row_id, :]]. *)
Definition remove_row (t : TreeCatTrainer) (row_id : nat) (rng : RNG)
  : option error * TreeCatTrainer * RNG :=
  if decide (row_id ∈ _assigned_rows t) then
    let t := with_assigned t (_assigned_rows t ∖ {[row_id]}) in
    if decide (length (assignments t) <= row_id)%nat then (Some IndexError, t, rng)
    else (None, _update_tensors t row_id (-1), rng)
  else (Some AssertionError, t, rng).

(** [self.assignments[sorted(self._assigned_rows), :]]. *)
Definition assigned_assignments (t : TreeCatTrainer) : list (list nat) :=
  map (fun r => nth r (assignments t) [])
      (merge_sort Nat.le (elements (_assigned_rows t))).

(** [vertex_logits] of [sample_tree] and [logprob]. *)
Definition vertex_logits (gammaln : R -> R) (t : TreeCatTrainer) : list R :=
  logprob_dc_axis1 gammaln (plus_prior _vert_prior (_vert_ss t)).

(** [edge_logits] as [sample_tree] has it when it calls the collaborator:
    [K] zeros, then one entry written per column of [self.tree.tree_grid]
    (an exception if [count_pairs] raises on a column). *)
Definition sample_tree_edge_logits (gammaln : R -> R) (t : TreeCatTrainer)
  : error + list R :=
  let M := trainer_M t in
  let rows := assigned_assignments t in
  let vl := vertex_logits gammaln t in
  foldl (fun acc '(k, v1, v2) =>
           match acc with
           | inl e => inl e
           | inr edge_logits =>
               match count_pairs rows v1 v2 M with
               | inl e => inl e
               | inr counts =>
                   inr (<[k := (logprob_dc gammaln (plus_prior (_edge_prior M) counts)
                                - nth v1 vl 0 - nth v2 vl 0)%R]> edge_logits)
               end
           end)
        (inr (replicate (trainer_K t) 0%R))
        (tree_grid (tree t)).

(** [_update_tree]: the [int32] slots of [_edge_ss] are overwritten, one per
    column of the new tree grid, then the schedule is rebuilt; when
    [count_pairs] raises, the slots written so far stay written. *)
Definition _update_tree (t : TreeCatTrainer) : option error * TreeCatTrainer :=
  let M := trainer_M t in
  let rows := assigned_assignments t in
  let '(err, es) :=
    foldl (fun '(err, es) '(e, v1, v2) =>
             match err with
             | Some _ => (err, es)
             | None =>
                 match count_pairs rows v1 v2 M with
                 | inl e' => (Some e', es)
                 | inr counts => (None, <[e := map (map wrap32) counts]> es)
                 end
             end)
          (None, _edge_ss t) (tree_grid (tree t)) in
  match err with
  | Some e => (Some e, with_tree t (tree t) (_schedule t) es)
  | None =>
      (None, with_tree t (tree t) (make_propagation_schedule (tree_grid (tree t))) es)
  end.

Definition sample_tree (gammaln : R -> R) (t : TreeCatTrainer) (rng : RNG)
  : option error * TreeCatTrainer * RNG :=
  match sample_tree_edge_logits gammaln t with
  | inl e => (Some e, t, rng)
  | inr edge_logits =>
      let complete_grid := complete_grid (tree t) in
      if decide (length edge_logits = length complete_grid) then
        let edges := map (fun '(_, v1, v2) => (v1, v2)) (tree_grid (tree t)) in
        let '(edges, rng') :=
          structure_sample_tree complete_grid edge_logits edges
            (learning_sample_tree_steps (_config t)) rng in
        let t := with_tree t (set_edges (tree t) edges) (_schedule t) (_edge_ss t) in
        let '(err, t) := _update_tree t in
        (err, t, rng')
      else (Some AssertionError, t, rng)
  end.

(** [TreeCatTrainer.logprob]. *)
Definition logprob (gammaln : R -> R) (t : TreeCatTrainer) : error + R :=
  if decide (size (_assigned_rows t) = length (assignments t)) then
    let M := trainer_M t in
    let vl := vertex_logits gammaln t in
    let logprob := Rsum vl in
    let logprob :=
      foldl (fun logprob '(e, v1, v2) =>
               (logprob
                + (logprob_dc gammaln (plus_prior (_edge_prior M) (nth e (_edge_ss t) []))
                   - nth v1 vl 0 - nth v2 vl 0))%R)
            logprob (tree_grid (tree t)) in
    let logprob :=
      foldl (fun logprob v =>
               let feat_probs := plus_prior (_feat_prior M) (nth v (_feat_ss t) []) in
               (logprob
                + (logprob_dc gammaln feat_probs
                   - logprob_dc_vector gammaln (sum_axis0 M feat_probs)))%R)
            logprob (seq 0 (trainer_V t)) in
    inr logprob
  else inl AssertionError.

(** [TreeCatTrainer.__init__]. [np.asarray(column, np.int8)] stores every
    cell modulo [2^8]. The width of a column is read off its first row. *)
Definition TreeCatTrainer_init (data : list (list (list Z))) (config : Config)
  : error + TreeCatTrainer :=
  match data with
  | [] => inl IndexError
  | column0 :: _ =>
      let data := map (map (map wrap8)) data in
      let num_features := length data in
      let num_rows := length column0 in
      if forallb (fun column => (length column =? num_rows)%nat) data then
        let tr := TreeStructure_new num_features in
        let V := num_vertices tr in
        let E := (V - 1)%nat in
        let K := (V * (V - 1) / 2)%nat in
        let M := model_num_clusters config in
        if (128 <? M)%nat then inl AssertionError
        else if (M =? 0)%nat then inl ZeroDivisionError
        else inr
          {| _data := data;
             _config := config;
             _assigned_rows := ∅;
             assignments := replicate num_rows (replicate num_features 0%nat);
             tree := tr;
             _schedule := make_propagation_schedule (tree_grid tr);
             _VEKM := (V, E, K, M);
             _vert_ss := replicate V (replicate M 0%Z);
             _edge_ss := replicate E (replicate M (replicate M 0%Z));
             _feat_ss :=
               map (fun column => replicate (length (hd [] column)) (replicate M 0%Z))
                   data |}
      else inl AssertionError
  end.

(** The loop of [train] over the yielded actions; it stops at the first
    exception. *)
Fixpoint run_actions (gammaln : R -> R) (acts : list action) (t : TreeCatTrainer)
    (rng : RNG) : option error * TreeCatTrainer * RNG :=
  match acts with
  | [] => (None, t, rng)
  | a :: rest =>
      let '(err, t', rng') :=
        match a with
        | add_row_action row_id => add_row t row_id rng
        | remove_row_action row_id => remove_row t row_id rng
        | sample_tree_action => sample_tree gammaln t rng
        end in
      match err with
      | Some e => (Some e, t', rng')
      | None => run_actions gammaln rest t' rng'
      end
  end.

(** [finish] hands the tree to [gc]. *)
Definition finish (t : TreeCatTrainer) : TreeCatTrainer :=
  with_tree t (gc (tree t)) (_schedule t) (_edge_ss t).

(** [train]: [None] when the schedule does not end within [fuel] iterations. *)
Definition train (gammaln : R -> R) (fuel : nat) (t : TreeCatTrainer)
  : option (option error * TreeCatTrainer * RNG) :=
  let rng := random_seed (seed (_config t)) in
  let num_rows := length (assignments t) in
  let '(row_ids, rng) := random_shuffle (seq 0 num_rows) rng in
  match get_annealing_schedule num_rows (_config t) row_ids fuel with
  | None => None
  | Some acts =>
      let '(err, t', rng') := run_actions gammaln acts t rng in
      match err with
      | Some e => Some (Some e, t', rng')
      | None => Some (None, finish t', rng')
      end
  end.

(** [train_model(data, config)]. *)
Definition train_model (gammaln : R -> R) (fuel : nat) (data : list (list (list Z)))
    (config : Config) : option (option error * TreeCatTrainer * RNG) + error :=
  match TreeCatTrainer_init data config with
  | inr t => inl (train gammaln fuel t)
  | inl e => inr e
  end.

End Trainer.

(** ** serving.py: make_posterior *)

Record SuffStats := {
  feat_ss : list (list (list Z));
  vert_ss : list (list Z);
  edge_ss : list (list (list Z))
}.

(** The property [TreeCatTrainer.suffstats]. *)
Definition suffstats (t : TreeCatTrainer) : SuffStats :=
  {| feat_ss := _feat_ss t; vert_ss := _vert_ss t; edge_ss := _edge_ss t |}.

Record Posterior := {
  observed : list (list Qc);
  observed_latent : list (list (list Qc));
  latent : list (list Qc);
  latent_latent : list (list (list Qc))
}.

(** A list of rows is an array with [M] columns. *)
Definition has_width {A} (M : nat) (a : list (list A)) : bool :=
  forallb (fun row => (length row =? M)%nat) a.

(** The assertions of [make_posterior] on the shapes. [V, M] is the shape of
    [vert_ss], and the first assertion fails on an array without rows
    ([E] is then [-1]). *)
Definition shapes_ok (grid : list (nat * nat * nat)) (ss : SuffStats) : bool :=
  match vert_ss ss with
  | [] => false
  | row0 :: _ =>
      let V := length (vert_ss ss) in
      let M := length row0 in
      let E := (V - 1)%nat in
      (length grid =? E)%nat
      && has_width M (vert_ss ss)
      && (length (edge_ss ss) =? E)%nat
      && forallb (fun mat => (length mat =? M)%nat && has_width M mat) (edge_ss ss)
      && (length (feat_ss ss) =? V)%nat
      && forallb (has_width M) (feat_ss ss)
  end.

(** [latent /= latent.sum(axis=1, keepdims=True)]. *)
Definition normalize_rows (t : list (list Qc)) : list (list Qc) :=
  map (fun row => vscale_div row (vsum row)) t.
(** [latent_latent /= latent_latent.sum(axis=(1, 2), keepdims=True)]. *)
Definition normalize_slices (t : list (list (list Qc))) : list (list (list Qc)) :=
  map (fun mat => let s := vsum (map vsum mat) in map (fun row => vscale_div row s) mat) t.

(** [observed_latent[v]] after the correction
    [*= latent[v, np.newaxis, :] / observed_latent[v].sum(axis=0, keepdims=True)]. *)
Definition corrected_joint (M : nat) (feat_prior : Qc) (feat : list (list Z))
    (latent_v : list Qc) : list (list Qc) :=
  let joint := plus_prior feat_prior feat in
  let ratio := vdiv latent_v (sum_axis0 M joint) in
  map (fun row => vmul row ratio) joint.

Definition make_posterior (grid : list (nat * nat * nat)) (ss : SuffStats)
  : error + Posterior :=
  if shapes_ok grid ss then
    let M := length (hd [] (vert_ss ss)) in
    if (M =? 0)%nat then inl ZeroDivisionError
    else
      let vert_prior := half in
      let edge_prior := (half / qn M)%Qc in
      let feat_prior := (half / qn M)%Qc in
      let latent := normalize_rows (plus_prior vert_prior (vert_ss ss)) in
      let latent_latent := normalize_slices (map (plus_prior edge_prior) (edge_ss ss)) in
      let observed_latent :=
        imap (fun v feat => corrected_joint M feat_prior feat (nth v latent []))
             (feat_ss ss) in
      inr {| observed := map sum_axis1 observed_latent;
             observed_latent := observed_latent;
             latent := latent;
             latent_latent := latent_latent |}
  else inl AssertionError.

(** ** TreeCatServer *)

Record TreeCatServer := {
  _tree : TreeStructure;
  server_config : Config;
  _posterior : Posterior;
  server_schedule : list visit;
  (** the shapes of [_zero_row]: one length per feature *)
  _zero_row : list nat;
  _VEM : nat * nat * nat
}.

Definition server_M (s : TreeCatServer) : nat := let '(_, _, M) := _VEM s in M.
Definition server_V (s : TreeCatServer) : nat := let '(V, _, _) := _VEM s in V.

Definition with_observed_latent (s : TreeCatServer) (ol : list (list (list Qc)))
  : TreeCatServer :=
  {| _tree := _tree s; server_config := server_config s;
     _posterior := {| observed := observed (_posterior s);
                      observed_latent := ol;
                      latent := latent (_posterior s);
                      latent_latent := latent_latent (_posterior s) |};
     server_schedule := server_schedule s; _zero_row := _zero_row s;
     _VEM := _VEM s |}.

(** [probs = feat_probs[v][:, k]] is a view of column [k] of the posterior
    table, and [probs /= probs.sum()] divides that column in place. *)
Definition column (k : nat) (table : list (list Qc)) : list Qc :=
  map (fun row => nth k row 0%Qc) table.
Definition normalize_column (k : nat) (table : list (list Qc)) : list (list Qc) :=
  let s := vsum (column k table) in
  map (fun row => alter (fun x => (x / s)%Qc) k row) table.

Inductive task_result :=
  | Logprob (log_arguments : list Qc)
  | Sample (feat_sample : list (list Z))
  | Raise (e : error).

(** The value [_propagate('logprob', _)] returns: the sum of the [np.log]
    of the arguments collected along the pass. *)
Definition logprob_value (log_arguments : list Qc) : R :=
  Rsum (map (fun z => ln (Qc2R z)) log_arguments).

Section Server.
Context `{Collaborators}.

Definition TreeCatServer_init (tr : TreeStructure) (ss : SuffStats) (config : Config)
  : error + TreeCatServer :=
  match make_posterior (tree_grid tr) ss with
  | inl e => inl e
  | inr p =>
      let V := num_vertices tr in
      inr {| _tree := tr;
             server_config := config;
             _posterior := p;
             server_schedule := make_propagation_schedule (tree_grid tr);
             _zero_row := map (fun col => length col) (observed p);
             _VEM := (V, (V - 1)%nat, model_num_clusters config) |}
  end.

(** The body of the loop of the ['sample'] branch. The state carries the
    [observed_latent] tables of the posterior, which the loop writes. *)
Definition sample_visit (M : nat) (tr : TreeStructure)
    (edge_probs : list (list (list Qc))) (counts : list Z)
    (acc : list (list Qc) * list nat * list (list Z) * list (list (list Qc)) * RNG)
    (s : visit)
  : list (list Qc) * list nat * list (list Z) * list (list (list Qc)) * RNG :=
  let '(v, parent, _) := s in
  let '(messages, vert_sample, feat_sample, feat_probs, rng) := acc in
  let message := nth v messages [] in
  let message :=
    match parent with
    | Some p =>
        let e := find_tree_edge tr p v in
        let trans := nth e edge_probs [] in
        let trans := if (v <? p)%nat then transpose M trans else trans in
        vmul message (nth (nth p vert_sample 0%nat) trans [])
    | None => message
    end in
  let message := vscale_div message (vsum message) in
  let '(k, rng) := sample_from_probs message rng in
  let messages := <[v := message]> messages in
  let vert_sample := <[v := k]> vert_sample in
  if (nth v counts 0 =? 0)%Z then
    (messages, vert_sample, feat_sample, feat_probs, rng)
  else
    let table := normalize_column k (nth v feat_probs []) in
    let probs := column k table in
    let '(draw, rng) := random_multinomial (nth v counts 0%Z) probs rng in
    (messages, vert_sample, <[v := draw]> feat_sample, <[v := table]> feat_probs, rng).

Definition _propagate (s : TreeCatServer) (task : string) (data : list (list Z))
    (counts : list Z) (rng : RNG) : task_result * TreeCatServer * RNG :=
  let M := server_M s in
  let feat_probs := observed_latent (_posterior s) in
  let edge_probs := latent_latent (_posterior s) in
  let vert_probs := latent (_posterior s) in
  let '(messages, logprob) :=
    upward M (_tree s) (server_schedule s)
           (fun v => nth v feat_probs []) (fun v => nth v data [])
           edge_probs vert_probs in
  if decide (task = "logprob"%string) then
    match server_schedule s with
    | [] => (Raise IndexError, s, rng)
    | (root, parent, _) :: _ =>
        match parent with
        | Some _ => (Raise AssertionError, s, rng)
        | None => (Logprob (logprob ++ [vsum (nth root messages [])]), s, rng)
        end
    end
  else if decide (task = "sample"%string) then
    let '(_, _, feat_sample, feat_probs', rng') :=
      foldl (sample_visit M (_tree s) edge_probs counts)
            (messages, replicate (server_V s) 0%nat,
             map (fun col => replicate (length col) 0%Z) data,
             feat_probs, rng)
            (server_schedule s) in
    (Sample feat_sample, with_observed_latent s feat_probs', rng')
  else (Raise (ValueError ("Unknown task: " +:+ task)), s, rng).

(** [TreeCatServer.sample] and [TreeCatServer.logprob]. *)
Definition shapes_match (s : TreeCatServer) (data : list (list Z)) : bool :=
  (length data =? server_V s)%nat
  && forallb (fun v => (length (nth v data []) =? nth v (_zero_row s) 0)%nat)
             (seq 0 (server_V s)).

Definition server_sample (s : TreeCatServer) (cond_data : list (list Z))
    (counts : list Z) (rng : RNG) : task_result * TreeCatServer * RNG :=
  match cond_data with
  | [] => (Raise IndexError, s, rng)
  | _ :: _ =>
      if shapes_match s cond_data && (length counts =? server_V s)%nat then
        _propagate s "sample" cond_data counts rng
      else (Raise AssertionError, s, rng)
  end.

Definition server_logprob (s : TreeCatServer) (data : list (list Z)) (rng : RNG)
  : task_result * TreeCatServer * RNG :=
  if shapes_match s data then _propagate s "logprob" data [] rng
  else (Raise AssertionError, s, rng).

(** [serve_model(tree, suffstats, config)]. *)
Definition serve_model (tr : TreeStructure) (ss : SuffStats) (config : Config)
  : error + TreeCatServer :=
  TreeCatServer_init tr ss config.

End Server.

(** ** A concrete set of collaborators

    The model whose latent tree is the path [0 - 1 - ... - (V-1)], rooted at
    [0], and whose tree resampling returns the edges it was given. The
    random state is a tape of categorical draws ([0] once the tape is
    used up); a multinomial draw puts every count on the first category and
    a shuffle returns the list as it is. *)

Definition path_grid (V : nat) : list (nat * nat * nat) :=
  map (fun e => (e, e, S e)) (seq 0 (V - 1)).

(** The pairs [v1 < v2] in lexicographic order, numbered from [0]. *)
Definition complete_pairs (V : nat) : list (nat * nat) :=
  concat (map (fun v1 => map (fun v2 => (v1, v2)) (seq (S v1) (V - S v1))) (seq 0 V)).
Definition path_complete_grid (V : nat) : list (nat * nat * nat) :=
  imap (fun k '(v1, v2) => (k, v1, v2)) (complete_pairs V).

Definition path_tree (V : nat) : TreeStructure :=
  {| num_vertices := V;
     vertices := seq 0 V;
     tree_grid := path_grid V;
     complete_grid := path_complete_grid V;
     find_tree_edge := Nat.min |}.

Definition path_schedule (V : nat) : list visit :=
  map (fun v => (v,
                 if (v =? 0)%nat then None else Some (v - 1)%nat,
                 if (S v <? V)%nat then [S v] else []))
      (seq 0 V).

#[export] Instance path_collaborators : Collaborators :=
  {| RNG := list nat;
     random_seed := fun _ => [];
     random_shuffle := fun l rng => (l, rng);
     random_multinomial := fun n probs rng =>
       (match probs with [] => [] | _ :: rest => n :: map (fun _ => 0%Z) rest end, rng);
     sample_from_probs := fun _ rng =>
       match rng with [] => (0%nat, []) | k :: rng' => (k, rng') end;
     TreeStructure_new := path_tree;
     set_edges := fun tr _ => tr;
     gc := fun tr => tr;
     make_propagation_schedule := fun grid => path_schedule (S (length grid));
     structure_sample_tree := fun _ _ edges _ rng => (edges, rng) |}.

(** The configuration of the examples. *)
Definition example_config (M : nat) (epochs : Q) (steps : Z) : Config :=
  {| model_num_clusters := M;
     learning_annealing_epochs := epochs;
     learning_annealing_init_rows := 0;
     learning_sample_tree_steps := steps;
     seed := 0 |}.

(** A random state of [path_collaborators]: the tape of its next draws. *)
Definition tape (draws : list nat) : @RNG path_collaborators := draws.


(** * Vocabulary of the statements *)

(** ** The annealing schedule *)

(** The rows yielded for addition and for removal, in order. *)
Definition added (acts : list action) : list nat :=
  omap (fun a => match a with add_row_action r => Some r | _ => None end) acts.
Definition removed (acts : list action) : list nat :=
  omap (fun a => match a with remove_row_action r => Some r | _ => None end) acts.

(** The rows between the removal cursor and the addition cursor. *)
Definition window (row_ids : list nat) (g : annealing) : list nat :=
  map (cycle_at row_ids) (seq (row_to_remove g) (row_to_add g - row_to_remove g)).

(** A bound on the number of removals: no row is removed once
    [num_rows * epochs] rows have been added. *)
Definition removal_bound (config : Config) (num_rows : nat) : Z :=
  Qceiling (inject_Z (Z.of_nat num_rows) * learning_annealing_epochs config).

(** What the locals of the generator satisfy at the loop head. *)
Definition annealing_inv (config : Config) (num_rows : nat) (g : annealing) : Prop :=
  (num_fresh g + num_stale g = Z.of_nat (row_to_add g) - Z.of_nat (row_to_remove g))%Z
  /\ (state g
      == learning_annealing_epochs config * learning_annealing_init_rows config
         + inject_Z (Z.of_nat (row_to_add g))
         - inject_Z (Z.of_nat (row_to_add g) - Z.of_nat (row_to_remove g))
           * learning_annealing_epochs config)%Q
  /\ (0 <= Z.of_nat (row_to_add g) - Z.of_nat (row_to_remove g) <= Z.of_nat num_rows)%Z
  /\ (Z.of_nat (row_to_remove g) <= removal_bound config num_rows)%Z.

(** Iterations that are always enough for [get_annealing_schedule]. *)
Definition schedule_fuel (num_rows : nat) (config : Config) : nat :=
  S (Z.to_nat (Z.of_nat num_rows + 2 * removal_bound config num_rows)).

(** *** The binary64 counter *)

(** The magnitude [m * 2 ^ e] of a finite float, in units of [2 ^ -1074]
    (the smallest positive binary64 value). *)
Definition mag (m : positive) (e : Z) : Z := (Z.pos m * 2 ^ (e + 1074))%Z.

(** The binary64 value of a positive integer below [2 ^ 53], with sign [s]. *)
Definition float_of_pos (s : bool) (v : positive) : spec_float :=
  S754_finite s (Z.to_pos (Z.pos v * 2 ^ (53 - Z.pos (digits2_pos v))))
    (Z.pos (digits2_pos v) - 53).

(** What the counter satisfies throughout: it is a number, not [-inf], and
    not below [-epochs]. *)
Definition counter_ok (epochs x : spec_float) : Prop :=
  match x with
  | S754_nan => False
  | S754_infinity s => s = false
  | S754_zero _ => True
  | S754_finite false _ e => (-1074 <= e)%Z
  | S754_finite true m e =>
      (-1074 <= e)%Z
      /\ match epochs with
         | S754_finite false me ee => (mag m e <= mag me ee)%Z
         | _ => False
         end
  end.

(** The rows between the removal cursor and the addition cursor. *)
Definition window_float (row_ids : list nat) (g : annealing_float) : list nat :=
  map (cycle_at row_ids) (seq (f_row_to_remove g) (f_row_to_add g - f_row_to_remove g)).

(** What the locals of the generator satisfy at the loop head: a removal
    is due only while some row is assigned. *)
Definition annealing_inv_float (epochs : spec_float) (num_rows : nat)
    (g : annealing_float) : Prop :=
  (f_num_fresh g + f_num_stale g
   = Z.of_nat (f_row_to_add g) - Z.of_nat (f_row_to_remove g))%Z
  /\ (0 <= Z.of_nat (f_row_to_add g) - Z.of_nat (f_row_to_remove g)
       <= Z.of_nat num_rows)%Z
  /\ counter_ok epochs (f_state g)
  /\ (float_ge0 (f_state g) = false ->
      (1 <= Z.of_nat (f_row_to_add g) - Z.of_nat (f_row_to_remove g))%Z).

(** A configuration whose [epochs] and [init_rows] are the integers [ke]
    and [ki], small enough for the counter never to leave the integers
    that binary64 holds exactly. *)
Definition integer_valued (config : Config) (ke ki : Z) (num_rows : nat) : Prop :=
  (learning_annealing_epochs config == inject_Z ke)%Q
  /\ (learning_annealing_init_rows config == inject_Z ki)%Q
  /\ (1 <= ke)%Z /\ (0 <= ki)%Z
  /\ (ke * (ki + 3 * Z.of_nat num_rows + 1) < 2 ^ 53)%Z.

(** The value of the counter when [adds] rows have been added and
    [removes] removed. *)
Definition counter_value (ke ki : Z) (adds removes : nat) : Z :=
  (ke * ki + Z.of_nat adds - (Z.of_nat adds - Z.of_nat removes) * ke)%Z.

(** The locals of the two generators agree. *)
Definition locals_agree (ke ki : Z) (gf : annealing_float) (g : annealing) : Prop :=
  f_num_fresh gf = num_fresh g /\ f_num_stale gf = num_stale g
  /\ f_row_to_add gf = row_to_add g /\ f_row_to_remove gf = row_to_remove g
  /\ f_state gf = float_of_Z (counter_value ke ki (row_to_add g) (row_to_remove g)).

(** The configuration of the integers [epochs] and [init_rows]. *)
Definition integer_config (epochs init_rows steps : Z) : Config :=
  {| model_num_clusters := 1;
     learning_annealing_epochs := inject_Z epochs;
     learning_annealing_init_rows := inject_Z init_rows;
     learning_sample_tree_steps := steps;
     seed := 0 |}.

(** ** Integer arrays *)

(** Cells by position, [None] outside the array. *)
Definition look2 (a : list (list Z)) (i j : nat) : option Z :=
  a !! i ≫= fun row => row !! j.
Definition look3 (a : list (list (list Z))) (e i j : nat) : option Z :=
  a !! e ≫= fun mat => look2 mat i j.

Definition same_shape2 (a b : list (list Z)) : Prop :=
  Forall2 (fun r1 r2 => length r1 = length r2) a b.
Definition same_shape3 (a b : list (list (list Z))) : Prop :=
  Forall2 same_shape2 a b.

Definition all_int32_2 (a : list (list Z)) : Prop := Forall (Forall int32) a.
Definition all_int32_3 (a : list (list (list Z))) : Prop := Forall all_int32_2 a.

(** ** Trainer states *)

Definition suffstats_int32 (t : TreeCatTrainer) : Prop :=
  all_int32_2 (_vert_ss t) /\ all_int32_3 (_edge_ss t) /\ all_int32_3 (_feat_ss t).

(** No stored count of the row is [-128], the one [int8] value whose
    opposite is not an [int8]. *)
Definition row_counts_negatable (t : TreeCatTrainer) (row_id : nat) : Prop :=
  forall v column, _data t !! v = Some column ->
    Forall (fun x => int8 x /\ x <> (-128)%Z) (nth row_id column []).

(** The candidate grid of the tree has the [K] columns [sample_tree]
    asserts, and no tree edge joins a vertex to itself. *)
Definition tree_well_formed (t : TreeCatTrainer) : Prop :=
  trainer_K t = length (complete_grid (tree t))
  /\ Forall (fun '(_, v1, v2) => v1 <> v2) (tree_grid (tree t)).

(** The trainer [__init__] builds, or an empty one when it raises. *)
Definition trainer_of `{Collaborators} (data : list (list (list Z))) (config : Config)
  : TreeCatTrainer :=
  match TreeCatTrainer_init data config with
  | inr t => t
  | inl _ =>
      {| _data := []; _config := config; _assigned_rows := ∅; assignments := [];
         tree := TreeStructure_new 0; _schedule := []; _VEKM := (0, 0, 0, 0)%nat;
         _vert_ss := []; _edge_ss := []; _feat_ss := [] |}
  end.

(** The state [train] returns ([t] itself if it raises or needs more fuel).
    [gammaln] only reaches the tree-resampling collaborator. *)
Definition final_trainer `{Collaborators} (t : TreeCatTrainer) (fuel : nat)
  : TreeCatTrainer :=
  match train (fun _ => 0%R) fuel t with
  | Some (None, t', _) => t'
  | _ => t
  end.

(** The tally the statistics stand for: the counts of category [c] of
    feature [v], summed over the assigned rows whose cluster at [v] is [m]. *)
Definition exact_feat_count (data : list (list (list Z))) (assignments : list (list nat))
    (assigned : list nat) (v c m : nat) : Z :=
  foldr Z.add 0%Z
    (map (fun row_id =>
            if (nth v (nth row_id assignments []) 0 =? m)%nat
            then nth c (nth row_id (nth v data []) []) 0%Z else 0%Z)
         assigned).

(** A three-feature trainer (path tree [0 - 1 - 2]) after one [add_row]. *)
Definition trainer_three_features : TreeCatTrainer :=
  (add_row (trainer_of [[[1%Z]]; [[1%Z]]; [[1%Z]]] (example_config 1 1 1)) 0 (tape [])).1.2.

(** Two data sets of two rows with the same column totals, and the states
    [train] ends in on them. *)
Definition rows_split : list (list (list Z)) := [[[1; 0]; [0; 1]]]%Z.
Definition rows_together : list (list (list Z)) := [[[1; 1]; [0; 0]]]%Z.
Definition trainer_split : TreeCatTrainer :=
  final_trainer (trainer_of rows_split (example_config 1 1 0)) 2.
Definition trainer_together : TreeCatTrainer :=
  final_trainer (trainer_of rows_together (example_config 1 1 0)) 2.

(** ** Posteriors and servers *)

Definition pos_vec (x : list Qc) : Prop := Forall (fun a => (0 < a)%Qc) x.

Definition nonneg_counts (ss : SuffStats) : Prop :=
  Forall (Forall (fun z => (0 <= z)%Z)) (vert_ss ss)
  /\ Forall (Forall (Forall (fun z => (0 <= z)%Z))) (feat_ss ss).
Definition features_nonempty (ss : SuffStats) : Prop :=
  Forall (fun table => table <> []) (feat_ss ss).

(** The posterior [make_posterior] returns, or an empty one when it raises. *)
Definition posterior_of (grid : list (nat * nat * nat)) (ss : SuffStats) : Posterior :=
  match make_posterior grid ss with
  | inr p => p
  | inl _ => {| observed := []; observed_latent := []; latent := []; latent_latent := [] |}
  end.

(** The server [__init__] builds, or an empty one when it raises. *)
Definition server_of `{Collaborators} (tr : TreeStructure) (ss : SuffStats)
    (config : Config) : TreeCatServer :=
  match TreeCatServer_init tr ss config with
  | inr s => s
  | inl _ =>
      {| _tree := tr; server_config := config;
         _posterior := {| observed := []; observed_latent := []; latent := [];
                          latent_latent := [] |};
         server_schedule := []; _zero_row := []; _VEM := (0, 0, 0)%nat |}
  end.

(** Snapshots of the examples: one feature with two categories, one
    feature without any category, and statistics that are all zero. *)
Definition snapshot_two_categories : SuffStats :=
  {| feat_ss := [[[3; 0]; [1; 2]]]%Z; vert_ss := [[4; 2]]%Z; edge_ss := [] |}.
Definition snapshot_no_category : SuffStats :=
  {| feat_ss := [[]]; vert_ss := [[0%Z]]; edge_ss := [] |}.
Definition snapshot_zero : SuffStats :=
  {| feat_ss := [[[0; 0]; [0; 0]]]%Z; vert_ss := [[0; 0]]%Z; edge_ss := [] |}.
Definition server_zero : TreeCatServer :=
  server_of (path_tree 1) snapshot_zero (example_config 2 1 0).

(** The arguments of [np.log] of a ['logprob'] result, as fractions. *)
Definition log_terms (r : task_result) : list Q :=
  match r with Logprob args => map this args | _ => [] end.

(** ** Training-side against serving-side log probability *)

(** Row [row_id] of the training data, as a query for the server. *)
Definition data_row (t : TreeCatTrainer) (row_id : nat) : list (list Z) :=
  map (fun column => nth row_id column []) (_data t).

(** [server.logprob(row)] as a real ([0] when the call raises). *)
Definition server_row_logprob `{Collaborators} (s : TreeCatServer) (rng : RNG)
    (row : list (list Z)) : R :=
  match (server_logprob s row rng).1.1 with
  | Logprob args => logprob_value args
  | _ => 0%R
  end.

(** The sum over the rows of the per-row logprob of the server built from
    the tree and the sufficient statistics of the trainer. *)
Definition server_total_logprob `{Collaborators} (t : TreeCatTrainer) (rng : RNG) : R :=
  let s := server_of (tree t) (suffstats t) (_config t) in
  Rsum (map (fun row_id => server_row_logprob s rng (data_row t row_id))
            (seq 0 (length (assignments t)))).

(** The same sum, as the fractions whose logarithms are added. *)
Definition server_total_terms `{Collaborators} (t : TreeCatTrainer) (rng : RNG)
  : list (list Q) :=
  let s := server_of (tree t) (suffstats t) (_config t) in
  map (fun row_id => log_terms (server_logprob s (data_row t row_id) rng).1.1)
      (seq 0 (length (assignments t))).

(** The equality that is claimed of a final trainer state. *)
Definition logprob_agreement `{Collaborators} (gammaln : R -> R) (t : TreeCatTrainer)
    (rng : RNG) : Prop :=
  logprob gammaln t = inr (server_total_logprob t rng).


(** ** Tallies of the assigned rows *)

Definition Zsum (x : list Z) : Z := foldr Z.add 0%Z x.

(** The sum of all the cells of a table. *)
Definition table_total (a : list (list Z)) : Z := Zsum (map Zsum a).

(** Rows of [V] cluster ids, each in [range(M)]. *)
Definition rows_in_range (V M : nat) (rows : list (list nat)) : Prop :=
  Forall (fun row => length row = V /\ Forall (fun k => (k < M)%nat) row) rows.

(** The number of rows whose clusters at [v1] and [v2] are [i] and [j]. *)
Definition pair_count (rows : list (list nat)) (v1 v2 i j : nat) : Z :=
  Zsum (map (fun row =>
               if (nth v1 row 0 =? i)%nat && (nth v2 row 0 =? j)%nat then 1%Z else 0%Z)
            rows).

(** The number of the rows [assigned] whose cluster at [v] is [m], and of
    those whose clusters at [v1] and [v2] are [i] and [j]. *)
Definition exact_vert_count (assignments : list (list nat)) (assigned : list nat)
    (v m : nat) : Z :=
  Zsum (map (fun row_id =>
               if (nth v (nth row_id assignments []) 0 =? m)%nat then 1%Z else 0%Z)
            assigned).
Definition exact_edge_count (assignments : list (list nat)) (assigned : list nat)
    (v1 v2 i j : nat) : Z :=
  pair_count (map (fun row_id => nth row_id assignments []) assigned) v1 v2 i j.

(** A sum over a set of rows of a weight that depends on the row and on
    its assignments. *)
Definition tally (assignments : list (list nat)) (rows : gset nat)
    (w : list nat -> nat -> Z) : Z :=
  Zsum (map (fun row_id => w (nth row_id assignments []) row_id) (elements rows)).

(** The weights of one row in the three tallies. *)
Definition vert_weight (v m : nat) (a : list nat) (row_id : nat) : Z :=
  if (nth v a 0 =? m)%nat then 1%Z else 0%Z.
Definition edge_weight (v1 v2 i j : nat) (a : list nat) (row_id : nat) : Z :=
  if (nth v1 a 0 =? i)%nat && (nth v2 a 0 =? j)%nat then 1%Z else 0%Z.
Definition feat_weight (data : list (list (list Z))) (v c m : nat) (a : list nat)
    (row_id : nat) : Z :=
  if (nth v a 0 =? m)%nat then nth c (nth row_id (nth v data []) []) 0%Z else 0%Z.

(** Every cell of the three statistics holds, modulo [2^32], the tally of
    the rows [rows] under the assignments of the trainer. *)
Definition stats_match (t : TreeCatTrainer) (rows : gset nat) : Prop :=
  (forall v m z, look2 (_vert_ss t) v m = Some z ->
     z = wrap32 (exact_vert_count (assignments t) (elements rows) v m))
  /\ (forall e v1 v2 i j z, (e, v1, v2) ∈ tree_grid (tree t) ->
        look3 (_edge_ss t) e i j = Some z ->
        z = wrap32 (exact_edge_count (assignments t) (elements rows) v1 v2 i j))
  /\ (forall v c m z, look3 (_feat_ss t) v c m = Some z ->
        z = wrap32 (exact_feat_count (_data t) (assignments t) (elements rows) v c m)).

(** The statistics are the tallies of the assigned rows. *)
Definition stats_exact (t : TreeCatTrainer) : Prop := stats_match t (_assigned_rows t).

Definition trainer_E (t : TreeCatTrainer) : nat :=
  let '(_, E, _, _) := _VEKM t in E.

(** What the trainer relies on in a tree over [V] vertices: the vertices
    are [0 .. V-1], the [E] tree edges are numbered apart below [E] and join
    two different vertices, and there are [K] candidate edges. *)
Definition tree_shaped (V E K : nat) (tr : TreeStructure) : Prop :=
  vertices tr = seq 0 V
  /\ length (tree_grid tr) = E
  /\ NoDup (map (fun '(e, _, _) => e) (tree_grid tr))
  /\ Forall (fun '(e, v1, v2) => (e < E)%nat /\ (v1 < V)%nat /\ (v2 < V)%nat /\ v1 <> v2)
            (tree_grid tr)
  /\ length (complete_grid tr) = K.

(** The shapes [__init__] sets up, with counts that fit [int8] and cluster
    ids in [range(M)]. *)
Definition trainer_shaped (t : TreeCatTrainer) : Prop :=
  let V := trainer_V t in
  let E := trainer_E t in
  let M := trainer_M t in
  (0 < M)%nat /\ (0 < V)%nat /\ E = (V - 1)%nat
  /\ tree_shaped V E (trainer_K t) (tree t)
  /\ length (_vert_ss t) = V
  /\ Forall (fun row => length row = M) (_vert_ss t)
  /\ length (_edge_ss t) = E
  /\ Forall (fun mat => length mat = M /\ Forall (fun row => length row = M) mat)
            (_edge_ss t)
  /\ length (_feat_ss t) = V
  /\ Forall (Forall (fun row => length row = M)) (_feat_ss t)
  /\ length (_data t) = V
  /\ Forall (Forall (Forall (fun x => (0 <= x <= 127)%Z))) (_data t)
  /\ rows_in_range V M (assignments t)
  /\ (forall r, r ∈ _assigned_rows t -> (r < length (assignments t))%nat).

(** [sample_from_probs] returns a cluster id. *)
Definition draws_in_range `{Collaborators} (M : nat) : Prop :=
  forall probs rng, (length probs <= M)%nat -> ((sample_from_probs probs rng).1 < M)%nat.

(** [set_edges] keeps the tree of the trainer well formed. *)
Definition set_edges_shaped `{Collaborators} : Prop :=
  forall V E K tr edges, tree_shaped V E K tr -> tree_shaped V E K (set_edges tr edges).

(** The collaborators of [path_collaborators], with the draw of
    [sample_from_probs] clamped to an index of its argument. *)
Definition clamped_collaborators : Collaborators :=
  {| RNG := list nat;
     random_seed := fun _ => [];
     random_shuffle := fun l rng => (l, rng);
     random_multinomial := fun n probs rng =>
       (match probs with [] => [] | _ :: rest => n :: map (fun _ => 0%Z) rest end, rng);
     sample_from_probs := fun probs rng =>
       match rng with
       | [] => (0%nat, [])
       | k :: rng' => (Nat.min k (length probs - 1), rng')
       end;
     TreeStructure_new := path_tree;
     set_edges := fun tr _ => tr;
     gc := fun tr => tr;
     make_propagation_schedule := fun grid => path_schedule (S (length grid));
     structure_sample_tree := fun _ _ edges _ rng => (edges, rng) |}.

(** [np.random.shuffle] permutes, [gc] keeps the tree edges, and
    [TreeStructure(V)] is a well-formed tree over [V] vertices. *)
Definition shuffle_permutes `{Collaborators} : Prop :=
  forall l rng, (random_shuffle l rng).1 ≡ₚ l.
Definition gc_keeps_grid `{Collaborators} : Prop :=
  forall tr, tree_grid (gc tr) = tree_grid tr.
Definition new_tree_shaped `{Collaborators} (V : nat) : Prop :=
  num_vertices (TreeStructure_new V) = V
  /\ tree_shaped V (V - 1) (V * (V - 1) / 2) (TreeStructure_new V).

(** Count data that the [int8] store holds unchanged. *)
Definition data_counts (data : list (list (list Z))) : Prop :=
  Forall (Forall (Forall (fun x => (0 <= x <= 127)%Z))) data.

(** Two features (two categories and one category) over two rows, and the
    trainer [__init__] builds on them with [clamped_collaborators]. *)
Definition data_two_features : list (list (list Z)) :=
  [[[1; 0]; [0; 1]]; [[2]; [0]]]%Z.
Definition trainer_two_features : TreeCatTrainer :=
  trainer_of (H := clamped_collaborators) data_two_features (example_config 2 (3 # 2) 1).

(** A snapshot of two features joined by one edge. *)
Definition snapshot_two_vertices : SuffStats :=
  {| feat_ss := [[[2; 0]; [1; 1]]; [[3; 1]]]%Z;
     vert_ss := [[3; 1]; [3; 1]]%Z;
     edge_ss := [[[3; 0]; [0; 1]]]%Z |}.

Definition nonneg_edge_counts (ss : SuffStats) : Prop :=
  Forall (Forall (Forall (fun z => (0 <= z)%Z))) (edge_ss ss).

(** A row of [K] counts with one observation, of category [c]. *)
Definition unit_row (K c : nat) : list Z :=
  replicate c 0%Z ++ 1%Z :: replicate (K - S c) 0%Z.


(** Statistics that are all zero, for [M] clusters and features with
    [Ks] categories, and the uniform tables over the same shapes. *)
Definition zero_snapshot (M : nat) (Ks : list nat) : SuffStats :=
  {| feat_ss := map (fun K => replicate K (replicate M 0%Z)) Ks;
     vert_ss := replicate (length Ks) (replicate M 0%Z);
     edge_ss := replicate (length Ks - 1) (replicate M (replicate M 0%Z)) |}.
Definition uniform_posterior (M : nat) (Ks : list nat) : Posterior :=
  {| observed := map (fun K => replicate K (1 / qn K)%Qc) Ks;
     observed_latent := map (fun K => replicate K (replicate M (1 / (qn K * qn M))%Qc)) Ks;
     latent := replicate (length Ks) (replicate M (1 / qn M)%Qc);
     latent_latent :=
       replicate (length Ks - 1) (replicate M (replicate M (1 / (qn M * qn M))%Qc)) |}.



(** * Proofs *)

(** ** The annealing schedule with the exact counter *)

Section AnnealingSchedule.
Variable config : Config.
Variable num_rows : nat.
Variable row_ids : list nat.
Hypothesis epochs_ge_1 : (1 <= learning_annealing_epochs config)%Q.
Hypothesis init_rows_nonneg : (0 <= learning_annealing_init_rows config)%Q.

Local Abbreviation epochs := (learning_annealing_epochs config).
Local Abbreviation state0 := (epochs * learning_annealing_init_rows config)%Q.
Local Abbreviation adds g := (Z.of_nat (row_to_add g)).
Local Abbreviation removes g := (Z.of_nat (row_to_remove g)).

Lemma state0_nonneg : (0 <= state0)%Q.
Proof.
  apply Qmult_le_0_compat; [|assumption].
  apply Qle_trans with 1%Q; [discriminate | assumption].
Qed.

Lemma annealing_init_inv : annealing_inv config num_rows (annealing_init config).
Proof.
  unfold annealing_inv, removal_bound; simpl.
  repeat split; try lia.
  - change (inject_Z (Z.of_nat 0 - Z.of_nat 0)) with 0%Q.
    change (inject_Z (Z.of_nat 0)) with 0%Q. ring.
  - apply Z.le_trans with (Qceiling (inject_Z 0)); [rewrite Qceiling_Z; lia|].
    apply Qceiling_resp_le. change (inject_Z 0) with 0%Q.
    apply Qmult_le_0_compat.
    + change 0%Q with (inject_Z 0). rewrite <- Zle_Qle. lia.
    + apply Qle_trans with 1%Q; [discriminate | assumption].
Qed.

(** The effect of one iteration on the two cursors and on the yielded
    actions: exactly one row action, an addition when [state >= 0]. *)
Lemma annealing_step_spec (g : annealing) :
  let '(acts, g') := annealing_step config row_ids g in
  (Qle_bool 0 (state g) = true
   /\ row_to_add g' = S (row_to_add g) /\ row_to_remove g' = row_to_remove g
   /\ state g' = (state g - (epochs - 1))%Q
   /\ (acts = [add_row_action (cycle_at row_ids (row_to_add g))]
       \/ acts = [add_row_action (cycle_at row_ids (row_to_add g)); sample_tree_action])
   /\ (num_fresh g' + num_stale g' = num_fresh g + num_stale g + 1)%Z)
  \/
  (Qle_bool 0 (state g) = false
   /\ row_to_add g' = row_to_add g /\ row_to_remove g' = S (row_to_remove g)
   /\ state g' = (state g + epochs)%Q
   /\ (acts = [remove_row_action (cycle_at row_ids (row_to_remove g))]
       \/ acts = [remove_row_action (cycle_at row_ids (row_to_remove g)); sample_tree_action])
   /\ (num_fresh g' + num_stale g' = num_fresh g + num_stale g - 1)%Z).
Proof.
  unfold annealing_step.
  destruct (Qle_bool 0 (state g)) eqn:Hs; cbv zeta.
  - match goal with |- context [if ?b then _ else _] => destruct b eqn:Hb end; simpl;
      left; repeat split; auto; simpl in Hb; try lia.
  - match goal with |- context [if ?b then _ else _] => destruct b eqn:Hb end; simpl;
      right; repeat split; auto; simpl in Hb; try lia.
Qed.

Lemma annealing_step_inv (g : annealing) :
  annealing_inv config num_rows g ->
  (num_fresh g + num_stale g)%Z <> Z.of_nat num_rows ->
  annealing_inv config num_rows (snd (annealing_step config row_ids g)).
Proof.
  intros (Hsum & Hst & Hd & Hr) Hne.
  pose proof (annealing_step_spec g) as Hspec.
  destruct (annealing_step config row_ids g) as [acts g']. simpl.
  pose proof state0_nonneg as Hs0.
  assert (He0 : (0 <= epochs)%Q) by (apply Qle_trans with 1%Q; [discriminate | exact epochs_ge_1]).
  unfold annealing_inv in *.
  destruct Hspec as [(Hb & Ha & Hrm & Hst' & _ & Hfs) | (Hb & Ha & Hrm & Hst' & _ & Hfs)];
    rewrite Ha, Hrm, Hst'.
  - repeat split; try lia.
    rewrite Hst.
    replace (Z.of_nat (S (row_to_add g)) - Z.of_nat (row_to_remove g))%Z
      with ((Z.of_nat (row_to_add g) - Z.of_nat (row_to_remove g)) + 1)%Z by lia.
    replace (Z.of_nat (S (row_to_add g))) with (Z.of_nat (row_to_add g) + 1)%Z by lia.
    rewrite !inject_Z_plus. change (inject_Z 1) with 1%Q.
    generalize (inject_Z (adds g - removes g)) (inject_Z (adds g)). intros; ring.
  - assert (Hneg : (state g < 0)%Q).
    { apply Qnot_le_lt. intros Hle. apply Qle_bool_iff in Hle. congruence. }
    set (a := Z.of_nat (row_to_add g)) in *.
    set (r := Z.of_nat (row_to_remove g)) in *.
    rewrite Hst in Hneg.
    assert (Ha0 : (0 <= inject_Z a)%Q) by (rewrite <- (Zle_Qle 0); lia).
    assert (Hdn : (inject_Z (a - r) <= inject_Z (Z.of_nat num_rows))%Q)
      by (rewrite <- Zle_Qle; lia).
    assert (Hd0 : (0 <= inject_Z (a - r))%Q) by (rewrite <- (Zle_Qle 0); lia).
    (* the window is not empty when a removal is scheduled *)
    assert (Hpos : (1 <= a - r)%Z).
    { destruct (Z.eq_dec (a - r)%Z 0%Z) as [E|E]; [|lia].
      rewrite E in Hneg. change (inject_Z 0) with 0%Q in Hneg. exfalso.
      apply (Qlt_not_le _ _ Hneg).
      revert Hs0 Ha0. generalize state0 (inject_Z a). clear. intros; lra. }
    (* and fewer than [num_rows * epochs] rows have been added *)
    assert (Hlt : (a < removal_bound config num_rows)%Z).
    { rewrite Zlt_Qlt. eapply Qlt_le_trans; [|apply Qle_ceiling].
      assert (inject_Z (a - r) * epochs <= inject_Z (Z.of_nat num_rows) * epochs)%Q
        by (apply Qmult_le_compat_r; assumption).
      revert H Hneg Hs0. generalize state0 (inject_Z a) (inject_Z (a - r) * epochs)%Q
                 (inject_Z (Z.of_nat num_rows) * epochs)%Q.
      clear. intros; lra. }
    repeat split; try lia.
    rewrite Hst.
    replace (a - Z.of_nat (S (row_to_remove g)))%Z with ((a - r) + -1)%Z by lia.
    rewrite inject_Z_plus. change (inject_Z (-1)) with (-1)%Q.
    generalize (inject_Z (a - r)) (inject_Z a). intros; ring.
Qed.

Lemma count_adds_app (l1 l2 : list action) :
  count_adds (l1 ++ l2) = (count_adds l1 + count_adds l2)%Z.
Proof. unfold count_adds. rewrite filter_app, length_app. lia. Qed.

Lemma count_removes_app (l1 l2 : list action) :
  count_removes (l1 ++ l2) = (count_removes l1 + count_removes l2)%Z.
Proof. unfold count_removes. rewrite filter_app, length_app. lia. Qed.

Lemma count_adds_cons (a : action) (l : list action) :
  count_adds (a :: l) = ((if is_add a then 1 else 0) + count_adds l)%Z.
Proof.
  unfold count_adds. rewrite filter_cons.
  destruct (decide (is_add a = true)) as [E|E]; destruct (is_add a);
    simpl length; try congruence; lia.
Qed.

Lemma count_removes_cons (a : action) (l : list action) :
  count_removes (a :: l) = ((if is_remove a then 1 else 0) + count_removes l)%Z.
Proof.
  unfold count_removes. rewrite filter_cons.
  destruct (decide (is_remove a = true)) as [E|E]; destruct (is_remove a);
    simpl length; try congruence; lia.
Qed.

(** The yielded actions of one iteration move the add-minus-remove
    difference exactly as the cursors move. *)
Lemma annealing_step_diff (g : annealing) :
  let '(acts, g') := annealing_step config row_ids g in
  (count_adds acts - count_removes acts
   = (adds g' - removes g') - (adds g - removes g))%Z
  /\ (adds g' + removes g' = adds g + removes g + 1)%Z.
Proof.
  pose proof (annealing_step_spec g) as Hspec.
  destruct (annealing_step config row_ids g) as [acts g'].
  destruct Hspec as [(_ & Ha & Hr & _ & [-> | ->] & _) | (_ & Ha & Hr & _ & [-> | ->] & _)];
    rewrite Ha, Hr; split; try lia;
    rewrite ?count_adds_cons, ?count_removes_cons;
    change (count_adds []) with 0%Z; change (count_removes []) with 0%Z; cbn; lia.
Qed.

Lemma annealing_loop_terminates (fuel : nat) : forall g : annealing,
  annealing_inv config num_rows g ->
  (Z.of_nat num_rows + 2 * removal_bound config num_rows - (adds g + removes g) < Z.of_nat fuel)%Z ->
  exists acts,
    annealing_loop config num_rows row_ids fuel g = Some acts
    /\ (count_adds acts - count_removes acts
        = Z.of_nat num_rows - (adds g - removes g))%Z.
Proof.
  induction fuel as [|fuel IH]; intros g Hinv Hfuel.
  - destruct Hinv as (Hsum & _ & Hd & Hr). lia.
  - simpl.
    destruct (Z.eqb_spec (num_fresh g + num_stale g) (Z.of_nat num_rows)) as [Heq|Hne].
    + exists []. split; [reflexivity|]. destruct Hinv as (Hsum & _).
      change (count_adds []) with 0%Z. change (count_removes []) with 0%Z. lia.
    + pose proof (annealing_step_inv g Hinv Hne) as Hinv'.
      pose proof (annealing_step_diff g) as Hdiff.
      destruct (annealing_step config row_ids g) as [acts g']. simpl in Hinv'.
      destruct Hdiff as [Hdiff Hsteps].
      destruct (IH g' Hinv') as (rest & Hrest & Hcount); [lia|].
      rewrite Hrest. exists (acts ++ rest). split; [reflexivity|].
      rewrite count_adds_app, count_removes_app. lia.
Qed.

Lemma annealing_loop_more_fuel (fuel : nat) : forall (g : annealing) acts fuel',
  annealing_loop config num_rows row_ids fuel g = Some acts ->
  (fuel <= fuel')%nat ->
  annealing_loop config num_rows row_ids fuel' g = Some acts.
Proof.
  induction fuel as [|fuel IH]; intros g acts fuel' Hrun Hle.
  - simpl in Hrun.
    destruct (num_fresh g + num_stale g =? Z.of_nat num_rows)%Z eqn:E; [|discriminate].
    destruct fuel'; simpl; rewrite E; assumption.
  - destruct fuel' as [|fuel']; [lia|]. simpl in *.
    destruct (num_fresh g + num_stale g =? Z.of_nat num_rows)%Z; [assumption|].
    destruct (annealing_step config row_ids g) as [acts1 g'].
    destruct (annealing_loop config num_rows row_ids fuel g') as [rest|] eqn:E;
      [|discriminate].
    rewrite (IH g' rest fuel' E); [assumption | lia].
Qed.

(** *** Replaying the schedule on the assigned set *)

Hypothesis row_ids_shuffled : row_ids ≡ₚ seq 0 num_rows.

Lemma row_ids_length : length row_ids = num_rows.
Proof. rewrite row_ids_shuffled. apply length_seq. Qed.

Lemma row_ids_NoDup : NoDup row_ids.
Proof. rewrite row_ids_shuffled. apply NoDup_seq. Qed.

(** Two cursor positions less than [num_rows] apart name different rows. *)
Lemma cycle_at_neq (i j : nat) :
  (i < j)%nat -> (j < i + num_rows)%nat ->
  cycle_at row_ids i <> cycle_at row_ids j.
Proof.
  intros Hij Hj Heq. unfold cycle_at in Heq. rewrite row_ids_length in Heq.
  assert (Hn : num_rows <> 0%nat) by lia.
  pose proof row_ids_NoDup as Hnd.
  apply NoDup_ListNoDup in Hnd.
  pose proof (proj1 (List.NoDup_nth row_ids 0%nat) Hnd) as Hinj.
  apply Hinj in Heq; try (rewrite row_ids_length; apply Nat.mod_upper_bound; assumption).
  pose proof (Nat.div_mod_eq i num_rows). pose proof (Nat.div_mod_eq j num_rows).
  assert (Hq : (i / num_rows <= j / num_rows)%nat) by (apply Nat.Div0.div_le_mono; lia).
  revert H H0 Heq Hq.
  generalize (i / num_rows)%nat (j / num_rows)%nat (i mod num_rows)%nat (j mod num_rows)%nat.
  intros qi qj ri rj Hi Hj' Heq Hq. subst rj.
  destruct (Nat.eq_dec qi qj) as [->|Hneq]; [lia|].
  assert (num_rows * (qi + 1) <= num_rows * qj)%nat by (apply Nat.mul_le_mono_l; lia).
  lia.
Qed.

Lemma cycle_at_not_in_window (i r len : nat) :
  (i < r \/ r + len <= i)%nat -> (i < r + num_rows)%nat -> (r + len <= i + num_rows)%nat ->
  cycle_at row_ids i ∉ map (cycle_at row_ids) (seq r len).
Proof.
  intros Hout Hlo Hhi Hin. apply list_elem_of_fmap in Hin as (j & Heq & Hj).
  apply elem_of_seq in Hj.
  destruct (Nat.lt_ge_cases i j).
  - apply (cycle_at_neq i j); [lia | lia | assumption].
  - apply (cycle_at_neq j i); [lia | lia | symmetry; assumption].
Qed.

Lemma replay_app (S : gset nat) (l1 l2 : list action) :
  replay S (l1 ++ l2) = replay S l1 ≫= fun S' => replay S' l2.
Proof.
  revert S. induction l1 as [|a l1 IH]; intros S; simpl; [reflexivity|].
  destruct (apply_action S a); [apply IH | reflexivity].
Qed.

(** One iteration keeps the assigned set equal to the window: its row
    action meets the precondition of [add_row] or of [remove_row]. *)
Lemma annealing_step_replay (g : annealing) :
  annealing_inv config num_rows g ->
  (num_fresh g + num_stale g)%Z <> Z.of_nat num_rows ->
  replay (list_to_set (window row_ids g)) (fst (annealing_step config row_ids g))
  = Some (list_to_set (window row_ids (snd (annealing_step config row_ids g)))).
Proof.
  intros Hinv Hne.
  pose proof (annealing_step_inv g Hinv Hne) as Hinv'.
  pose proof (annealing_step_spec g) as Hspec.
  destruct (annealing_step config row_ids g) as [acts g']. simpl in *.
  destruct Hinv as (Hsum & _ & Hd & _). destruct Hinv' as (_ & _ & Hd' & _).
  unfold window.
  destruct Hspec as [(_ & Ha & Hr & _ & Hacts & _) | (_ & Ha & Hr & _ & Hacts & _)];
    rewrite Ha, Hr in *.
  - assert (Hstep : apply_action
              (list_to_set (map (cycle_at row_ids)
                 (seq (row_to_remove g) (row_to_add g - row_to_remove g))))
              (add_row_action (cycle_at row_ids (row_to_add g)))
            = Some (list_to_set (map (cycle_at row_ids)
                 (seq (row_to_remove g) (S (row_to_add g) - row_to_remove g))))).
    { simpl. rewrite decide_False.
      - f_equal. replace (S (row_to_add g) - row_to_remove g)%nat
          with (S (row_to_add g - row_to_remove g)) by lia.
        rewrite seq_S, map_app, list_to_set_app_L. simpl.
        replace (row_to_remove g + (row_to_add g - row_to_remove g))%nat
          with (row_to_add g) by lia.
        clear. set_solver.
      - rewrite elem_of_list_to_set. apply cycle_at_not_in_window; lia. }
    destruct Hacts as [-> | ->]; simpl replay; simpl in Hstep; rewrite Hstep; reflexivity.
  - assert (Hstep : apply_action
              (list_to_set (map (cycle_at row_ids)
                 (seq (row_to_remove g) (row_to_add g - row_to_remove g))))
              (remove_row_action (cycle_at row_ids (row_to_remove g)))
            = Some (list_to_set (map (cycle_at row_ids)
                 (seq (S (row_to_remove g)) (row_to_add g - S (row_to_remove g)))))).
    { replace (row_to_add g - row_to_remove g)%nat
        with (S (row_to_add g - S (row_to_remove g))) by lia.
      simpl. rewrite decide_True by (clear; set_solver).
      f_equal.
      assert (cycle_at row_ids (row_to_remove g)
              ∉ map (cycle_at row_ids)
                  (seq (S (row_to_remove g)) (row_to_add g - S (row_to_remove g))))
        as Hout by (apply cycle_at_not_in_window; lia).
      clear -Hout. set_solver. }
    destruct Hacts as [-> | ->]; simpl replay; simpl in Hstep; rewrite Hstep; reflexivity.
Qed.

Lemma annealing_loop_replay (fuel : nat) : forall (g : annealing) acts,
  annealing_inv config num_rows g ->
  annealing_loop config num_rows row_ids fuel g = Some acts ->
  is_Some (replay (list_to_set (window row_ids g)) acts).
Proof.
  induction fuel as [|fuel IH]; intros g acts Hinv Hrun; simpl in Hrun.
  - destruct (num_fresh g + num_stale g =? Z.of_nat num_rows)%Z; [|discriminate].
    injection Hrun as <-. simpl. eauto.
  - destruct (Z.eqb_spec (num_fresh g + num_stale g) (Z.of_nat num_rows)) as [Heq|Hne].
    + injection Hrun as <-. simpl. eauto.
    + pose proof (annealing_step_inv g Hinv Hne) as Hinv'.
      pose proof (annealing_step_replay g Hinv Hne) as Hstep.
      destruct (annealing_step config row_ids g) as [acts1 g']. simpl in *.
      destruct (annealing_loop config num_rows row_ids fuel g') as [rest|] eqn:E;
        [|discriminate].
      injection Hrun as <-. rewrite replay_app, Hstep. simpl.
      apply (IH g' rest Hinv' E).
Qed.

(** The running add-minus-remove difference after every prefix of the
    remaining actions. *)
Lemma annealing_loop_running (fuel : nat) : forall (g : annealing) acts,
  annealing_inv config num_rows g ->
  annealing_loop config num_rows row_ids fuel g = Some acts ->
  forall k,
    (0 <= (adds g - removes g)
          + (count_adds (take k acts) - count_removes (take k acts))
       <= Z.of_nat num_rows)%Z.
Proof.
  induction fuel as [|fuel IH]; intros g acts Hinv Hrun k; simpl in Hrun.
  - destruct (num_fresh g + num_stale g =? Z.of_nat num_rows)%Z; [|discriminate].
    injection Hrun as <-. rewrite take_nil. destruct Hinv as (_ & _ & Hd & _).
    change (count_adds []) with 0%Z. change (count_removes []) with 0%Z. lia.
  - destruct (Z.eqb_spec (num_fresh g + num_stale g) (Z.of_nat num_rows)) as [Heq|Hne].
    + injection Hrun as <-. rewrite take_nil. destruct Hinv as (_ & _ & Hd & _).
      change (count_adds []) with 0%Z. change (count_removes []) with 0%Z. lia.
    + pose proof (annealing_step_inv g Hinv Hne) as Hinv'.
      pose proof (annealing_step_spec g) as Hspec.
      destruct (annealing_step config row_ids g) as [acts1 g']. simpl in Hinv'.
      destruct (annealing_loop config num_rows row_ids fuel g') as [rest|] eqn:E;
        [|discriminate].
      injection Hrun as <-.
      pose proof (IH g' rest Hinv' E) as IHk.
      pose proof (IHk 0%nat) as IH0. rewrite take_0 in IH0.
      destruct Hinv as (_ & _ & Hd & _).
      change (count_adds []) with 0%Z in *. change (count_removes []) with 0%Z in *.
      destruct Hspec as [(_ & Ha & Hr & _ & [-> | ->] & _) | (_ & Ha & Hr & _ & [-> | ->] & _)];
        rewrite Ha, Hr in *;
        (destruct k as [|[|k]]; simpl take;
         [ change (count_adds []) with 0%Z; change (count_removes []) with 0%Z; lia
         | rewrite ?take_0, ?count_adds_cons, ?count_removes_cons; cbn [is_add is_remove];
           change (count_adds []) with 0%Z; change (count_removes []) with 0%Z; lia
         | pose proof (IHk k) as I1; pose proof (IHk (S k)) as I2;
           rewrite ?count_adds_cons, ?count_removes_cons; cbn [is_add is_remove];
           lia ]).
Qed.

Lemma added_app (l1 l2 : list action) : added (l1 ++ l2) = added l1 ++ added l2.
Proof. apply omap_app. Qed.
Lemma removed_app (l1 l2 : list action) : removed (l1 ++ l2) = removed l1 ++ removed l2.
Proof. apply omap_app. Qed.

(** Additions and removals each read the cycle of [row_ids] from their
    own cursor on. *)
Lemma annealing_loop_rows (fuel : nat) : forall (g : annealing) acts,
  annealing_loop config num_rows row_ids fuel g = Some acts ->
  added acts = map (cycle_at row_ids) (seq (row_to_add g) (length (added acts)))
  /\ removed acts
     = map (cycle_at row_ids) (seq (row_to_remove g) (length (removed acts))).
Proof.
  induction fuel as [|fuel IH]; intros g acts Hrun; simpl in Hrun.
  - destruct (num_fresh g + num_stale g =? Z.of_nat num_rows)%Z; [|discriminate].
    injection Hrun as <-. split; reflexivity.
  - destruct (num_fresh g + num_stale g =? Z.of_nat num_rows)%Z.
    + injection Hrun as <-. split; reflexivity.
    + pose proof (annealing_step_spec g) as Hspec.
      destruct (annealing_step config row_ids g) as [acts1 g'].
      destruct (annealing_loop config num_rows row_ids fuel g') as [rest|] eqn:E;
        [|discriminate].
      injection Hrun as <-. rewrite added_app, removed_app.
      destruct (IH g' rest E) as [IHa IHr].
      destruct Hspec as [(_ & Ha & Hr & _ & [-> | ->] & _) | (_ & Ha & Hr & _ & [-> | ->] & _)];
        rewrite Ha, Hr in *; cbn [added removed omap list_omap app length];
        simpl; split; congruence.
Qed.

Lemma count_adds_added (acts : list action) :
  count_adds acts = Z.of_nat (length (added acts)).
Proof.
  induction acts as [|a acts IH]; [reflexivity|].
  rewrite count_adds_cons, IH. destruct a; simpl; lia.
Qed.

Lemma count_removes_removed (acts : list action) :
  count_removes acts = Z.of_nat (length (removed acts)).
Proof.
  induction acts as [|a acts IH]; [reflexivity|].
  rewrite count_removes_cons, IH. destruct a; simpl; lia.
Qed.

End AnnealingSchedule.

(** ** Binary64 arithmetic

    Facts about the operations of [SpecFloat] at precision 53: rounding
    keeps the sign, does not cross a value of the format, and is exact on
    integers below [2 ^ 53]. *)

Section Binary64.
Local Open Scope Z_scope.


Lemma digits2_pos_size (p : positive) : digits2_pos p = Pos.size p.
Proof. induction p as [p IH|p IH|]; simpl; rewrite ?IH; reflexivity. Qed.

(** A positive number has [digits2_pos] binary digits. *)
Lemma digits2_pos_bounds (p : positive) :
  2 ^ (Z.pos (digits2_pos p) - 1) <= Z.pos p < 2 ^ Z.pos (digits2_pos p).
Proof.
  rewrite digits2_pos_size.
  pose proof (Pos.size_gt p) as Hgt. pose proof (Pos.size_le p) as Hle.
  apply Pos2Z.pos_lt_pos in Hgt. apply Pos2Z.pos_le_pos in Hle.
  rewrite Pos2Z.inj_pow in Hgt, Hle.
  change (Z.pos p~0) with (2 * Z.pos p) in Hle.
  replace (Z.pos (Pos.size p)) with (Z.succ (Z.pos (Pos.size p) - 1)) in Hle at 1 by lia.
  rewrite Z.pow_succ_r in Hle by lia.
  split; [lia | exact Hgt].
Qed.

Lemma digits2_pos_unique (p : positive) (d : Z) :
  2 ^ (d - 1) <= Z.pos p < 2 ^ d -> Z.pos (digits2_pos p) = d.
Proof.
  intros [Hlo Hhi]. pose proof (digits2_pos_bounds p) as [Hlo' Hhi'].
  assert (0 <= d).
  { destruct (Z.le_gt_cases 0 d); [assumption|]. rewrite Z.pow_neg_r in Hhi by lia. lia. }
  assert (d - 1 < Z.pos (digits2_pos p)).
  { apply (Z.pow_lt_mono_r_iff 2); lia. }
  assert (Z.pos (digits2_pos p) - 1 < d).
  { apply (Z.pow_lt_mono_r_iff 2); lia. }
  lia.
Qed.

(** Magnitudes are ordered as their numbers of digits allow. *)
Lemma digits2_pos_le (p q : positive) (e f : Z) :
  0 <= e -> 0 <= f ->
  Z.pos p * 2 ^ e <= Z.pos q * 2 ^ f ->
  Z.pos (digits2_pos p) + e <= Z.pos (digits2_pos q) + f.
Proof.
  intros He Hf Hle.
  pose proof (digits2_pos_bounds p) as [Hlo _].
  pose proof (digits2_pos_bounds q) as [_ Hhi].
  assert (2 ^ (Z.pos (digits2_pos p) - 1 + e) < 2 ^ (Z.pos (digits2_pos q) + f)).
  { rewrite !Z.pow_add_r by lia.
    apply Z.le_lt_trans with (Z.pos p * 2 ^ e).
    - apply Z.mul_le_mono_nonneg_r; [apply Z.pow_nonneg; lia | exact Hlo].
    - apply Z.le_lt_trans with (Z.pos q * 2 ^ f); [exact Hle|].
      apply Z.mul_lt_mono_pos_r; [apply Z.pow_pos_nonneg; lia | exact Hhi]. }
  apply Z.pow_lt_mono_r_iff in H; lia.
Qed.

Lemma pos_iter_xO (d p : positive) :
  Z.pos (Pos.iter xO p d) = Z.pos p * 2 ^ Z.pos d.
Proof.
  induction d as [|d IH] using Pos.peano_ind.
  - simpl. lia.
  - rewrite Pos.iter_succ. rewrite Pos2Z.inj_succ, Z.pow_succ_r by lia.
    change (Z.pos (Pos.iter xO p d)~0) with (2 * Z.pos (Pos.iter xO p d)).
    rewrite IH. ring.
Qed.

(** [shl_align] lowers the exponent to [e'] and keeps the value. *)
Lemma shl_align_spec (m : positive) (e e' : Z) :
  e' <= e ->
  exists m', shl_align m e e' = (m', e') /\ Z.pos m' = Z.pos m * 2 ^ (e - e').
Proof.
  intros Hle. unfold shl_align.
  destruct (e' - e) as [|d|d] eqn:E; try lia.
  - exists m. assert (e' = e) by lia. subst e'. rewrite Z.sub_diag. split; [reflexivity | simpl; lia].
  - exists (Pos.iter xO m d). split; [reflexivity|].
    rewrite pos_iter_xO. f_equal. f_equal. lia.
Qed.

Lemma shl_align_ge (m : positive) (e e' : Z) :
  e <= e' -> shl_align m e e' = (m, e).
Proof.
  intros Hle. unfold shl_align. destruct (e' - e) as [|d|d] eqn:E; try reflexivity. lia.
Qed.

Lemma iter_pos_nat {A} (f : A -> A) (p : positive) (x : A) :
  SpecFloat.iter_pos f p x = Nat.iter (Pos.to_nat p) f x.
Proof.
  revert x. induction p as [p IH|p IH|]; intros x; cbn [SpecFloat.iter_pos].
  - rewrite !IH. rewrite Pos2Nat.inj_xI.
    replace (2 * Pos.to_nat p)%nat with (Pos.to_nat p + Pos.to_nat p)%nat by lia.
    rewrite Nat.iter_succ_r, Nat.iter_add. reflexivity.
  - rewrite !IH. rewrite Pos2Nat.inj_xO.
    replace (2 * Pos.to_nat p)%nat with (Pos.to_nat p + Pos.to_nat p)%nat by lia.
    rewrite Nat.iter_add. reflexivity.
  - reflexivity.
Qed.

Lemma shr_1_spec (m : Z) (r s : bool) :
  0 <= m ->
  shr_1 {| shr_m := m; shr_r := r; shr_s := s |}
  = {| shr_m := m / 2; shr_r := Z.odd m; shr_s := r || s |}.
Proof.
  intros Hm. destruct m as [|[p|p|]|p]; try lia; try reflexivity.
  - simpl shr_1. f_equal. change (Z.pos p~1) with (2 * Z.pos p + 1).
    symmetry. rewrite Z.add_comm, Z.mul_comm, Z.div_add by lia. reflexivity.
  - simpl shr_1. f_equal. change (Z.pos p~0) with (2 * Z.pos p).
    symmetry. rewrite Z.mul_comm, Z.div_mul by lia. reflexivity.
Qed.

(** [n] right shifts divide by [2 ^ n]; the two sticky bits stay clear when
    the division is exact. *)
Lemma shr_iter_spec (n : nat) (m : Z) :
  0 <= m ->
  shr_m (Nat.iter n shr_1 {| shr_m := m; shr_r := false; shr_s := false |})
  = m / 2 ^ Z.of_nat n
  /\ (m mod 2 ^ Z.of_nat n = 0 ->
      shr_r (Nat.iter n shr_1 {| shr_m := m; shr_r := false; shr_s := false |}) = false
      /\ shr_s (Nat.iter n shr_1 {| shr_m := m; shr_r := false; shr_s := false |}) = false).
Proof.
  intros Hm. induction n as [|n [IHm IHrs]].
  - simpl. rewrite Z.div_1_r. split; [reflexivity | intros _; split; reflexivity].
  - rewrite Nat.iter_succ.
    destruct (Nat.iter n shr_1 _) as [m' r' s'] eqn:E. simpl in IHm, IHrs.
    assert (Hm' : 0 <= m') by (subst m'; apply Z.div_pos; [lia | apply Z.pow_pos_nonneg; lia]).
    rewrite shr_1_spec by exact Hm'. simpl.
    rewrite Nat2Z.inj_succ, Z.pow_succ_r by lia.
    assert (Hp : 0 < 2 ^ Z.of_nat n) by (apply Z.pow_pos_nonneg; lia).
    split.
    + subst m'. rewrite Z.div_div by lia. f_equal. lia.
    + intros Hmod.
      assert (Hmod' : m mod 2 ^ Z.of_nat n = 0).
      { apply Z.mod_divide in Hmod; [|lia]. apply Z.mod_divide; [lia|].
        destruct Hmod as [k Hk]. exists (k * 2). lia. }
      destruct (IHrs Hmod') as [-> ->]. split; [|reflexivity].
      subst m'. apply Z.mod_divide in Hmod; [|lia]. destruct Hmod as [k Hk].
      subst m. replace (k * (2 * 2 ^ Z.of_nat n)) with (k * 2 * 2 ^ Z.of_nat n) by ring.
      rewrite Z.div_mul by lia. rewrite Z.mul_comm, Z.odd_mul. reflexivity.
Qed.

Lemma fexp64 (e : Z) : fexp 53 1024 e = Z.max (e - 53) (-1074).
Proof. reflexivity. Qed.

Lemma shr_fexp_spec (m e : Z) :
  0 <= m ->
  exists R,
    shr_fexp 53 1024 m e loc_Exact
    = (R, e + Z.max 0 (fexp 53 1024 (Zdigits2 m + e) - e))
    /\ shr_m R = m / 2 ^ Z.max 0 (fexp 53 1024 (Zdigits2 m + e) - e)
    /\ (m mod 2 ^ Z.max 0 (fexp 53 1024 (Zdigits2 m + e) - e) = 0 ->
        loc_of_shr_record R = loc_Exact).
Proof.
  intros Hm. unfold shr_fexp, shr. simpl shr_record_of_loc.
  destruct (fexp 53 1024 (Zdigits2 m + e) - e) as [|p|p] eqn:E.
  - eexists. split; [f_equal; simpl; lia|]. simpl. rewrite Z.div_1_r.
    split; [reflexivity | intros _; reflexivity].
  - rewrite iter_pos_nat.
    destruct (shr_iter_spec (Pos.to_nat p) m Hm) as [H1 H2].
    rewrite positive_nat_Z in H1, H2.
    eexists. split; [reflexivity|].
    replace (Z.max 0 (Z.pos p)) with (Z.pos p) by lia.
    split; [exact H1|].
    intros Hmod. destruct (H2 Hmod) as [Hr Hs].
    destruct (Nat.iter _ _ _) as [m' r' s']. simpl in Hr, Hs. subst. reflexivity.
  - eexists. split; [f_equal; simpl; lia|]. simpl. rewrite Z.div_1_r.
    split; [reflexivity | intros _; reflexivity].
Qed.

Lemma round_nearest_even_bounds (m : Z) (l : location) :
  m <= round_nearest_even m l <= m + 1.
Proof.
  destruct l as [|[| |]]; simpl; try lia. destruct (Z.even m); lia.
Qed.

(** The two stages of [binary_round_aux] on a positive mantissa: a right
    shift to the exponent of the format with rounding to nearest, then one
    more shift when the rounding carried into a further digit. *)
Lemma binary_round_aux_spec (s : bool) (m : positive) (e : Z) :
  exists m1 : Z,
    let n := Z.max 0 (fexp 53 1024 (Z.pos (digits2_pos m) + e) - e) in
    let n2 := Z.max 0 (fexp 53 1024 (Zdigits2 m1 + (e + n)) - (e + n)) in
    Z.pos m / 2 ^ n <= m1 <= Z.pos m / 2 ^ n + 1
    /\ (Z.pos m mod 2 ^ n = 0 -> m1 = Z.pos m / 2 ^ n)
    /\ binary_round_aux 53 1024 s (Z.pos m) e loc_Exact
       = match m1 / 2 ^ n2 with
         | Z0 => S754_zero s
         | Z.pos p =>
             if e + n + n2 <=? 971 then S754_finite s p (e + n + n2)
             else S754_infinity s
         | Z.neg _ => S754_nan
         end.
Proof.
  unfold binary_round_aux.
  destruct (shr_fexp_spec (Z.pos m) e) as (R & -> & HR & Hloc); [lia|].
  change (Zdigits2 (Z.pos m)) with (Z.pos (digits2_pos m)) in *.
  set (n := Z.max 0 (fexp 53 1024 (Z.pos (digits2_pos m) + e) - e)) in *.
  set (m1 := round_nearest_even (shr_m R) (loc_of_shr_record R)).
  exists m1. cbv zeta.
  pose proof (round_nearest_even_bounds (shr_m R) (loc_of_shr_record R)) as Hb.
  fold m1 in Hb. rewrite HR in Hb.
  assert (H0 : 0 <= Z.pos m / 2 ^ n).
  { apply Z.div_pos; [lia | apply Z.pow_pos_nonneg; lia]. }
  destruct (shr_fexp_spec m1 (e + n)) as (R2 & -> & HR2 & _); [lia|].
  split; [exact Hb|]. split.
  - intros Hmod. unfold m1. rewrite (Hloc Hmod). simpl. exact HR.
  - rewrite HR2. reflexivity.
Qed.


(** A rounded positive mantissa keeps its sign and is never [nan]. *)
Lemma binary_round_aux_class (s : bool) (m : positive) (e : Z) :
  binary_round_aux 53 1024 s (Z.pos m) e loc_Exact = S754_zero s
  \/ binary_round_aux 53 1024 s (Z.pos m) e loc_Exact = S754_infinity s
  \/ exists m' e',
       binary_round_aux 53 1024 s (Z.pos m) e loc_Exact = S754_finite s m' e'
       /\ -1074 <= e'.
Proof.
  destruct (binary_round_aux_spec s m e) as (m1 & Hb & _ & ->).
  set (n := Z.max 0 (fexp 53 1024 (Z.pos (digits2_pos m) + e) - e)) in *.
  set (n2 := Z.max 0 (fexp 53 1024 (Zdigits2 m1 + (e + n)) - (e + n))).
  assert (H0 : 0 <= Z.pos m / 2 ^ n).
  { apply Z.div_pos; [lia | apply Z.pow_pos_nonneg; lia]. }
  assert (H2 : 0 <= m1 / 2 ^ n2).
  { apply Z.div_pos; [lia | apply Z.pow_pos_nonneg; lia]. }
  destruct (m1 / 2 ^ n2) as [|p|p]; [left; reflexivity | | lia].
  right. destruct (e + n + n2 <=? 971); [right | left; reflexivity].
  eexists _, _. split; [reflexivity|].
  unfold n, n2. rewrite !fexp64. lia.
Qed.

Lemma binary_round_class (s : bool) (m : positive) (e : Z) :
  binary_round 53 1024 s m e = S754_zero s
  \/ binary_round 53 1024 s m e = S754_infinity s
  \/ exists m' e',
       binary_round 53 1024 s m e = S754_finite s m' e' /\ -1074 <= e'.
Proof.
  unfold binary_round. destruct (shl_align _ _ _) as [mz ez].
  apply binary_round_aux_class.
Qed.

Lemma bounded_spec (m : positive) (e : Z) :
  bounded 53 1024 m e = true ->
  fexp 53 1024 (Z.pos (digits2_pos m) + e) = e /\ -1074 <= e <= 971.
Proof.
  unfold bounded, canonical_mantissa. intros H.
  apply andb_true_iff in H as [H1 H2].
  apply Z.eqb_eq in H1. apply Z.leb_le in H2.
  split; [exact H1|]. rewrite fexp64 in H1. lia.
Qed.

(** Rounding to nearest does not cross a value of the format: a magnitude
    below a binary64 value rounds to a magnitude below it. *)
Lemma binary_round_le (s : bool) (m : positive) (e : Z) (mr : positive) (er : Z) :
  -1074 <= e -> bounded 53 1024 mr er = true ->
  mag m e <= mag mr er ->
  binary_round 53 1024 s m e = S754_zero s
  \/ exists m' e',
       binary_round 53 1024 s m e = S754_finite s m' e'
       /\ -1074 <= e' /\ mag m' e' <= mag mr er.
Proof.
  intros He Hbounded Hle. unfold mag in *.
  destruct (bounded_spec mr er Hbounded) as [Hcanon Her].
  set (D := Z.pos (digits2_pos m) + e).
  set (g := fexp 53 1024 D).
  assert (HD : D <= Z.pos (digits2_pos mr) + er).
  { pose proof (digits2_pos_le m mr (e + 1074) (er + 1074)) as H.
    unfold D. lia. }
  assert (Hg : g <= er /\ -1074 <= g).
  { unfold g. rewrite fexp64 in *. lia. }
  (* the aligned mantissa *)
  assert (Halign : exists mz ez,
            shl_align m e g = (mz, ez) /\ ez <= g /\ -1074 <= ez
            /\ Z.pos mz * 2 ^ (ez + 1074) = Z.pos m * 2 ^ (e + 1074)
            /\ Z.pos (digits2_pos mz) + ez = D).
  { destruct (Z.le_gt_cases g e) as [Hge|Hlt].
    - destruct (shl_align_spec m e g Hge) as (mz & Hs & Hmz).
      exists mz, g. split; [exact Hs|]. split; [lia|]. split; [lia|].
      assert (Hval : Z.pos mz * 2 ^ (g + 1074) = Z.pos m * 2 ^ (e + 1074)).
      { rewrite Hmz. rewrite <- Z.mul_assoc, <- Z.pow_add_r by lia.
        f_equal. f_equal. lia. }
      split; [exact Hval|].
      assert (Z.pos (digits2_pos mz) = Z.pos (digits2_pos m) + (e - g)); [|unfold D; lia].
      apply digits2_pos_unique.
      pose proof (digits2_pos_bounds m) as [Hlo Hhi].
      rewrite Hmz.
      replace (Z.pos (digits2_pos m) + (e - g) - 1)
        with (Z.pos (digits2_pos m) - 1 + (e - g)) by lia.
      rewrite !Z.pow_add_r by lia.
      assert (0 < 2 ^ (e - g)) by (apply Z.pow_pos_nonneg; lia).
      split; [apply Z.mul_le_mono_nonneg_r; lia | apply Z.mul_lt_mono_pos_r; lia].
    - exists m, e. split; [apply shl_align_ge; lia|]. repeat split; lia. }
  destruct Halign as (mz & ez & Hs & Hez & Hez' & Hval & Hdig).
  unfold binary_round. fold D. fold g. rewrite Hs.
  destruct (binary_round_aux_spec s mz ez) as (m1 & Hb & Hexact & ->).
  rewrite Hdig in *. fold g in Hb, Hexact |- *.
  replace (Z.max 0 (g - ez)) with (g - ez) in * by lia.
  replace (ez + (g - ez)) with g by lia.
  set (n := g - ez) in *.
  set (n2 := Z.max 0 (fexp 53 1024 (Zdigits2 m1 + g) - g)).
  set (K := Z.pos mr * 2 ^ (er - g)).
  assert (Hpn : 0 < 2 ^ n) by (apply Z.pow_pos_nonneg; lia).
  assert (Hpz : 0 < 2 ^ (ez + 1074)) by (apply Z.pow_pos_nonneg; lia).
  assert (Hpg : 0 < 2 ^ (g + 1074)) by (apply Z.pow_pos_nonneg; lia).
  assert (HK : Z.pos mr * 2 ^ (er + 1074) = K * 2 ^ (g + 1074)).
  { unfold K. rewrite <- Z.mul_assoc, <- Z.pow_add_r by lia. f_equal. f_equal. lia. }
  assert (Hmz : Z.pos mz <= K * 2 ^ n).
  { apply (Z.mul_le_mono_pos_r _ _ (2 ^ (ez + 1074))); [exact Hpz|].
    rewrite Hval. rewrite <- Z.mul_assoc, <- Z.pow_add_r by lia.
    replace (n + (ez + 1074)) with (g + 1074) by lia. lia. }
  assert (Hm1 : 0 <= m1 <= K).
  { assert (0 <= Z.pos mz / 2 ^ n) by (apply Z.div_pos; lia).
    split; [lia|].
    destruct (Z.eq_dec (Z.pos mz mod 2 ^ n) 0) as [Hmod|Hmod].
    - rewrite (Hexact Hmod). apply Z.div_le_upper_bound; lia.
    - assert (Z.pos mz / 2 ^ n < K); [|lia].
      apply Z.div_lt_upper_bound; [lia|].
      destruct (Z.eq_dec (Z.pos mz) (K * 2 ^ n)) as [Heq|Hneq]; [|lia].
      exfalso. apply Hmod. rewrite Heq. apply Z.mod_mul. lia. }
  assert (Hpn2 : 0 < 2 ^ n2) by (apply Z.pow_pos_nonneg; lia).
  assert (Hm2 : 0 <= m1 / 2 ^ n2) by (apply Z.div_pos; lia).
  destruct (m1 / 2 ^ n2) as [|p|p] eqn:Ep; [left; reflexivity | | lia].
  right.
  assert (Hpm1 : Z.pos p * 2 ^ n2 <= m1).
  { rewrite <- Ep. rewrite Z.mul_comm. apply Z.mul_div_le. lia. }
  assert (Hbound : Z.pos p * 2 ^ (g + n2 + 1074) <= Z.pos mr * 2 ^ (er + 1074)).
  { rewrite HK.
    replace (g + n2 + 1074) with (n2 + (g + 1074)) by lia.
    rewrite Z.pow_add_r, Z.mul_assoc by lia.
    apply Z.mul_le_mono_nonneg_r; lia. }
  assert (He2 : g + n2 <= 971).
  { destruct m1 as [|q|q]; [rewrite Z.div_0_l in Ep by lia; lia | | lia].
    assert (Hq : Z.pos (digits2_pos q) + g <= Z.pos (digits2_pos mr) + er).
    { pose proof (digits2_pos_le q mr (g + 1074) (er + 1074)) as H.
      assert (Z.pos q * 2 ^ (g + 1074) <= Z.pos mr * 2 ^ (er + 1074)); [|lia].
      rewrite HK. apply Z.mul_le_mono_nonneg_r; lia. }
    unfold n2. simpl Zdigits2. rewrite fexp64 in *. lia. }
  replace (g + n2 <=? 971) with true by (symmetry; apply Z.leb_le; exact He2).
  exists p, (g + n2). split; [reflexivity|]. split; [lia | exact Hbound].
Qed.

Lemma digits2_pos_shift (m mz : positive) (k : Z) :
  0 <= k -> Z.pos mz = Z.pos m * 2 ^ k ->
  Z.pos (digits2_pos mz) = Z.pos (digits2_pos m) + k.
Proof.
  intros Hk Hmz. apply digits2_pos_unique.
  pose proof (digits2_pos_bounds m) as [Hlo Hhi]. rewrite Hmz.
  replace (Z.pos (digits2_pos m) + k - 1) with (Z.pos (digits2_pos m) - 1 + k) by lia.
  rewrite !Z.pow_add_r by lia.
  assert (0 < 2 ^ k) by (apply Z.pow_pos_nonneg; lia).
  split; [apply Z.mul_le_mono_nonneg_r; lia | apply Z.mul_lt_mono_pos_r; lia].
Qed.

(** A mantissa that is a value of the format followed by [k] zero bits
    rounds to that value. *)
Lemma binary_round_aux_exact (s : bool) (m mz : positive) (e k : Z) :
  0 <= k -> Z.pos mz = Z.pos m * 2 ^ k ->
  fexp 53 1024 (Z.pos (digits2_pos m) + (e + k)) = e + k -> e + k <= 971 ->
  binary_round_aux 53 1024 s (Z.pos mz) e loc_Exact = S754_finite s m (e + k).
Proof.
  intros Hk Hmz Hcanon Hmax.
  destruct (binary_round_aux_spec s mz e) as (m1 & _ & Hexact & ->).
  rewrite (digits2_pos_shift m mz k Hk Hmz) in *.
  replace (Z.pos (digits2_pos m) + k + e) with (Z.pos (digits2_pos m) + (e + k)) in * by lia.
  rewrite Hcanon in *.
  replace (Z.max 0 (e + k - e)) with k in * by lia.
  assert (Hpk : 0 < 2 ^ k) by (apply Z.pow_pos_nonneg; lia).
  assert (Hm1 : m1 = Z.pos m).
  { rewrite Hexact; rewrite Hmz; [apply Z.div_mul; lia | apply Z.mod_mul; lia]. }
  subst m1. simpl Zdigits2. rewrite Hcanon.
  replace (Z.max 0 (e + k - (e + k))) with 0 by lia.
  rewrite Z.pow_0_r, Z.div_1_r, Z.add_0_r.
  replace (e + k <=? 971) with true by (symmetry; apply Z.leb_le; exact Hmax).
  reflexivity.
Qed.


Lemma binary_round_int (s : bool) (mz : positive) (ez : Z) (v : positive) :
  ez <= 0 -> Z.pos mz = Z.pos v * 2 ^ (- ez) -> Z.pos v < 2 ^ 53 ->
  binary_round 53 1024 s mz ez = float_of_pos s v.
Proof.
  intros Hez Hmz Hv.
  set (d := Z.pos (digits2_pos v)).
  assert (Hd : 1 <= d <= 53).
  { unfold d. split; [lia|].
    pose proof (digits2_pos_bounds v) as [Hlo _].
    assert (2 ^ (Z.pos (digits2_pos v) - 1) < 2 ^ 53) by lia.
    apply Z.pow_lt_mono_r_iff in H; lia. }
  set (mc := Z.to_pos (Z.pos v * 2 ^ (53 - d))).
  assert (Hmc : Z.pos mc = Z.pos v * 2 ^ (53 - d)).
  { unfold mc. rewrite Z2Pos.id; [reflexivity|].
    apply Z.mul_pos_pos; [lia | apply Z.pow_pos_nonneg; lia]. }
  assert (Hdmc : Z.pos (digits2_pos mc) = 53).
  { rewrite (digits2_pos_shift v mc (53 - d)); [fold d; lia | lia | exact Hmc]. }
  assert (Hdmz : Z.pos (digits2_pos mz) = d - ez).
  { rewrite (digits2_pos_shift v mz (- ez)); [fold d; lia | lia | exact Hmz]. }
  unfold float_of_pos. fold d. fold mc.
  unfold binary_round. rewrite Hdmz.
  replace (d - ez + ez) with d by lia.
  assert (Hg : fexp 53 1024 d = d - 53) by (rewrite fexp64; lia).
  rewrite Hg.
  destruct (Z.le_gt_cases (d - 53) ez) as [Hle|Hgt].
  - destruct (shl_align_spec mz ez (d - 53) Hle) as (mz' & -> & Hmz').
    pose proof (binary_round_aux_exact s mc mz' (d - 53) 0) as H.
    rewrite Z.add_0_r in H. apply H; try lia.
    + rewrite Hmz', Hmz, Hmc. rewrite Z.pow_0_r, Z.mul_1_r.
      rewrite <- Z.mul_assoc, <- Z.pow_add_r by lia. f_equal. f_equal. lia.
    + rewrite Hdmc, fexp64. lia.
  - rewrite shl_align_ge by lia.
    pose proof (binary_round_aux_exact s mc mz ez (d - 53 - ez)) as H.
    replace (ez + (d - 53 - ez)) with (d - 53) in H by lia. apply H; try lia.
    + rewrite Hmz, Hmc. rewrite <- Z.mul_assoc, <- Z.pow_add_r by lia.
      f_equal. f_equal. lia.
    + rewrite Hdmc, fexp64. lia.
Qed.


Lemma binary_normalize_int (k ez : Z) :
  ez <= 0 -> Z.abs k < 2 ^ 53 ->
  binary_normalize 53 1024 (k * 2 ^ (- ez)) ez false
  = match k with
    | Z0 => S754_zero false
    | Z.pos v => float_of_pos false v
    | Z.neg v => float_of_pos true v
    end.
Proof.
  intros Hez Hk.
  assert (Hp : 0 < 2 ^ (- ez)) by (apply Z.pow_pos_nonneg; lia).
  destruct k as [|v|v].
  - reflexivity.
  - destruct (Z.pos v * 2 ^ (- ez)) as [|mz|mz] eqn:E; try lia.
    simpl. apply binary_round_int; [exact Hez | symmetry; exact E | lia].
  - destruct (Z.neg v * 2 ^ (- ez)) as [|mz|mz] eqn:E; try lia.
    simpl. apply binary_round_int; [exact Hez | lia | lia].
Qed.

Lemma float_of_Z_cases (k : Z) :
  Z.abs k < 2 ^ 53 ->
  float_of_Z k
  = match k with
    | Z0 => S754_zero false
    | Z.pos v => float_of_pos false v
    | Z.neg v => float_of_pos true v
    end.
Proof.
  intros Hk. unfold float_of_Z.
  rewrite <- (binary_normalize_int k 0) by lia.
  f_equal. simpl. lia.
Qed.


Lemma shl_align_mag (m : positive) (e ez : Z) :
  ez <= e -> -1074 <= ez ->
  Z.pos (shl_align m e ez).1 * 2 ^ (ez + 1074) = mag m e.
Proof.
  intros Hle Hez. destruct (shl_align_spec m e ez Hle) as (m' & -> & Hm').
  simpl. rewrite Hm'. unfold mag.
  rewrite <- Z.mul_assoc, <- Z.pow_add_r by lia. f_equal. f_equal. lia.
Qed.

(** The mantissa of [float_of_pos], aligned to the exponent [ez]. *)
Lemma float_of_pos_align (v : positive) (ez : Z) :
  Z.pos v < 2 ^ 53 -> ez <= Z.pos (digits2_pos v) - 53 ->
  Z.pos (shl_align (Z.to_pos (Z.pos v * 2 ^ (53 - Z.pos (digits2_pos v))))
                   (Z.pos (digits2_pos v) - 53) ez).1
  = Z.pos v * 2 ^ (- ez).
Proof.
  intros Hv Hez.
  set (d := Z.pos (digits2_pos v)) in *.
  assert (Hd : 1 <= d <= 53).
  { unfold d. split; [lia|].
    pose proof (digits2_pos_bounds v) as [Hlo _].
    assert (2 ^ (Z.pos (digits2_pos v) - 1) < 2 ^ 53) by lia.
    apply Z.pow_lt_mono_r_iff in H; lia. }
  destruct (shl_align_spec (Z.to_pos (Z.pos v * 2 ^ (53 - d))) (d - 53) ez Hez)
    as (m' & -> & Hm').
  simpl. rewrite Hm'. rewrite Z2Pos.id.
  - rewrite <- Z.mul_assoc, <- Z.pow_add_r by lia. f_equal. f_equal. lia.
  - apply Z.mul_pos_pos; [lia | apply Z.pow_pos_nonneg; lia].
Qed.

Lemma digits2_pos_53 (v : positive) :
  Z.pos v < 2 ^ 53 -> 1 <= Z.pos (digits2_pos v) <= 53.
Proof.
  intros Hv. split; [lia|].
  pose proof (digits2_pos_bounds v) as [Hlo _].
  assert (2 ^ (Z.pos (digits2_pos v) - 1) < 2 ^ 53) by lia.
  apply Z.pow_lt_mono_r_iff in H; lia.
Qed.

(** An integer float as a sign and an aligned mantissa. *)
Lemma float_of_Z_finite (k : Z) :
  k <> 0 -> Z.abs k < 2 ^ 53 ->
  exists m e,
    float_of_Z k = S754_finite (k <? 0) m e /\ -52 <= e <= 0
    /\ forall ez, ez <= e ->
         cond_Zopp (k <? 0) (Z.pos (shl_align m e ez).1) = k * 2 ^ (- ez).
Proof.
  intros Hk Habs. rewrite float_of_Z_cases by exact Habs.
  destruct k as [|v|v]; [congruence| |]; unfold float_of_pos;
    pose proof (digits2_pos_53 v ltac:(lia)) as Hd;
    eexists _, _; (split; [reflexivity|]); (split; [lia|]);
    intros ez Hez; rewrite float_of_pos_align by lia; simpl; lia.
Qed.

Lemma float_add_exact (a b : Z) :
  Z.abs a < 2 ^ 53 -> Z.abs b < 2 ^ 53 -> Z.abs (a + b) < 2 ^ 53 ->
  float_add (float_of_Z a) (float_of_Z b) = float_of_Z (a + b).
Proof.
  intros Ha Hb Hab.
  destruct (Z.eq_dec a 0) as [->|Ha0].
  { rewrite Z.add_0_l. rewrite (float_of_Z_cases 0) by lia.
    rewrite (float_of_Z_cases b) by lia. destruct b; reflexivity. }
  destruct (Z.eq_dec b 0) as [->|Hb0].
  { rewrite Z.add_0_r. rewrite (float_of_Z_cases 0) by lia.
    rewrite (float_of_Z_cases a) by lia. destruct a; reflexivity. }
  destruct (float_of_Z_finite a Ha0 Ha) as (ma & ea & -> & Hea & Haligna).
  destruct (float_of_Z_finite b Hb0 Hb) as (mb & eb & -> & Heb & Halignb).
  unfold float_add, SFadd.
  rewrite Haligna, Halignb by lia.
  rewrite <- Z.mul_add_distr_r.
  rewrite binary_normalize_int by lia.
  symmetry. apply float_of_Z_cases. exact Hab.
Qed.

Lemma float_sub_exact (a b : Z) :
  Z.abs a < 2 ^ 53 -> Z.abs b < 2 ^ 53 -> Z.abs (a - b) < 2 ^ 53 ->
  float_sub (float_of_Z a) (float_of_Z b) = float_of_Z (a - b).
Proof.
  intros Ha Hb Hab.
  destruct (Z.eq_dec b 0) as [->|Hb0].
  { rewrite Z.sub_0_r. rewrite (float_of_Z_cases 0) by lia.
    rewrite (float_of_Z_cases a) by lia. destruct a; reflexivity. }
  destruct (Z.eq_dec a 0) as [->|Ha0].
  { rewrite Z.sub_0_l. rewrite (float_of_Z_cases 0) by lia.
    rewrite (float_of_Z_cases b), (float_of_Z_cases (- b)) by lia.
    destruct b; reflexivity. }
  destruct (float_of_Z_finite a Ha0 Ha) as (ma & ea & -> & Hea & Haligna).
  destruct (float_of_Z_finite b Hb0 Hb) as (mb & eb & -> & Heb & Halignb).
  unfold float_sub, SFsub.
  rewrite Haligna, Halignb by lia.
  rewrite <- Z.mul_sub_distr_r.
  rewrite binary_normalize_int by lia.
  symmetry. apply float_of_Z_cases. exact Hab.
Qed.

Lemma float_ge0_of_Z (k : Z) :
  Z.abs k < 2 ^ 53 -> float_ge0 (float_of_Z k) = (0 <=? k).
Proof.
  intros Hk. rewrite float_of_Z_cases by exact Hk. destruct k; reflexivity.
Qed.

Lemma float_mul_exact (a b : Z) :
  0 < a < 2 ^ 53 -> 0 <= b -> a * b < 2 ^ 53 ->
  float_mul (float_of_Z a) (float_of_Z b) = float_of_Z (a * b).
Proof.
  intros [Ha Ha'] Hb Hab.
  destruct (Z.eq_dec b 0) as [->|Hb0].
  { rewrite Z.mul_0_r. rewrite (float_of_Z_cases 0) by lia.
    rewrite (float_of_Z_cases a) by lia. destruct a; try lia. reflexivity. }
  assert (Hb' : b < 2 ^ 53).
  { apply Z.le_lt_trans with (a * b); [|exact Hab]. nia. }
  rewrite (float_of_Z_cases a), (float_of_Z_cases b), (float_of_Z_cases (a * b)) by lia.
  destruct a as [|va|va]; try lia. destruct b as [|vb|vb]; try lia.
  change (Z.pos va * Z.pos vb) with (Z.pos (va * vb)) in *.
  unfold float_of_pos, float_mul, SFmul. change (xorb false false) with false.
  set (da := Z.pos (digits2_pos va)). set (db := Z.pos (digits2_pos vb)).
  set (d := Z.pos (digits2_pos (va * vb))).
  pose proof (digits2_pos_53 va ltac:(lia)) as Hda. fold da in Hda.
  pose proof (digits2_pos_53 vb ltac:(lia)) as Hdb. fold db in Hdb.
  pose proof (digits2_pos_53 (va * vb) ltac:(lia)) as Hd. fold d in Hd.
  assert (Hk : da + db - 1 <= d).
  { pose proof (digits2_pos_bounds va) as [Hlo1 _]. fold da in Hlo1.
    pose proof (digits2_pos_bounds vb) as [Hlo2 _]. fold db in Hlo2.
    pose proof (digits2_pos_bounds (va * vb)) as [_ Hhi]. fold d in Hhi.
    assert (2 ^ (da - 1 + (db - 1)) < 2 ^ d).
    { rewrite Z.pow_add_r by lia.
      apply Z.le_lt_trans with (Z.pos (va * vb)); [|exact Hhi].
      rewrite Pos2Z.inj_mul. apply Z.mul_le_mono_nonneg; try lia;
        apply Z.pow_nonneg; lia. }
    apply Z.pow_lt_mono_r_iff in H; lia. }
  set (ma := Z.to_pos (Z.pos va * 2 ^ (53 - da))).
  set (mb := Z.to_pos (Z.pos vb * 2 ^ (53 - db))).
  set (mc := Z.to_pos (Z.pos (va * vb) * 2 ^ (53 - d))).
  assert (Hma : Z.pos ma = Z.pos va * 2 ^ (53 - da)).
  { unfold ma. rewrite Z2Pos.id; [reflexivity|].
    apply Z.mul_pos_pos; [lia | apply Z.pow_pos_nonneg; lia]. }
  assert (Hmb : Z.pos mb = Z.pos vb * 2 ^ (53 - db)).
  { unfold mb. rewrite Z2Pos.id; [reflexivity|].
    apply Z.mul_pos_pos; [lia | apply Z.pow_pos_nonneg; lia]. }
  assert (Hmc : Z.pos mc = Z.pos (va * vb) * 2 ^ (53 - d)).
  { unfold mc. rewrite Z2Pos.id; [reflexivity|].
    apply Z.mul_pos_pos; [lia | apply Z.pow_pos_nonneg; lia]. }
  pose proof (binary_round_aux_exact false mc (ma * mb) (da - 53 + (db - 53))
                (d - 53 - (da - 53 + (db - 53)))) as H.
  replace (da - 53 + (db - 53) + (d - 53 - (da - 53 + (db - 53)))) with (d - 53) in H by lia.
  apply H; try lia.
  - rewrite Pos2Z.inj_mul, Hma, Hmb, Hmc, Pos2Z.inj_mul.
    assert (Hp : 2 ^ (53 - d) * 2 ^ (d - 53 - (da - 53 + (db - 53)))
                 = 2 ^ (53 - da) * 2 ^ (53 - db)).
    { rewrite <- !Z.pow_add_r by lia. f_equal. lia. }
    rewrite <- (Z.mul_assoc _ (2 ^ (53 - d))), Hp. ring.
  - rewrite (digits2_pos_shift (va * vb) mc (53 - d)); [fold d|lia|exact Hmc].
    rewrite fexp64. lia.
Qed.



Lemma float_one_eq : float_one = S754_finite false 4503599627370496 (-52).
Proof. reflexivity. Qed.

(** A finite binary64 value that is at least [1.0]. *)
Lemma epochs_ge_1_spec (epochs : spec_float) :
  valid_binary 53 1024 epochs = true ->
  SFleb float_one epochs = true ->
  SFltb epochs (S754_infinity false) = true ->
  exists me ee,
    epochs = S754_finite false me ee /\ bounded 53 1024 me ee = true
    /\ mag 4503599627370496 (-52) <= mag me ee.
Proof.
  intros Hvalid Hle Hfin. rewrite float_one_eq in Hle.
  destruct epochs as [s|[|]| |[|] m e]; try discriminate.
  simpl in Hvalid. exists m, e. split; [reflexivity|]. split; [exact Hvalid|].
  destruct (bounded_spec m e Hvalid) as [Hcanon He].
  unfold SFleb, SFcompare in Hle. unfold mag.
  destruct (Z.compare_spec (-52) e) as [Heq|Hlt|Hgt]; try discriminate.
  - subst e. apply Z.mul_le_mono_nonneg_r; [apply Z.pow_nonneg; lia|].
    change (Pos.compare_cont Eq 4503599627370496 m)
      with (4503599627370496 ?= m)%positive in Hle.
    destruct (Pos.compare_spec 4503599627370496 m) as [E|E|E]; try discriminate; lia.
  - rewrite fexp64 in Hcanon.
    assert (Hd : Z.pos (digits2_pos m) = 53) by lia.
    pose proof (digits2_pos_bounds m) as [Hlo _]. rewrite Hd in Hlo.
    change (2 ^ (53 - 1)) with 4503599627370496 in Hlo.
    assert (0 <= 2 ^ (-52 + 1074)) by (apply Z.pow_nonneg; lia).
    assert (2 ^ (-52 + 1074) <= 2 ^ (e + 1074)) by (apply Z.pow_le_mono_r; lia).
    apply Z.mul_le_mono_nonneg; lia.
Qed.

Lemma counter_ok_round_pos (epochs : spec_float) (m : positive) (e : Z) :
  counter_ok epochs (binary_round 53 1024 false m e)
  /\ float_ge0 (binary_round 53 1024 false m e) = true.
Proof.
  destruct (binary_round_class false m e) as [-> | [-> | (m' & e' & -> & He')]];
    simpl; repeat split; assumption.
Qed.

Section Counter.
Variables (me : positive) (ee : Z).
Hypothesis epochs_bounded : bounded 53 1024 me ee = true.
Hypothesis epochs_ge_1 : mag 4503599627370496 (-52) <= mag me ee.

Local Abbreviation epochs := (S754_finite false me ee).

Lemma counter_ok_round_neg (m : positive) (e : Z) :
  -1074 <= e -> mag m e <= mag me ee ->
  counter_ok epochs (binary_round 53 1024 true m e).
Proof.
  intros He Hle.
  destruct (binary_round_le true m e me ee He epochs_bounded Hle)
    as [-> | (m' & e' & -> & He' & Hle')]; simpl; [exact I | split; assumption].
Qed.

(** [remove_rate = epochs - 1.0] is not negative and not above [epochs]. *)
Lemma remove_rate_spec :
  float_sub epochs float_one = S754_zero false
  \/ exists mr er,
       float_sub epochs float_one = S754_finite false mr er
       /\ -1074 <= er /\ mag mr er <= mag me ee.
Proof.
  destruct (bounded_spec me ee epochs_bounded) as [_ Hee].
  rewrite float_one_eq. unfold float_sub, SFsub.
  set (ez := Z.min ee (-52)).
  pose proof (shl_align_mag me ee ez ltac:(lia) ltac:(lia)) as HE.
  pose proof (shl_align_mag 4503599627370496 (-52) ez ltac:(lia) ltac:(lia)) as HO.
  simpl cond_Zopp.
  set (E := Z.pos (shl_align me ee ez).1) in *.
  set (O := Z.pos (shl_align 4503599627370496 (-52) ez).1) in *.
  assert (Hp : 0 < 2 ^ (ez + 1074)) by (apply Z.pow_pos_nonneg; lia).
  assert (HOE : O <= E) by nia.
  destruct (E - O) as [|M|M] eqn:EM; try lia.
  - left. reflexivity.
  - simpl binary_normalize.
    assert (Hmag : mag M ez <= mag me ee).
    { unfold mag at 1. rewrite <- EM, <- HE. apply Z.mul_le_mono_nonneg_r; lia. }
    destruct (binary_round_le false M ez me ee ltac:(lia) epochs_bounded Hmag)
      as [HH | (m' & e' & HH & He' & Hle')].
    + left. exact HH.
    + right. exists m', e'. repeat split; assumption.
Qed.

(** An addition leaves a counter that is not below [-epochs]. *)
Lemma counter_ok_add_row (x : spec_float) :
  float_ge0 x = true -> counter_ok epochs x ->
  counter_ok epochs (float_sub x (float_sub epochs float_one)).
Proof.
  intros Hge Hok.
  destruct remove_rate_spec as [-> | (mr & er & -> & Her & Hr)].
  - destruct x as [[|]|[|]| |[|] m e]; try discriminate; simpl in *; auto.
  - destruct x as [[|]|[|]| |[|] mx ex]; try discriminate; simpl in Hok |- *;
      try (split; assumption); auto.
    unfold float_sub, SFsub.
    set (ez := Z.min ex er).
    pose proof (shl_align_mag mx ex ez ltac:(lia) ltac:(lia)) as HX.
    pose proof (shl_align_mag mr er ez ltac:(lia) ltac:(lia)) as HR.
    simpl cond_Zopp.
    set (X := Z.pos (shl_align mx ex ez).1) in *.
    set (R := Z.pos (shl_align mr er ez).1) in *.
    assert (Hp : 0 < 2 ^ (ez + 1074)) by (apply Z.pow_pos_nonneg; lia).
    destruct (X - R) as [|M|M] eqn:EM.
    + exact I.
    + apply counter_ok_round_pos.
    + simpl binary_normalize. apply counter_ok_round_neg; [lia|].
      apply Z.le_trans with (mag mr er); [|exact Hr].
      unfold mag at 1. rewrite <- HR.
      apply Z.mul_le_mono_nonneg_r; lia.
Qed.

(** A removal is scheduled on a negative counter only, and leaves a
    counter that is not negative. *)
Lemma counter_ok_remove_row (x : spec_float) :
  float_ge0 x = false -> counter_ok epochs x ->
  float_ge0 (float_add x epochs) = true /\ counter_ok epochs (float_add x epochs).
Proof.
  intros Hge Hok.
  destruct (bounded_spec me ee epochs_bounded) as [_ Hee].
  destruct x as [[|]|[|]| |[|] mx ex]; try discriminate; simpl in Hok; try contradiction;
    try discriminate.
  destruct Hok as [Hex Hle].
  unfold float_add, SFadd.
  set (ez := Z.min ex ee).
  pose proof (shl_align_mag mx ex ez ltac:(lia) ltac:(lia)) as HX.
  pose proof (shl_align_mag me ee ez ltac:(lia) ltac:(lia)) as HE.
  simpl cond_Zopp.
  set (X := Z.pos (shl_align mx ex ez).1) in *.
  set (E := Z.pos (shl_align me ee ez).1) in *.
  assert (Hp : 0 < 2 ^ (ez + 1074)) by (apply Z.pow_pos_nonneg; lia).
  assert (HXE : X <= E) by nia.
  destruct (- X + E) as [|M|M] eqn:EM; try lia.
  - split; [reflexivity | exact I].
  - simpl binary_normalize.
    destruct (counter_ok_round_pos epochs M ez) as [H1 H2]. split; assumption.
Qed.

(** The initial counter [epochs * init_rows]. *)
Lemma counter_ok_init (init_rows : spec_float) :
  float_ge0 init_rows = true ->
  float_ge0 (float_mul epochs init_rows) = true
  /\ counter_ok epochs (float_mul epochs init_rows).
Proof.
  intros Hge.
  destruct init_rows as [[|]|[|]| |[|] m e]; try discriminate; simpl;
    try (split; [reflexivity | exact I || reflexivity]).
  unfold float_mul, SFmul. change (xorb false false) with false.
  destruct (binary_round_aux_class false (me * m) (ee + e))
    as [-> | [-> | (m' & e' & -> & He')]]; simpl; repeat split; assumption.
Qed.

End Counter.

End Binary64.
(** ** The annealing schedule with the binary64 counter *)

Section FloatSchedule.
Variables (me : positive) (ee : Z).
Variable sampling_tree : bool.
Variable num_rows : nat.
Variable row_ids : list nat.
Hypothesis epochs_bounded : bounded 53 1024 me ee = true.
Hypothesis epochs_ge_1 : (mag 4503599627370496 (-52) <= mag me ee)%Z.

Local Abbreviation epochs := (S754_finite false me ee).
Local Abbreviation fadds g := (Z.of_nat (f_row_to_add g)).
Local Abbreviation fremoves g := (Z.of_nat (f_row_to_remove g)).

Lemma annealing_init_float_inv (init_rows : spec_float) :
  float_ge0 init_rows = true ->
  annealing_inv_float epochs num_rows (annealing_init_float epochs init_rows).
Proof.
  intros Hge.
  destruct (counter_ok_init me ee init_rows Hge) as [Hge0 Hok].
  unfold annealing_inv_float, annealing_init_float.
  cbn [f_state f_num_fresh f_num_stale f_row_to_add f_row_to_remove].
  split; [lia|]. split; [lia|]. split; [exact Hok|].
  intros Hneg. congruence.
Qed.

(** The effect of one iteration on the two cursors and on the yielded
    actions: exactly one row action, an addition when [state >= 0.0]. *)
Lemma annealing_step_float_spec (g : annealing_float) :
  let '(acts, g') := annealing_step_float epochs sampling_tree row_ids g in
  (float_ge0 (f_state g) = true
   /\ f_row_to_add g' = S (f_row_to_add g) /\ f_row_to_remove g' = f_row_to_remove g
   /\ f_state g' = float_sub (f_state g) (float_sub epochs float_one)
   /\ (acts = [add_row_action (cycle_at row_ids (f_row_to_add g))]
       \/ acts = [add_row_action (cycle_at row_ids (f_row_to_add g)); sample_tree_action])
   /\ (f_num_fresh g' + f_num_stale g' = f_num_fresh g + f_num_stale g + 1)%Z)
  \/
  (float_ge0 (f_state g) = false
   /\ f_row_to_add g' = f_row_to_add g /\ f_row_to_remove g' = S (f_row_to_remove g)
   /\ f_state g' = float_add (f_state g) epochs
   /\ (acts = [remove_row_action (cycle_at row_ids (f_row_to_remove g))]
       \/ acts = [remove_row_action (cycle_at row_ids (f_row_to_remove g));
                  sample_tree_action])
   /\ (f_num_fresh g' + f_num_stale g' = f_num_fresh g + f_num_stale g - 1)%Z).
Proof.
  unfold annealing_step_float.
  destruct (float_ge0 (f_state g)) eqn:Hs; cbv zeta.
  - match goal with |- context [if ?b then _ else _] => destruct b eqn:Hb end; simpl;
      left; repeat split; auto; simpl in Hb; try lia.
  - match goal with |- context [if ?b then _ else _] => destruct b eqn:Hb end; simpl;
      right; repeat split; auto; simpl in Hb; try lia.
Qed.

Lemma annealing_step_float_inv (g : annealing_float) :
  annealing_inv_float epochs num_rows g ->
  (f_num_fresh g + f_num_stale g)%Z <> Z.of_nat num_rows ->
  annealing_inv_float epochs num_rows
    (snd (annealing_step_float epochs sampling_tree row_ids g)).
Proof.
  intros (Hsum & Hd & Hok & Hneg) Hne.
  pose proof (annealing_step_float_spec g) as Hspec.
  destruct (annealing_step_float epochs sampling_tree row_ids g) as [acts g']. simpl.
  unfold annealing_inv_float.
  destruct Hspec as [(Hb & Ha & Hrm & Hst' & _ & Hfs) | (Hb & Ha & Hrm & Hst' & _ & Hfs)];
    rewrite Ha, Hrm, Hst'.
  - split; [lia|]. split; [lia|].
    split; [apply counter_ok_add_row; assumption|]. intros _. lia.
  - specialize (Hneg Hb).
    destruct (counter_ok_remove_row me ee epochs_bounded (f_state g) Hb Hok) as [Hge Hok'].
    split; [lia|]. split; [lia|]. split; [exact Hok'|].
    intros Hneg'. congruence.
Qed.

(** The running add-minus-remove difference of one iteration. *)
Lemma annealing_step_float_diff (g : annealing_float) :
  let '(acts, g') := annealing_step_float epochs sampling_tree row_ids g in
  (count_adds acts - count_removes acts
   = (fadds g' - fremoves g') - (fadds g - fremoves g))%Z.
Proof.
  pose proof (annealing_step_float_spec g) as Hspec.
  destruct (annealing_step_float epochs sampling_tree row_ids g) as [acts g'].
  destruct Hspec as [(_ & Ha & Hr & _ & [-> | ->] & _) | (_ & Ha & Hr & _ & [-> | ->] & _)];
    rewrite Ha, Hr;
    rewrite ?count_adds_cons, ?count_removes_cons;
    change (count_adds []) with 0%Z; change (count_removes []) with 0%Z; cbn; lia.
Qed.

Hypothesis row_ids_shuffled : row_ids ≡ₚ seq 0 num_rows.

(** One iteration keeps the assigned set equal to the window: its row
    action meets the precondition of [add_row] or of [remove_row]. *)
Lemma annealing_step_float_replay (g : annealing_float) :
  annealing_inv_float epochs num_rows g ->
  (f_num_fresh g + f_num_stale g)%Z <> Z.of_nat num_rows ->
  replay (list_to_set (window_float row_ids g))
         (fst (annealing_step_float epochs sampling_tree row_ids g))
  = Some (list_to_set
            (window_float row_ids
               (snd (annealing_step_float epochs sampling_tree row_ids g)))).
Proof.
  intros Hinv Hne.
  pose proof (annealing_step_float_inv g Hinv Hne) as Hinv'.
  pose proof (annealing_step_float_spec g) as Hspec.
  destruct (annealing_step_float epochs sampling_tree row_ids g) as [acts g']. simpl in *.
  destruct Hinv as (Hsum & Hd & _ & Hneg). destruct Hinv' as (_ & Hd' & _ & _).
  unfold window_float.
  destruct Hspec as [(_ & Ha & Hr & _ & Hacts & _) | (Hb & Ha & Hr & _ & Hacts & _)];
    rewrite Ha, Hr in *.
  - assert (Hstep : apply_action
              (list_to_set (map (cycle_at row_ids)
                 (seq (f_row_to_remove g) (f_row_to_add g - f_row_to_remove g))))
              (add_row_action (cycle_at row_ids (f_row_to_add g)))
            = Some (list_to_set (map (cycle_at row_ids)
                 (seq (f_row_to_remove g) (S (f_row_to_add g) - f_row_to_remove g))))).
    { simpl. rewrite decide_False.
      - f_equal. replace (S (f_row_to_add g) - f_row_to_remove g)%nat
          with (S (f_row_to_add g - f_row_to_remove g)) by lia.
        rewrite seq_S, map_app, list_to_set_app_L. simpl.
        replace (f_row_to_remove g + (f_row_to_add g - f_row_to_remove g))%nat
          with (f_row_to_add g) by lia.
        clear. set_solver.
      - rewrite elem_of_list_to_set.
        apply (cycle_at_not_in_window num_rows row_ids row_ids_shuffled); lia. }
    destruct Hacts as [-> | ->]; simpl replay; simpl in Hstep; rewrite Hstep; reflexivity.
  - specialize (Hneg Hb).
    assert (Hstep : apply_action
              (list_to_set (map (cycle_at row_ids)
                 (seq (f_row_to_remove g) (f_row_to_add g - f_row_to_remove g))))
              (remove_row_action (cycle_at row_ids (f_row_to_remove g)))
            = Some (list_to_set (map (cycle_at row_ids)
                 (seq (S (f_row_to_remove g)) (f_row_to_add g - S (f_row_to_remove g)))))).
    { replace (f_row_to_add g - f_row_to_remove g)%nat
        with (S (f_row_to_add g - S (f_row_to_remove g))) by lia.
      simpl. rewrite decide_True by (clear; set_solver).
      f_equal.
      assert (cycle_at row_ids (f_row_to_remove g)
              ∉ map (cycle_at row_ids)
                  (seq (S (f_row_to_remove g)) (f_row_to_add g - S (f_row_to_remove g))))
        as Hout
        by (apply (cycle_at_not_in_window num_rows row_ids row_ids_shuffled); lia).
      clear -Hout. set_solver. }
    destruct Hacts as [-> | ->]; simpl replay; simpl in Hstep; rewrite Hstep; reflexivity.
Qed.

(** Whatever the generator has yielded replays on the assigned set. *)
Lemma annealing_yielded_float_replay (n : nat) : forall g : annealing_float,
  annealing_inv_float epochs num_rows g ->
  is_Some (replay (list_to_set (window_float row_ids g))
             (annealing_yielded_float epochs sampling_tree num_rows row_ids n g)).
Proof.
  induction n as [|n IH]; intros g Hinv; simpl.
  - destruct (f_num_fresh g + f_num_stale g =? Z.of_nat num_rows)%Z; simpl; eauto.
  - destruct (Z.eqb_spec (f_num_fresh g + f_num_stale g) (Z.of_nat num_rows)) as [Heq|Hne].
    + simpl. eauto.
    + pose proof (annealing_step_float_inv g Hinv Hne) as Hinv'.
      pose proof (annealing_step_float_replay g Hinv Hne) as Hstep.
      destruct (annealing_step_float epochs sampling_tree row_ids g) as [acts1 g'].
      simpl in *. rewrite replay_app, Hstep. simpl. apply (IH g' Hinv').
Qed.

(** The running add-minus-remove difference after every prefix. *)
Lemma annealing_yielded_float_running (n : nat) : forall (g : annealing_float) k,
  annealing_inv_float epochs num_rows g ->
  let acts := annealing_yielded_float epochs sampling_tree num_rows row_ids n g in
  (0 <= (fadds g - fremoves g)
        + (count_adds (take k acts) - count_removes (take k acts))
     <= Z.of_nat num_rows)%Z.
Proof.
  induction n as [|n IH]; intros g k Hinv; simpl.
  - destruct (f_num_fresh g + f_num_stale g =? Z.of_nat num_rows)%Z;
      rewrite take_nil; destruct Hinv as (_ & Hd & _);
      change (count_adds []) with 0%Z; change (count_removes []) with 0%Z; lia.
  - destruct (Z.eqb_spec (f_num_fresh g + f_num_stale g) (Z.of_nat num_rows)) as [Heq|Hne].
    + rewrite take_nil. destruct Hinv as (_ & Hd & _).
      change (count_adds []) with 0%Z. change (count_removes []) with 0%Z. lia.
    + pose proof (annealing_step_float_inv g Hinv Hne) as Hinv'.
      pose proof (annealing_step_float_spec g) as Hspec.
      destruct (annealing_step_float epochs sampling_tree row_ids g) as [acts1 g'].
      simpl in Hinv'.
      pose proof (fun k => IH g' k Hinv') as IHk. cbv zeta in IHk.
      set (rest := annealing_yielded_float epochs sampling_tree num_rows row_ids n g') in *.
      pose proof (IHk 0%nat) as IH0. rewrite take_0 in IH0.
      destruct Hinv as (_ & Hd & _).
      change (count_adds []) with 0%Z in *. change (count_removes []) with 0%Z in *.
      destruct Hspec as [(_ & Ha & Hr & _ & [-> | ->] & _) | (_ & Ha & Hr & _ & [-> | ->] & _)];
        rewrite Ha, Hr in *;
        (destruct k as [|[|k]]; simpl take;
         [ change (count_adds []) with 0%Z; change (count_removes []) with 0%Z; lia
         | rewrite ?take_0, ?count_adds_cons, ?count_removes_cons; cbn [is_add is_remove];
           change (count_adds []) with 0%Z; change (count_removes []) with 0%Z; lia
         | pose proof (IHk k) as I1; pose proof (IHk (S k)) as I2;
           rewrite ?count_adds_cons, ?count_removes_cons; cbn [is_add is_remove];
           lia ]).
Qed.

End FloatSchedule.

(** Additions and removals each read the cycle of [row_ids] from their
    own cursor on. *)
Lemma annealing_yielded_float_rows (epochs : spec_float) (sampling_tree : bool)
    (num_rows : nat) (row_ids : list nat) (n : nat) : forall g : annealing_float,
  let acts := annealing_yielded_float epochs sampling_tree num_rows row_ids n g in
  added acts = map (cycle_at row_ids) (seq (f_row_to_add g) (length (added acts)))
  /\ removed acts
     = map (cycle_at row_ids) (seq (f_row_to_remove g) (length (removed acts))).
Proof.
  induction n as [|n IH]; intros g; simpl.
  - destruct (f_num_fresh g + f_num_stale g =? Z.of_nat num_rows)%Z; split; reflexivity.
  - destruct (f_num_fresh g + f_num_stale g =? Z.of_nat num_rows)%Z; [split; reflexivity|].
    specialize (IH (annealing_step_float epochs sampling_tree row_ids g).2).
    cbv zeta in IH. destruct IH as [IHa IHr].
    unfold annealing_step_float in *.
    destruct (float_ge0 (f_state g)); cbv zeta in *;
      match goal with |- context [if ?b then _ else _] => destruct b end;
      simpl in IHa, IHr |- *; rewrite ?added_app, ?removed_app;
      cbn [added removed omap list_omap app length]; simpl; split; congruence.
Qed.

(** The list the generator returns is what it has yielded. *)
Lemma annealing_loop_float_yielded (epochs : spec_float) (sampling_tree : bool)
    (num_rows : nat) (row_ids : list nat) (fuel : nat) :
  forall (g : annealing_float) acts,
    annealing_loop_float epochs sampling_tree num_rows row_ids fuel g = Some acts ->
    annealing_yielded_float epochs sampling_tree num_rows row_ids fuel g = acts.
Proof.
  induction fuel as [|fuel IH]; intros g acts Hrun; simpl in *.
  - destruct (f_num_fresh g + f_num_stale g =? Z.of_nat num_rows)%Z; congruence.
  - destruct (f_num_fresh g + f_num_stale g =? Z.of_nat num_rows)%Z; [congruence|].
    destruct (annealing_step_float epochs sampling_tree row_ids g) as [acts1 g'].
    destruct (annealing_loop_float epochs sampling_tree num_rows row_ids fuel g')
      as [rest|] eqn:E; [|discriminate].
    injection Hrun as <-. rewrite (IH g' rest E). reflexivity.
Qed.

(** *** The two counters on integer-valued configurations *)

Section ExactCounter.
Variable config : Config.
Variables ke ki : Z.
Variable num_rows : nat.
Variable row_ids : list nat.
Hypothesis config_integer : integer_valued config ke ki num_rows.

Lemma integer_valued_epochs : (1 <= learning_annealing_epochs config)%Q.
Proof.
  destruct config_integer as (He & _ & Hke & _). rewrite He.
  change 1%Q with (inject_Z 1). rewrite <- Zle_Qle. exact Hke.
Qed.

Lemma integer_valued_init_rows : (0 <= learning_annealing_init_rows config)%Q.
Proof.
  destruct config_integer as (_ & Hi & _ & Hki & _). rewrite Hi.
  change 0%Q with (inject_Z 0). rewrite <- Zle_Qle. exact Hki.
Qed.

Lemma integer_valued_removal_bound :
  removal_bound config num_rows = (Z.of_nat num_rows * ke)%Z.
Proof.
  destruct config_integer as (He & _). unfold removal_bound.
  rewrite He, <- inject_Z_mult. apply Qceiling_Z.
Qed.

(** At the loop head the exact counter is an integer that binary64 holds
    exactly. *)
Lemma annealing_inv_counter (g : annealing) :
  annealing_inv config num_rows g ->
  (state g == inject_Z (counter_value ke ki (row_to_add g) (row_to_remove g)))%Q
  /\ (Z.abs (counter_value ke ki (row_to_add g) (row_to_remove g)) < 2 ^ 53)%Z.
Proof.
  intros (_ & Hst & Hd & Hr).
  rewrite integer_valued_removal_bound in Hr.
  destruct config_integer as (He & Hi & Hke & Hki & Hbound).
  unfold counter_value. split.
  - rewrite Hst, He, Hi. unfold Z.sub.
    rewrite !inject_Z_plus, !inject_Z_opp, !inject_Z_mult, !inject_Z_plus, !inject_Z_opp.
    ring.
  - revert Hbound. generalize (2 ^ 53)%Z. intros P Hbound.
    set (a := Z.of_nat (row_to_add g)) in *. set (r := Z.of_nat (row_to_remove g)) in *.
    set (n := Z.of_nat num_rows) in *.
    assert (0 <= r)%Z by (unfold r; lia).
    assert (0 <= (a - r) * ke <= n * ke)%Z by nia.
    assert (n <= n * ke)%Z by nia.
    assert (0 <= ke * ki)%Z by nia.
    assert (ke * (ki + 3 * n + 1) = ke * ki + 3 * (n * ke) + ke)%Z by ring.
    apply Z.abs_lt. lia.
Qed.

Lemma Qle_bool_inject_Z (q : Q) (k : Z) :
  (q == inject_Z k)%Q -> Qle_bool 0 q = (0 <=? k)%Z.
Proof.
  intros Hq.
  destruct (Z.leb_spec 0 k) as [Hle|Hlt].
  - apply Qle_bool_iff. rewrite Hq. change 0%Q with (inject_Z 0).
    rewrite <- Zle_Qle. exact Hle.
  - destruct (Qle_bool 0 q) eqn:E; [|reflexivity].
    apply Qle_bool_iff in E. rewrite Hq in E. change 0%Q with (inject_Z 0) in E.
    rewrite <- Zle_Qle in E. lia.
Qed.

Lemma remove_rate_exact : float_sub (float_of_Z ke) float_one = float_of_Z (ke - 1).
Proof.
  destruct config_integer as (_ & _ & Hke & Hki & Hbound).
  assert (ke < 2 ^ 53)%Z.
  { revert Hbound. generalize (2 ^ 53)%Z. intros P Hbound. nia. }
  unfold float_one. apply float_sub_exact; lia.
Qed.

(** One iteration of the two generators: the same actions, and locals
    that agree again. *)
Lemma annealing_step_float_exact (gf : annealing_float) (g : annealing) :
  annealing_inv config num_rows g ->
  (num_fresh g + num_stale g)%Z <> Z.of_nat num_rows ->
  locals_agree ke ki gf g ->
  (annealing_step_float (float_of_Z ke) (0 <? learning_sample_tree_steps config)%Z
     row_ids gf).1
  = (annealing_step config row_ids g).1
  /\ locals_agree ke ki
       (annealing_step_float (float_of_Z ke) (0 <? learning_sample_tree_steps config)%Z
          row_ids gf).2
       (annealing_step config row_ids g).2.
Proof.
  intros Hinv Hne (Hfresh & Hstale & Hadd & Hrem & Hstate).
  pose proof (annealing_step_inv config num_rows row_ids integer_valued_epochs
                integer_valued_init_rows g Hinv Hne) as Hinv'.
  destruct (annealing_inv_counter g Hinv) as [Hq Hk].
  destruct (annealing_inv_counter _ Hinv') as [_ Hk'].
  assert (Hnext :
    (Qle_bool 0 (state g) = true ->
       (Z.abs (counter_value ke ki (S (row_to_add g)) (row_to_remove g)) < 2 ^ 53)%Z)
    /\ (Qle_bool 0 (state g) = false ->
        (Z.abs (counter_value ke ki (row_to_add g) (S (row_to_remove g))) < 2 ^ 53)%Z)).
  { pose proof (annealing_step_spec config row_ids g) as Hspec.
    destruct (annealing_step config row_ids g) as [acts g']. simpl in Hk'.
    destruct Hspec as [(Hb & Ha & Hr & _) | (Hb & Ha & Hr & _)];
      rewrite Ha, Hr in Hk'; split; intros Hb'; congruence. }
  clear Hinv' Hk'. destruct Hnext as [Hnext_add Hnext_rem].
  destruct config_integer as (_ & _ & Hke & Hki & Hbound).
  assert (Hke' : (ke < 2 ^ 53)%Z).
  { revert Hbound. generalize (2 ^ 53)%Z. intros P Hbound. nia. }
  unfold annealing_step_float, annealing_step.
  rewrite remove_rate_exact, Hstate, Hfresh, Hstale, Hadd, Hrem.
  rewrite (float_ge0_of_Z _ Hk), <- (Qle_bool_inject_Z _ _ Hq).
  unfold locals_agree.
  destruct (Qle_bool 0 (state g)); cbv zeta;
    [specialize (Hnext_add eq_refl); clear Hnext_rem
    |specialize (Hnext_rem eq_refl); clear Hnext_add];
    cbn [fst snd f_state f_num_fresh f_num_stale f_row_to_add f_row_to_remove
         state num_fresh num_stale row_to_add row_to_remove];
    match goal with |- context [if ?b then _ else _] => destruct b end;
    cbn [fst snd f_state f_num_fresh f_num_stale f_row_to_add f_row_to_remove
         state num_fresh num_stale row_to_add row_to_remove];
    (split; [reflexivity|]); repeat (split; [reflexivity|]).
  - rewrite float_sub_exact; [f_equal; unfold counter_value; lia | lia | lia |].
    replace (counter_value ke ki (row_to_add g) (row_to_remove g) - (ke - 1))%Z
      with (counter_value ke ki (S (row_to_add g)) (row_to_remove g))
      by (unfold counter_value; lia).
    exact Hnext_add.
  - rewrite float_sub_exact; [f_equal; unfold counter_value; lia | lia | lia |].
    replace (counter_value ke ki (row_to_add g) (row_to_remove g) - (ke - 1))%Z
      with (counter_value ke ki (S (row_to_add g)) (row_to_remove g))
      by (unfold counter_value; lia).
    exact Hnext_add.
  - rewrite float_add_exact; [f_equal; unfold counter_value; lia | lia | lia |].
    replace (counter_value ke ki (row_to_add g) (row_to_remove g) + ke)%Z
      with (counter_value ke ki (row_to_add g) (S (row_to_remove g)))
      by (unfold counter_value; lia).
    exact Hnext_rem.
  - rewrite float_add_exact; [f_equal; unfold counter_value; lia | lia | lia |].
    replace (counter_value ke ki (row_to_add g) (row_to_remove g) + ke)%Z
      with (counter_value ke ki (row_to_add g) (S (row_to_remove g)))
      by (unfold counter_value; lia).
    exact Hnext_rem.
Qed.

Lemma annealing_loop_float_exact (fuel : nat) :
  forall (gf : annealing_float) (g : annealing),
    annealing_inv config num_rows g -> locals_agree ke ki gf g ->
    annealing_loop_float (float_of_Z ke) (0 <? learning_sample_tree_steps config)%Z
      num_rows row_ids fuel gf
    = annealing_loop config num_rows row_ids fuel g.
Proof.
  induction fuel as [|fuel IH]; intros gf g Hinv Hagree; simpl;
    pose proof Hagree as (Hfresh & Hstale & _); rewrite Hfresh, Hstale.
  - reflexivity.
  - destruct (Z.eqb_spec (num_fresh g + num_stale g) (Z.of_nat num_rows)) as [Heq|Hne];
      [reflexivity|].
    destruct (annealing_step_float_exact gf g Hinv Hne Hagree) as [Hacts Hagree'].
    pose proof (annealing_step_inv config num_rows row_ids integer_valued_epochs
                  integer_valued_init_rows g Hinv Hne) as Hinv'.
    destruct (annealing_step_float _ _ row_ids gf) as [acts1 gf'].
    destruct (annealing_step config row_ids g) as [acts2 g'].
    simpl in Hacts, Hagree', Hinv'. subst acts2.
    rewrite (IH gf' g' Hinv' Hagree'). reflexivity.
Qed.

(** On an integer-valued configuration the binary64 counter never rounds:
    the generator yields the schedule of the exact counter. *)
Lemma get_annealing_schedule_float_exact (fuel : nat) :
  get_annealing_schedule_float num_rows (float_of_Z ke) (float_of_Z ki)
    (learning_sample_tree_steps config) row_ids fuel
  = get_annealing_schedule num_rows config row_ids fuel.
Proof.
  unfold get_annealing_schedule_float, get_annealing_schedule.
  apply annealing_loop_float_exact.
  - apply annealing_init_inv. apply integer_valued_epochs.
  - destruct config_integer as (_ & _ & Hke & Hki & Hbound).
    unfold locals_agree, annealing_init_float, annealing_init.
    cbn [fst snd f_state f_num_fresh f_num_stale f_row_to_add f_row_to_remove
         state num_fresh num_stale row_to_add row_to_remove].
    repeat (split; [reflexivity|]).
    unfold counter_value. change (Z.of_nat 0) with 0%Z.
    replace (ke * ki + 0 - (0 - 0) * ke)%Z with (ke * ki)%Z by lia.
    assert (ke < 2 ^ 53 /\ ke * ki < 2 ^ 53)%Z as [H1 H2].
    { revert Hbound. generalize (2 ^ 53)%Z. intros P Hbound. nia. }
    apply float_mul_exact; [lia | exact Hki | exact H2].
Qed.

End ExactCounter.



(** The running counts of a list that the replay accepts are those of its
    rows. *)
Lemma removed_take_added (row_ids : list nat) (acts : list action) :
  added acts = map (cycle_at row_ids) (seq 0 (length (added acts))) ->
  removed acts = map (cycle_at row_ids) (seq 0 (length (removed acts))) ->
  (count_removes acts <= count_adds acts)%Z ->
  removed acts = take (length (removed acts)) (added acts).
Proof.
  intros Ha Hr Hle. rewrite count_adds_added, count_removes_removed in Hle.
  rewrite Hr at 1. rewrite Ha.
  rewrite <- fmap_take, take_seq. f_equal. f_equal. lia.
Qed.

(** C9. For a finite epoch count of at least [1.0] and an initial-rows
    value that is not negative, whatever the generator has yielded after
    any number of iterations, replayed from the empty assigned set, meets
    the precondition of every [add_row] and of every [remove_row]; the
    running add-minus-remove difference stays within [0, num_rows]; and
    the removed rows are the added rows again in the same (cyclic,
    shuffled) order. The list the generator returns, if it stops within
    these iterations, is this list. *)
Theorem schedule_respects_preconditions (num_rows : nat) (epochs init_rows : spec_float)
    (steps : Z) (row_ids : list nat) (n : nat) :
  valid_binary 53 1024 epochs = true ->
  SFleb float_one epochs = true ->
  SFltb epochs (S754_infinity false) = true ->
  float_ge0 init_rows = true ->
  row_ids ≡ₚ seq 0 num_rows ->
  let acts := annealing_stream_float num_rows epochs init_rows steps row_ids n in
  is_Some (replay ∅ acts)
  /\ (forall k,
        (0 <= count_adds (take k acts) - count_removes (take k acts)
           <= Z.of_nat num_rows)%Z)
  /\ removed acts = take (length (removed acts)) (added acts)
  /\ (forall returned,
        get_annealing_schedule_float num_rows epochs init_rows steps row_ids n
        = Some returned ->
        returned = acts).
Proof.
  intros Hvalid Hge1 Hfinite Hinit Hperm acts.
  destruct (epochs_ge_1_spec epochs Hvalid Hge1 Hfinite) as (me & ee & -> & Hb & Hmag).
  pose proof (annealing_init_float_inv me ee num_rows init_rows Hinit) as Hinv.
  assert (Hrunning : forall k,
    (0 <= count_adds (take k acts) - count_removes (take k acts)
       <= Z.of_nat num_rows)%Z).
  { intros k.
    pose proof (annealing_yielded_float_running me ee (0 <? steps)%Z num_rows row_ids
                  Hb Hmag n _ k Hinv) as Hk.
    cbv zeta in Hk. simpl in Hk. fold (annealing_stream_float num_rows
      (S754_finite false me ee) init_rows steps row_ids n) in Hk. fold acts in Hk. lia. }
  split; [|split; [exact Hrunning|split]].
  - change (∅ : gset nat)
      with (list_to_set (window_float row_ids
              (annealing_init_float (S754_finite false me ee) init_rows)) : gset nat).
    apply (annealing_yielded_float_replay me ee (0 <? steps)%Z num_rows row_ids
             Hb Hmag Hperm n _ Hinv).
  - destruct (annealing_yielded_float_rows (S754_finite false me ee) (0 <? steps)%Z
                num_rows row_ids n
                (annealing_init_float (S754_finite false me ee) init_rows)) as [Ha Hr].
    apply (removed_take_added row_ids); [exact Ha | exact Hr|].
    pose proof (Hrunning (length acts)) as Hk. rewrite firstn_all in Hk. lia.
  - intros returned Hrun. symmetry.
    apply (annealing_loop_float_yielded _ _ _ _ _ _ _ Hrun).
Qed.

Lemma schedule_respects_preconditions_witness :
  let acts :=
    annealing_stream_float 3 (S754_finite false 5404319552844595 (-51)) (float_of_Z 1)
      1 [2; 0; 1]%nat 6 in
  is_Some (replay ∅ acts)
  /\ (forall k,
        (0 <= count_adds (take k acts) - count_removes (take k acts) <= Z.of_nat 3)%Z)
  /\ removed acts = take (length (removed acts)) (added acts)
  /\ (forall returned,
        get_annealing_schedule_float 3 (S754_finite false 5404319552844595 (-51))
          (float_of_Z 1) 1 [2; 0; 1]%nat 6
        = Some returned ->
        returned = acts).
Proof.
  apply (schedule_respects_preconditions 3 (S754_finite false 5404319552844595 (-51))
           (float_of_Z 1) 1 [2; 0; 1]%nat 6); try reflexivity.
  apply (Permutation_trans (l' := [0; 2; 1]%nat)); [apply perm_swap|].
  apply perm_skip, perm_swap.
Defined.

(** With [epochs = 2 ^ 54] the remove rate [epochs - 1.0] rounds to
    [epochs]: the counter alternates between [0.0] and [-epochs], and the
    generator between an addition and a removal. *)
Lemma annealing_loop_float_alternates (fuel : nat) : forall g : annealing_float,
  (f_state g = S754_zero false /\ (f_num_fresh g + f_num_stale g = 0)%Z)
  \/ (f_state g = S754_finite true 4503599627370496 2
      /\ (f_num_fresh g + f_num_stale g = 1)%Z) ->
  annealing_loop_float (float_of_Z (2 ^ 54)) false 2 [0; 1]%nat fuel g = None.
Proof.
  induction fuel as [|fuel IH]; intros g Hg;
    assert (Hexit : (f_num_fresh g + f_num_stale g =? Z.of_nat 2)%Z = false)
      by (destruct Hg as [[_ ->] | [_ ->]]; reflexivity);
    cbn [annealing_loop_float]; rewrite Hexit; [reflexivity|].
  unfold annealing_step_float.
  destruct Hg as [[Hs Hsum] | [Hs Hsum]]; rewrite Hs.
  - change (float_ge0 (S754_zero false)) with true. cbv iota zeta. simpl andb.
    cbv iota.
    rewrite IH; [reflexivity|]. right.
    cbn [f_state f_num_fresh f_num_stale]. split; [reflexivity | lia].
  - change (float_ge0 (S754_finite true 4503599627370496 2)) with false.
    cbv iota zeta. simpl andb. cbv iota.
    rewrite IH; [reflexivity|]. left.
    cbn [f_state f_num_fresh f_num_stale]. split; [reflexivity | lia].
Qed.


(** The preconditions claimed of every configuration fail for a negative
    initial-rows value: with [epochs = 2.0], [init_rows = -1.0] and two
    rows the first action removes a row from the empty assigned set. *)
Lemma schedule_removes_unassigned_row :
  get_annealing_schedule_float 2 (float_of_Z 2) (float_of_Z (-1)) 0 [0; 1]%nat 8
  = Some [remove_row_action 0; add_row_action 0; remove_row_action 1;
          add_row_action 1; add_row_action 0; remove_row_action 0;
          add_row_action 1; add_row_action 0]%nat
  /\ replay ∅ [remove_row_action 0; add_row_action 0; remove_row_action 1;
               add_row_action 1; add_row_action 0; remove_row_action 0;
               add_row_action 1; add_row_action 0]%nat = None.
Proof. split; vm_compute; reflexivity. Qed.
(** ** Integer arrays *)

Lemma wrap8_int8 (z : Z) : int8 z -> wrap8 z = z.
Proof. unfold int8, wrap8. intros. rewrite Z.mod_small; lia. Qed.

Lemma wrap32_inverse (x d d' : Z) :
  int32 x -> (d + d' = 0)%Z -> wrap32 (wrap32 (x + d) + d') = x.
Proof.
  unfold int32, wrap32. intros Hx Hd.
  pose proof (Z.mod_pos_bound (x + d + 2147483648) 4294967296 eq_refl).
  pose proof (Z.div_mod (x + d + 2147483648) 4294967296).
  replace ((x + d + 2147483648) mod 4294967296 - 2147483648 + d' + 2147483648)%Z
    with (x + 2147483648 + - ((x + d + 2147483648) / 4294967296) * 4294967296)%Z by lia.
  rewrite Z.mod_add by lia. rewrite Z.mod_small; lia.
Qed.

Lemma get2_look2 (a : list (list Z)) (i j : nat) :
  get2 a i j = default 0%Z (look2 a i j).
Proof.
  unfold get2, look2. rewrite !nth_lookup.
  destruct (a !! i) as [row|]; simpl; reflexivity.
Qed.

Lemma same_shape2_refl (a : list (list Z)) : same_shape2 a a.
Proof. induction a; constructor; auto. Qed.

Lemma same_shape2_trans (a b c : list (list Z)) :
  same_shape2 a b -> same_shape2 b c -> same_shape2 a c.
Proof.
  unfold same_shape2. intros Hab. revert c.
  induction Hab; intros c Hbc; inversion Hbc; subst; constructor; eauto. congruence.
Qed.

Lemma same_shape2_set2 (a : list (list Z)) (i j : nat) (z : Z) :
  same_shape2 a (set2 a i j z).
Proof.
  unfold set2. revert i. induction a as [|row a IH]; intros [|i]; simpl.
  - constructor.
  - constructor.
  - constructor; [rewrite length_insert; reflexivity | apply same_shape2_refl].
  - constructor; [reflexivity | apply IH].
Qed.

Lemma ext2 (a b : list (list Z)) :
  same_shape2 a b -> (forall i j, look2 a i j = look2 b i j) -> a = b.
Proof.
  intros Hs. induction Hs as [|r1 r2 a b Hlen Hs IH]; intros Hl; [reflexivity|].
  f_equal.
  - apply list_eq. intros j. apply (Hl 0%nat j).
  - apply IH. intros i j. apply (Hl (S i) j).
Qed.

Lemma look2_set2 (a : list (list Z)) (i j i' j' : nat) (z : Z) :
  look2 (set2 a i j z) i' j'
  = if decide (i = i' /\ j = j') then look2 a i j ≫= (fun _ => Some z)
    else look2 a i' j'.
Proof.
  unfold look2, set2.
  destruct (decide (i = i' /\ j = j')) as [[<- <-]|Hne].
  - rewrite list_lookup_alter_eq. destruct (a !! i) as [row|]; simpl; [|reflexivity].
    destruct (row !! j) eqn:E; simpl.
    + apply list_lookup_insert_eq. eapply lookup_lt_Some; eassumption.
    + apply lookup_ge_None. rewrite length_insert. apply lookup_ge_None. assumption.
  - destruct (decide (i = i')) as [<-|Hi].
    + rewrite list_lookup_alter_eq. destruct (a !! i) as [row|]; simpl; [|reflexivity].
      apply list_lookup_insert_ne. intros ->. tauto.
    + rewrite list_lookup_alter_ne by assumption. reflexivity.
Qed.

(** Writing [f p] at every position [p] of a list of positions. *)
Lemma look2_scatter (f : nat -> nat -> Z) (idx : list (nat * nat)) :
  forall (acc : list (list Z)) (i j : nat),
    look2 (foldl (fun acc '(i, j) => set2 acc i j (f i j)) acc idx) i j
    = if decide ((i, j) ∈ idx) then look2 acc i j ≫= (fun _ => Some (f i j))
      else look2 acc i j.
Proof.
  induction idx as [|[i0 j0] idx IH]; intros acc i j.
  - destruct (decide ((i, j) ∈ [])) as [Hin|_]; [|reflexivity].
    apply elem_of_nil in Hin. contradiction.
  - change (foldl (fun acc '(i, j) => set2 acc i j (f i j)) acc ((i0, j0) :: idx))
      with (foldl (fun acc '(i, j) => set2 acc i j (f i j)) (set2 acc i0 j0 (f i0 j0)) idx).
    rewrite IH, look2_set2.
    destruct (decide ((i, j) ∈ (i0, j0) :: idx)) as [Hin'|Hnin'];
      destruct (decide ((i, j) ∈ idx)) as [Hin|Hnin];
      destruct (decide (i0 = i /\ j0 = j)) as [[-> ->]|Hne];
      try reflexivity; try (destruct (look2 acc i j); reflexivity); exfalso;
      try (apply Hnin'; solve [left | right; assumption]);
      try (apply elem_of_cons in Hin' as [Heq|Hin']; [injection Heq as -> ->|]; tauto).
Qed.

Lemma same_shape2_scatter (f : nat -> nat -> Z) (idx : list (nat * nat)) :
  forall acc : list (list Z),
    same_shape2 acc (foldl (fun acc '(i, j) => set2 acc i j (f i j)) acc idx).
Proof.
  induction idx as [|[i0 j0] idx IH]; intros acc; simpl.
  - apply same_shape2_refl.
  - eapply same_shape2_trans; [apply same_shape2_set2 | apply IH].
Qed.

Lemma look2_int32 (a : list (list Z)) (i j : nat) (z : Z) :
  all_int32_2 a -> look2 a i j = Some z -> int32 z.
Proof.
  unfold look2, all_int32_2. intros Ha Hl.
  destruct (a !! i) as [row|] eqn:E; simpl in Hl; [|discriminate].
  eapply Forall_lookup_1 in Ha; [|eassumption].
  eapply Forall_lookup_1 in Ha; eassumption.
Qed.

(** An in-place addition at index arrays is undone by the opposite one. *)
Lemma iadd_at2_inverse (a : list (list Z)) (idx : list (nat * nat)) (d d' : Z) :
  all_int32_2 a -> (d + d' = 0)%Z ->
  iadd_at2 (iadd_at2 a idx d) idx d' = a.
Proof.
  intros Ha Hd. symmetry. apply ext2.
  - unfold iadd_at2.
    eapply same_shape2_trans; [|apply (same_shape2_scatter (fun i j => wrap32 (get2 _ i j + d')))].
    apply (same_shape2_scatter (fun i j => wrap32 (get2 a i j + d))).
  - intros i j. unfold iadd_at2 at 1.
    rewrite (look2_scatter (fun i j => wrap32 (get2 (iadd_at2 a idx d) i j + d'))).
    unfold iadd_at2.
    rewrite get2_look2, !(look2_scatter (fun i j => wrap32 (get2 a i j + d))).
    destruct (decide ((i, j) ∈ idx)); [|reflexivity].
    rewrite get2_look2.
    destruct (look2 a i j) as [z|] eqn:E; simpl; [|reflexivity].
    f_equal. symmetry. apply wrap32_inverse; [|assumption].
    eapply look2_int32; eassumption.
Qed.

Lemma get3_look3 (a : list (list (list Z))) (e i j : nat) :
  get3 a e i j = default 0%Z (look3 a e i j).
Proof.
  unfold get3, look3. rewrite get2_look2, nth_lookup.
  destruct (a !! e) as [mat|]; simpl; reflexivity.
Qed.

Lemma same_shape3_refl (a : list (list (list Z))) : same_shape3 a a.
Proof. induction a; constructor; auto using same_shape2_refl. Qed.

Lemma same_shape3_trans (a b c : list (list (list Z))) :
  same_shape3 a b -> same_shape3 b c -> same_shape3 a c.
Proof.
  unfold same_shape3. intros Hab. revert c.
  induction Hab; intros c Hbc; inversion Hbc; subst; constructor;
    eauto using same_shape2_trans.
Qed.

Lemma same_shape3_set3 (a : list (list (list Z))) (e i j : nat) (z : Z) :
  same_shape3 a (set3 a e i j z).
Proof.
  unfold set3. revert e. induction a as [|mat a IH]; intros [|e]; simpl.
  - constructor.
  - constructor.
  - constructor; [apply same_shape2_set2 | apply same_shape3_refl].
  - constructor; [apply same_shape2_refl | apply IH].
Qed.

Lemma ext3 (a b : list (list (list Z))) :
  same_shape3 a b -> (forall e i j, look3 a e i j = look3 b e i j) -> a = b.
Proof.
  intros Hs. induction Hs as [|m1 m2 a b Hm Hs IH]; intros Hl; [reflexivity|].
  f_equal.
  - apply ext2; [assumption|]. intros i j. apply (Hl 0%nat i j).
  - apply IH. intros e i j. apply (Hl (S e) i j).
Qed.

Lemma look3_set3 (a : list (list (list Z))) (e i j e' i' j' : nat) (z : Z) :
  look3 (set3 a e i j z) e' i' j'
  = if decide (e = e' /\ i = i' /\ j = j') then look3 a e i j ≫= (fun _ => Some z)
    else look3 a e' i' j'.
Proof.
  unfold look3, set3.
  destruct (decide (e = e')) as [<-|He].
  - rewrite list_lookup_alter_eq. destruct (a !! e) as [mat|]; simpl.
    + rewrite look2_set2.
      destruct (decide (i = i' /\ j = j')) as [[<- <-]|Hne];
        destruct (decide (e = e /\ i = _ /\ j = _)) as [(_ & Hi & Hj)|Hne'];
        try reflexivity; exfalso; tauto.
    + destruct (decide _); reflexivity.
  - rewrite list_lookup_alter_ne by assumption.
    destruct (decide _) as [(? & _)|]; [contradiction | reflexivity].
Qed.

Lemma look3_scatter (f : nat -> nat -> nat -> Z) (idx : list (nat * nat * nat)) :
  forall (acc : list (list (list Z))) (e i j : nat),
    look3 (foldl (fun acc '(e, i, j) => set3 acc e i j (f e i j)) acc idx) e i j
    = if decide ((e, i, j) ∈ idx) then look3 acc e i j ≫= (fun _ => Some (f e i j))
      else look3 acc e i j.
Proof.
  induction idx as [|[[e0 i0] j0] idx IH]; intros acc e i j.
  - destruct (decide ((e, i, j) ∈ [])) as [Hin|_]; [|reflexivity].
    apply elem_of_nil in Hin. contradiction.
  - change (foldl (fun acc '(e, i, j) => set3 acc e i j (f e i j)) acc ((e0, i0, j0) :: idx))
      with (foldl (fun acc '(e, i, j) => set3 acc e i j (f e i j))
                  (set3 acc e0 i0 j0 (f e0 i0 j0)) idx).
    rewrite IH, look3_set3.
    destruct (decide ((e, i, j) ∈ (e0, i0, j0) :: idx)) as [Hin'|Hnin'];
      destruct (decide ((e, i, j) ∈ idx)) as [Hin|Hnin];
      destruct (decide (e0 = e /\ i0 = i /\ j0 = j)) as [(-> & -> & ->)|Hne];
      try reflexivity; try (destruct (look3 acc e i j); reflexivity); exfalso;
      try (apply Hnin'; solve [left | right; assumption]);
      try (apply elem_of_cons in Hin' as [Heq|Hin']; [injection Heq as -> -> ->|]; tauto).
Qed.

Lemma same_shape3_scatter (f : nat -> nat -> nat -> Z) (idx : list (nat * nat * nat)) :
  forall acc : list (list (list Z)),
    same_shape3 acc (foldl (fun acc '(e, i, j) => set3 acc e i j (f e i j)) acc idx).
Proof.
  induction idx as [|[[e0 i0] j0] idx IH]; intros acc; simpl.
  - apply same_shape3_refl.
  - eapply same_shape3_trans; [apply same_shape3_set3 | apply IH].
Qed.

Lemma look3_int32 (a : list (list (list Z))) (e i j : nat) (z : Z) :
  all_int32_3 a -> look3 a e i j = Some z -> int32 z.
Proof.
  unfold look3, all_int32_3. intros Ha Hl.
  destruct (a !! e) as [mat|] eqn:E; simpl in Hl; [|discriminate].
  eapply Forall_lookup_1 in Ha; [|eassumption].
  eapply look2_int32; eassumption.
Qed.

Lemma iadd_at3_inverse (a : list (list (list Z))) (idx : list (nat * nat * nat))
    (d d' : Z) :
  all_int32_3 a -> (d + d' = 0)%Z ->
  iadd_at3 (iadd_at3 a idx d) idx d' = a.
Proof.
  intros Ha Hd. symmetry. apply ext3.
  - unfold iadd_at3.
    eapply same_shape3_trans;
      [|apply (same_shape3_scatter (fun e i j => wrap32 (get3 _ e i j + d')))].
    apply (same_shape3_scatter (fun e i j => wrap32 (get3 a e i j + d))).
  - intros e i j. unfold iadd_at3 at 1.
    rewrite (look3_scatter (fun e i j => wrap32 (get3 (iadd_at3 a idx d) e i j + d'))).
    unfold iadd_at3.
    rewrite get3_look3, !(look3_scatter (fun e i j => wrap32 (get3 a e i j + d))).
    destruct (decide ((e, i, j) ∈ idx)); [|reflexivity].
    rewrite get3_look3.
    destruct (look3 a e i j) as [z|] eqn:E; simpl; [|reflexivity].
    f_equal. symmetry. apply wrap32_inverse; [|assumption].
    eapply look3_int32; eassumption.
Qed.

(** Adding a vector to a column, then the opposite vector. *)
Lemma iadd_column_inverse (table : list (list Z)) (m : nat) (xs xs' : list Z) :
  all_int32_2 table ->
  (forall c, (nth c xs 0 + nth c xs' 0 = 0)%Z) ->
  iadd_column (iadd_column table m xs) m xs' = table.
Proof.
  intros Ht Hx. unfold iadd_column. apply list_eq. intros c.
  rewrite !list_lookup_imap.
  destruct (table !! c) as [row|] eqn:E; simpl; [|reflexivity].
  f_equal. apply list_eq. intros m'.
  eapply Forall_lookup_1 in Ht; [|eassumption].
  destruct (decide (m = m')) as [<-|Hm].
  - rewrite !list_lookup_alter_eq.
    destruct (row !! m) as [z|] eqn:Ez; simpl; [|reflexivity].
    f_equal. apply wrap32_inverse; [|apply Hx].
    eapply Forall_lookup_1 in Ht; eassumption.
  - rewrite !list_lookup_alter_ne by assumption. reflexivity.
Qed.

(** The loop [for v, column in enumerate(self._data)] of [_update_tensors],
    table by table. *)
Lemma feat_update_lookup (F : nat -> list (list Z) -> list (list Z) -> list (list Z))
    (data : list (list (list Z))) :
  forall (fs : list (list (list Z))) (v : nat),
    foldl (fun fs '(v, column) => alter (F v column) v fs) fs
          (imap (fun v column => (v, column)) data) !! v
    = (fun table => match data !! v with
                    | Some column => F v column table
                    | None => table
                    end) <$> fs !! v.
Proof.
  induction data as [|column data IH] using rev_ind; intros fs v.
  - simpl. destruct (fs !! v); reflexivity.
  - rewrite imap_app, foldl_app. simpl.
    rewrite Nat.add_0_r.
    destruct (decide (length data = v)) as [<-|Hv].
    + rewrite list_lookup_alter_eq, IH.
      rewrite lookup_ge_None_2 by lia.
      rewrite list_lookup_middle by reflexivity.
      destruct (fs !! length data); reflexivity.
    + rewrite list_lookup_alter_ne by assumption. rewrite IH.
      destruct (fs !! v) as [table|]; simpl; [|reflexivity].
      destruct (decide (v < length data)%nat) as [Hlt|Hge].
      * rewrite lookup_app_l by assumption. reflexivity.
      * rewrite (lookup_ge_None_2 data) by lia.
        rewrite lookup_ge_None_2; [reflexivity|]. rewrite length_app. simpl. lia.
Qed.

(** ** add_row and remove_row *)

Lemma wrap8_opposite (x : Z) :
  int8 x -> x <> (-128)%Z -> (wrap8 (1 * x) + wrap8 (-1 * x) = 0)%Z.
Proof.
  intros Hx Hne. unfold int8 in Hx.
  rewrite !wrap8_int8 by (unfold int8; lia). lia.
Qed.

Lemma _update_tensors_inverse (t : TreeCatTrainer) (row_id : nat) :
  suffstats_int32 t -> row_counts_negatable t row_id ->
  suffstats (_update_tensors (_update_tensors t row_id 1) row_id (-1)) = suffstats t.
Proof.
  intros (Hv & He & Hf) Hrow. unfold suffstats, _update_tensors. simpl. f_equal.
  - apply list_eq. intros v.
    rewrite !feat_update_lookup.
    destruct (_feat_ss t !! v) as [table|] eqn:Et; simpl; [|reflexivity].
    destruct (_data t !! v) as [column|] eqn:Ec; [|reflexivity].
    f_equal. apply iadd_column_inverse.
    + eapply Forall_lookup_1 in Hf; eassumption.
    + intros c. specialize (Hrow v column Ec).
      generalize dependent (nth row_id column []). intros r Hrow.
      rewrite !nth_lookup, !list_lookup_fmap.
      destruct (r !! c) as [x|] eqn:Ex; simpl; [|reflexivity].
      eapply Forall_lookup_1 in Hrow; [|eassumption].
      apply wrap8_opposite; tauto.
  - apply iadd_at2_inverse; [assumption | reflexivity].
  - apply iadd_at3_inverse; [assumption | reflexivity].
Qed.

Section TrainerProofs.
Context `{Collaborators}.

(** What [add_row] does to a row that is not assigned: the row of
    assignments is replaced by the sampled one, the row joins the assigned
    set, and the statistics are incremented. *)
Lemma add_row_unassigned (t : TreeCatTrainer) (row_id : nat) (rng : RNG) :
  row_id ∉ _assigned_rows t ->
  (row_id < length (assignments t))%nat ->
  exists a rng',
    add_row t row_id rng
    = (None,
       _update_tensors
         (with_assigned (with_assignments t (<[row_id := a]> (assignments t)))
                        ({[row_id]} ∪ _assigned_rows t))
         row_id 1,
       rng').
Proof.
  intros Hnot Hrow. unfold add_row. rewrite decide_False by assumption.
  rewrite decide_False by lia.
  destruct (upward _ _ _ _ _ _ _) as [messages sums].
  destruct (foldl _ _ _) as [[messages' a] rng'].
  exists a, rng'. reflexivity.
Qed.

Lemma add_row_assigned_rows (t : TreeCatTrainer) (row_id : nat) (rng : RNG) :
  row_id ∉ _assigned_rows t ->
  (row_id < length (assignments t))%nat ->
  (add_row t row_id rng).1.1 = None
  /\ _assigned_rows (add_row t row_id rng).1.2 = {[row_id]} ∪ _assigned_rows t
  /\ length (assignments (add_row t row_id rng).1.2) = length (assignments t).
Proof.
  intros Hnot Hrow.
  destruct (add_row_unassigned t row_id rng Hnot Hrow) as (a & rng' & ->).
  repeat split. simpl. apply length_insert.
Qed.

Lemma remove_row_assigned_rows (t : TreeCatTrainer) (row_id : nat) (rng : RNG) :
  row_id ∈ _assigned_rows t ->
  (row_id < length (assignments t))%nat ->
  (remove_row t row_id rng).1.1 = None
  /\ _assigned_rows (remove_row t row_id rng).1.2 = _assigned_rows t ∖ {[row_id]}
  /\ length (assignments (remove_row t row_id rng).1.2) = length (assignments t).
Proof.
  intros Hin Hrow. unfold remove_row. rewrite decide_True by assumption.
  rewrite decide_False by (simpl; lia).
  repeat split.
Qed.

End TrainerProofs.

(** C4 (as amended). When no stored count of the row is [-128], [add_row]
    of an unassigned row of the data followed by [remove_row] of the same
    row returns [vert_ss], [edge_ss] and [feat_ss], and the assigned set, to
    what they were before the addition. *)
Theorem add_then_remove_restores `{Collaborators} (t : TreeCatTrainer)
    (row_id : nat) (rng : RNG) :
  row_id ∉ _assigned_rows t ->
  (row_id < length (assignments t))%nat ->
  suffstats_int32 t ->
  row_counts_negatable t row_id ->
  let '(e1, t1, rng1) := add_row t row_id rng in
  let '(e2, t2, _) := remove_row t1 row_id rng1 in
  e1 = None /\ e2 = None
  /\ suffstats t2 = suffstats t
  /\ _assigned_rows t2 = _assigned_rows t.
Proof.
  intros Hnot Hlt Hint Hrow.
  destruct (add_row_unassigned t row_id rng Hnot Hlt) as (a & rng' & ->).
  unfold remove_row.
  rewrite decide_True by (simpl; set_solver).
  rewrite decide_False by (simpl; rewrite length_insert; lia).
  repeat split.
  - apply (_update_tensors_inverse
             (with_assigned (with_assignments t (<[row_id := a]> (assignments t)))
                            ({[row_id]} ∪ _assigned_rows t))
             row_id); assumption.
  - simpl. set_solver.
Qed.

Lemma add_then_remove_restores_witness :
  let '(e1, t1, rng1) := add_row (trainer_of [[[5%Z; 0%Z]]] (example_config 2 1 0)) 0 (tape []) in
  let '(e2, t2, _) := remove_row t1 0 rng1 in
  e1 = None /\ e2 = None
  /\ suffstats t2 = suffstats (trainer_of [[[5%Z; 0%Z]]] (example_config 2 1 0))
  /\ _assigned_rows t2 = _assigned_rows (trainer_of [[[5%Z; 0%Z]]] (example_config 2 1 0)).
Proof.
  apply (add_then_remove_restores (trainer_of [[[5%Z; 0%Z]]] (example_config 2 1 0)) 0 (tape [])).
  - change (0%nat ∉ (∅ : gset nat)). apply not_elem_of_empty.
  - simpl. lia.
  - repeat split; repeat constructor; vm_compute; congruence.
  - intros v column Hv. destruct v as [|v]; [|destruct v; discriminate Hv].
    injection Hv as <-. repeat constructor; vm_compute; congruence.
Defined.

(** C4, the claim as stated, fails on a stored count of [-128] (an input
    count of 128): the addition adds [-128], the removal adds
    [-1 * -128 = -128] again, in [int8]. *)
Lemma add_then_remove_not_restored :
  let t := trainer_of [[[128%Z]]] (example_config 1 1 0) in
  (0%nat ∉ _assigned_rows t)
  /\ _feat_ss (remove_row (add_row t 0 (tape [])).1.2 0 (add_row t 0 (tape [])).2).1.2
     = [[[(-256)%Z]]]
  /\ _feat_ss t = [[[0%Z]]]
  /\ _feat_ss (remove_row (add_row t 0 (tape [])).1.2 0 (add_row t 0 (tape [])).2).1.2
     <> _feat_ss t.
Proof.
  split; [change (0%nat ∉ (∅ : gset nat)); apply not_elem_of_empty|].
  split; [vm_compute; reflexivity|]. split; [vm_compute; reflexivity|].
  vm_compute. discriminate.
Qed.

(** ** Contract violations *)

(** C6. Adding an assigned row, removing an unassigned row and asking the
    propagation engine for an unknown task each raise, and leave the object
    (statistics, assigned set, posterior) and the random state as they were. *)
Theorem contract_violations_fail `{Collaborators} :
  (forall (t : TreeCatTrainer) row_id rng,
     row_id ∈ _assigned_rows t ->
     add_row t row_id rng = (Some AssertionError, t, rng))
  /\ (forall (t : TreeCatTrainer) row_id rng,
        row_id ∉ _assigned_rows t ->
        remove_row t row_id rng = (Some AssertionError, t, rng))
  /\ (forall (s : TreeCatServer) task data counts rng,
        task <> "logprob"%string -> task <> "sample"%string ->
        _propagate s task data counts rng
        = (Raise (ValueError ("Unknown task: " +:+ task)), s, rng)).
Proof.
  split; [|split].
  - intros t row_id rng Hin. unfold add_row. rewrite decide_True by assumption.
    reflexivity.
  - intros t row_id rng Hnot. unfold remove_row. rewrite decide_False by assumption.
    reflexivity.
  - intros s task data counts rng Hl Hs. unfold _propagate.
    destruct (upward _ _ _ _ _ _ _) as [messages logprob].
    rewrite decide_False by assumption. rewrite decide_False by assumption.
    reflexivity.
Qed.

Lemma contract_violations_fail_witness :
  add_row (add_row (trainer_of [[[1%Z]]] (example_config 1 1 0)) 0 (tape [])).1.2 0 (tape [])
  = (Some AssertionError,
     (add_row (trainer_of [[[1%Z]]] (example_config 1 1 0)) 0 (tape [])).1.2, tape [])
  /\ remove_row (trainer_of [[[1%Z]]] (example_config 1 1 0)) 0 (tape [])
     = (Some AssertionError, trainer_of [[[1%Z]]] (example_config 1 1 0), tape [])
  /\ _propagate server_zero "train" [[0; 0]]%Z [] (tape [])
     = (Raise (ValueError "Unknown task: train"), server_zero, tape []).
Proof.
  destruct (contract_violations_fail (H := path_collaborators)) as (Hadd & Hremove & Htask).
  split; [|split].
  - apply Hadd. vm_compute. reflexivity.
  - apply Hremove. change (0%nat ∉ (∅ : gset nat)). apply not_elem_of_empty.
  - apply (Htask server_zero "train"%string); discriminate.
Defined.

(** ** The int8 store of the feature data *)

Lemma map_wrap8_id (data : list (list (list Z))) :
  Forall (Forall (Forall (fun x => (0 <= x <= 127)%Z))) data ->
  map (map (map wrap8)) data = data.
Proof.
  intros Hd. induction Hd as [|column data Hc _ IH]; [reflexivity|].
  simpl. f_equal; [|exact IH].
  induction Hc as [|row column Hr _ IHc]; [reflexivity|].
  simpl. f_equal; [|exact IHc].
  induction Hr as [|x row Hx _ IHr]; [reflexivity|].
  simpl. f_equal; [|exact IHr].
  apply wrap8_int8. unfold int8. lia.
Qed.

Lemma TreeCatTrainer_init_data `{Collaborators} (data : list (list (list Z)))
    (config : Config) (t : TreeCatTrainer) :
  TreeCatTrainer_init data config = inr t -> _data t = map (map (map wrap8)) data.
Proof.
  unfold TreeCatTrainer_init. destruct data as [|column0 data]; [discriminate|].
  destruct (forallb _ _); [|discriminate].
  destruct (128 <? model_num_clusters config)%nat; [discriminate|].
  destruct (model_num_clusters config =? 0)%nat; [discriminate|].
  intros Ht. injection Ht as <-. reflexivity.
Qed.

(** C10. [__init__] stores the counts as [int8]: an input whose counts all
    lie in [0, 127] is stored as it is; an input with the count 128 is not
    (it is stored as [-128]), and after [add_row] the cell of [feat_ss]
    differs from the tally of the counts that were given. *)
Theorem int8_feature_data `{Collaborators} :
  (forall data config (t : TreeCatTrainer),
     Forall (Forall (Forall (fun x => (0 <= x <= 127)%Z))) data ->
     TreeCatTrainer_init data config = inr t ->
     _data t = data)
  /\ (forall config (t : TreeCatTrainer),
        TreeCatTrainer_init [[[128%Z]]] config = inr t ->
        _data t = [[[(-128)%Z]]] /\ _data t <> [[[128%Z]]])
  /\ (let t := (add_row (trainer_of (H := path_collaborators) [[[128%Z]]]
                                    (example_config 1 1 0)) 0 (tape [])).1.2 in
      get3 (_feat_ss t) 0 0 0 = (-128)%Z
      /\ exact_feat_count [[[128%Z]]] (assignments t) (elements (_assigned_rows t)) 0 0 0
         = 128%Z).
Proof.
  split; [|split].
  - intros data config t Hd Ht.
    rewrite (TreeCatTrainer_init_data data config t Ht). apply map_wrap8_id. exact Hd.
  - intros config t Ht. rewrite (TreeCatTrainer_init_data _ config t Ht).
    split; [reflexivity | discriminate].
  - split; vm_compute; reflexivity.
Qed.

Lemma int8_feature_data_witness :
  _data (trainer_of [[[5; 127]; [0; 1]]]%Z (example_config 2 1 0))
  = [[[5; 127]; [0; 1]]]%Z.
Proof.
  destruct (int8_feature_data (H := path_collaborators)) as (Hsmall & _).
  apply (Hsmall [[[5; 127]; [0; 1]]]%Z (example_config 2 1 0)).
  - repeat constructor; lia.
  - reflexivity.
Defined.

(** ** The evidence fold-in *)

Lemma vmul_swap (m r1 r2 l : list Qc) :
  vmul (vmul m (vdiv r1 l)) (vdiv r2 (vshift 1 l))
  = vmul (vmul m (vdiv r2 l)) (vdiv r1 (vshift 1 l)).
Proof.
  unfold vmul, vdiv, vshift.
  revert r1 r2 l. induction m as [|x m IH]; intros r1 r2 l; [reflexivity|].
  destruct l as [|y l]; [destruct r1, r2; reflexivity|].
  destruct r1 as [|a r1]; destruct r2 as [|b r2]; try reflexivity.
  simpl. f_equal; [|apply IH].
  unfold Qcdiv. ring.
Qed.

(** Two units of different categories can be folded in either order. *)
Lemma fold_unit_swap (c1 c2 : nat) (u : urn) :
  fold_unit c1 (fold_unit c2 u) = fold_unit c2 (fold_unit c1 u).
Proof.
  destruct u as [[message obs_lat] lat].
  destruct (decide (c1 = c2)) as [->|Hne]; [reflexivity|].
  unfold fold_unit.
  rewrite !nth_lookup.
  rewrite !list_lookup_insert_ne by congruence.
  apply (f_equal2 pair); [apply (f_equal2 pair)|reflexivity].
  - apply vmul_swap.
  - apply list_insert_insert_ne. assumption.
Qed.

Lemma fold_units_app (us vs : list nat) (u : urn) :
  fold_units (us ++ vs) u = fold_units vs (fold_units us u).
Proof. apply foldl_app. Qed.

Lemma fold_units_permutation (us vs : list nat) :
  us ≡ₚ vs -> forall u, fold_units us u = fold_units vs u.
Proof.
  induction 1 as [|c us vs _ IH|c1 c2 us|us vs ws _ IH1 _ IH2]; intros u.
  - reflexivity.
  - apply (IH (fold_unit c u)).
  - simpl. rewrite fold_unit_swap. reflexivity.
  - rewrite IH1. apply IH2.
Qed.

Lemma qn_S (n : nat) : qn (S n) = (qn n + 1)%Qc.
Proof.
  unfold qn, qz. rewrite Nat2Z.inj_succ. apply Qc_is_canon.
  unfold Qcplus, Q2Qc. cbn [this]. rewrite !Qred_correct.
  unfold Z.succ. rewrite inject_Z_plus. reflexivity.
Qed.

Lemma vshift_vshift (a b : Qc) (x : list Qc) :
  vshift a (vshift b x) = vshift (b + a) x.
Proof.
  unfold vshift. rewrite map_map. apply map_ext. intros y. ring.
Qed.

Lemma vshift_0 (x : list Qc) : vshift (qn 0) x = x.
Proof.
  unfold vshift. rewrite <- (map_id x) at 2. apply map_ext. intros y.
  change (qn 0) with 0%Qc. ring.
Qed.

(** The totals after a sequence of units: the column sums have grown by
    the number of units, and row [c] of the table by the number of units of
    category [c]. *)
Lemma fold_units_totals (us : list nat) : forall message obs_lat lat,
  (fold_units us (message, obs_lat, lat)).2 = vshift (qn (length us)) lat
  /\ forall c, (fold_units us (message, obs_lat, lat)).1.2 !! c
               = vshift (qn (count_occ Nat.eq_dec us c)) <$> obs_lat !! c.
Proof.
  induction us as [|c0 us IH]; intros message obs_lat lat.
  - simpl. rewrite vshift_0. split; [reflexivity|].
    intros c. destruct (obs_lat !! c); simpl; [rewrite vshift_0|]; reflexivity.
  - change (fold_units (c0 :: us) (message, obs_lat, lat))
      with (fold_units us (fold_unit c0 (message, obs_lat, lat))).
    unfold fold_unit.
    destruct (IH (vmul message (vdiv (nth c0 obs_lat []) lat))
                 (<[c0 := vshift 1 (nth c0 obs_lat [])]> obs_lat)
                 (vshift 1 lat)) as [IHl IHt].
    split.
    + rewrite IHl, vshift_vshift. simpl length. rewrite qn_S.
      f_equal. ring.
    + intros c. rewrite IHt. simpl count_occ.
      destruct (Nat.eq_dec c0 c) as [->|Hne].
      * rewrite nth_lookup.
        destruct (obs_lat !! c) as [row|] eqn:E; simpl.
        -- rewrite list_lookup_insert_eq by (eapply lookup_lt_Some; eassumption).
           simpl. rewrite vshift_vshift, qn_S. f_equal. f_equal. ring.
        -- rewrite (proj2 (lookup_ge_None _ _)); [reflexivity|].
           rewrite length_insert. apply lookup_ge_None. assumption.
      * rewrite list_lookup_insert_ne by assumption. reflexivity.
Qed.

(** What one more unit does to the message: it multiplies it by the row
    of its category over the column sums, both as the units before it left
    them. *)
Lemma fold_units_next (done : list nat) (c : nat) (message : list Qc)
    (obs_lat : list (list Qc)) (lat : list Qc) :
  (fold_units (done ++ [c]) (message, obs_lat, lat)).1.1
  = vmul (fold_units done (message, obs_lat, lat)).1.1
         (vdiv (vshift (qn (count_occ Nat.eq_dec done c)) (nth c obs_lat []))
               (vshift (qn (length done)) lat)).
Proof.
  rewrite fold_units_app.
  destruct (fold_units_totals done message obs_lat lat) as [Hlat Htable].
  specialize (Htable c).
  destruct (fold_units done (message, obs_lat, lat)) as [[m ol] l].
  simpl in Hlat, Htable. subst l. simpl.
  f_equal. f_equal.
  rewrite !nth_lookup, Htable.
  destruct (obs_lat !! c); reflexivity.
Qed.

(** C8. The evidence fold-in of a row gives the same message, table and
    column sums whatever the order in which its count units are folded in.
    Within a pass each unit uses the running totals: the unit of category
    [c] that follows the units [done] multiplies the message by row [c] of
    the table, grown by one per earlier unit of category [c], over the
    column sums, grown by one per earlier unit of any category; and these
    are the totals the pass holds at that point. *)
Theorem fold_in_order_irrelevant (M : nat) (message : list Qc)
    (table : list (list Qc)) (row : list Z) (units : list nat) :
  units ≡ₚ units_of row ->
  fold_units units (message, table, sum_axis0 M table) = fold_in M message table row
  /\ (forall done c,
        (fold_units (done ++ [c]) (message, table, sum_axis0 M table)).1.1
        = vmul (fold_units done (message, table, sum_axis0 M table)).1.1
               (vdiv (vshift (qn (count_occ Nat.eq_dec done c)) (nth c table []))
                     (vshift (qn (length done)) (sum_axis0 M table))))
  /\ (forall done,
        (fold_units done (message, table, sum_axis0 M table)).2
        = vshift (qn (length done)) (sum_axis0 M table)
        /\ forall c,
             (fold_units done (message, table, sum_axis0 M table)).1.2 !! c
             = vshift (qn (count_occ Nat.eq_dec done c)) <$> table !! c).
Proof.
  intros Hperm. split; [|split].
  - unfold fold_in. apply fold_units_permutation. exact Hperm.
  - intros done c. apply fold_units_next.
  - intros done. apply fold_units_totals.
Qed.

Lemma fold_in_order_irrelevant_witness :
  fold_units [1; 0; 1; 0; 0]%nat
             ([half; half], [[half; half]; [half; half]],
              sum_axis0 2 [[half; half]; [half; half]])
  = fold_in 2 [half; half] [[half; half]; [half; half]] [3; 2]%Z
  /\ (forall done c,
        (fold_units (done ++ [c]) ([half; half], [[half; half]; [half; half]],
                                   sum_axis0 2 [[half; half]; [half; half]])).1.1
        = vmul (fold_units done ([half; half], [[half; half]; [half; half]],
                                 sum_axis0 2 [[half; half]; [half; half]])).1.1
               (vdiv (vshift (qn (count_occ Nat.eq_dec done c))
                             (nth c [[half; half]; [half; half]] []))
                     (vshift (qn (length done))
                             (sum_axis0 2 [[half; half]; [half; half]]))))
  /\ (forall done,
        (fold_units done ([half; half], [[half; half]; [half; half]],
                          sum_axis0 2 [[half; half]; [half; half]])).2
        = vshift (qn (length done)) (sum_axis0 2 [[half; half]; [half; half]])
        /\ forall c,
             (fold_units done ([half; half], [[half; half]; [half; half]],
                               sum_axis0 2 [[half; half]; [half; half]])).1.2 !! c
             = vshift (qn (count_occ Nat.eq_dec done c))
                 <$> [[half; half]; [half; half]] !! c).
Proof.
  apply (fold_in_order_irrelevant 2 [half; half] [[half; half]; [half; half]]
           [3; 2]%Z [1; 0; 1; 0; 0]%nat).
  change (units_of [3; 2]%Z) with [0; 0; 0; 1; 1]%nat.
  apply (Permutation_trans (l' := [0; 1; 1; 0; 0]%nat)).
  - apply perm_swap.
  - apply perm_skip.
    apply (Permutation_trans (l' := [1; 0; 1; 0]%nat)); [|apply (Permutation_trans (l' := [0; 1; 1; 0]%nat))].
    + apply perm_skip. apply perm_swap.
    + apply perm_swap.
    + apply perm_skip.
      apply (Permutation_trans (l' := [1; 0; 1]%nat)); [apply perm_skip, perm_swap|].
      apply (Permutation_trans (l' := [0; 1; 1]%nat)); [apply perm_swap|].
      apply Permutation_refl.
Defined.
(** ** make_posterior *)

Lemma qz_nonneg (z : Z) : (0 <= z)%Z -> (0 <= qz z)%Qc.
Proof.
  intros Hz. unfold qz, Qcle, Q2Qc. cbn [this]. rewrite !Qred_correct.
  change 0%Q with (inject_Z 0). rewrite <- Zle_Qle. exact Hz.
Qed.

Lemma qn_pos (n : nat) : (0 < n)%nat -> (0 < qn n)%Qc.
Proof.
  intros Hn. unfold qn, qz, Qclt, Q2Qc. cbn [this]. rewrite !Qred_correct.
  change 0%Q with (inject_Z 0). rewrite <- Zlt_Qlt. lia.
Qed.

Lemma half_pos : (0 < half)%Qc.
Proof. reflexivity. Qed.

Lemma prior_pos (M : nat) : (0 < M)%nat -> (0 < half / qn M)%Qc.
Proof.
  intros HM. unfold Qcdiv. apply Qcmult_pos_pos; [apply half_pos|].
  apply Qcinv_pos, qn_pos, HM.
Qed.

Lemma plus_prior_row_pos (prior : Qc) (row : list Z) :
  (0 < prior)%Qc -> Forall (fun z => (0 <= z)%Z) row ->
  pos_vec (map (fun z => (qz z + prior)%Qc) row).
Proof.
  intros Hp Hrow. unfold pos_vec. apply Forall_fmap.
  eapply Forall_impl; [exact Hrow|]. intros z Hz. simpl.
  apply Qcplus_nonneg_pos; [apply qz_nonneg, Hz | exact Hp].
Qed.

Lemma vsum_pos (x : list Qc) : pos_vec x -> x <> [] -> (0 < vsum x)%Qc.
Proof.
  intros Hx Hne. destruct Hx as [|a x Ha Hx]; [congruence|]. clear Hne.
  simpl. apply Qcplus_pos_nonneg; [exact Ha|].
  induction Hx as [|b x Hb _ IH]; simpl; [apply Qcle_refl|].
  apply Qclt_le_weak, Qcplus_pos_nonneg; assumption.
Qed.

Lemma vsum_vscale_div (x : list Qc) (s : Qc) :
  vsum (vscale_div x s) = (vsum x / s)%Qc.
Proof.
  unfold vscale_div. induction x as [|a x IH]; simpl.
  - unfold Qcdiv. ring.
  - rewrite IH. unfold Qcdiv. ring.
Qed.

Lemma vadd_vmul_distr (acc row ratio : list Qc) :
  vadd (vmul acc ratio) (vmul row ratio) = vmul (vadd acc row) ratio.
Proof.
  unfold vadd, vmul. revert row ratio.
  induction acc as [|a acc IH]; intros row ratio; [reflexivity|].
  destruct ratio as [|r ratio]; [destruct row; reflexivity|].
  destruct row as [|b row]; [reflexivity|].
  simpl. f_equal; [ring | apply IH].
Qed.

Lemma foldl_vadd_vmul (ratio : list Qc) (joint : list (list Qc)) :
  forall acc,
    foldl vadd (vmul acc ratio) (map (fun row => vmul row ratio) joint)
    = vmul (foldl vadd acc joint) ratio.
Proof.
  induction joint as [|row joint IH]; intros acc; [reflexivity|].
  simpl. rewrite vadd_vmul_distr. apply IH.
Qed.

Lemma vmul_zeros (M : nat) (ratio : list Qc) :
  length ratio = M -> vmul (replicate M 0%Qc) ratio = replicate M 0%Qc.
Proof.
  unfold vmul. revert ratio. induction M as [|M IH]; intros ratio Hlen.
  - reflexivity.
  - destruct ratio as [|r ratio]; [discriminate|]. simpl. f_equal; [ring|].
    apply IH. simpl in Hlen. lia.
Qed.

(** Rescaling every row of a table rescales its column sums. *)
Lemma sum_axis0_vmul (M : nat) (ratio : list Qc) (joint : list (list Qc)) :
  length ratio = M ->
  sum_axis0 M (map (fun row => vmul row ratio) joint)
  = vmul (sum_axis0 M joint) ratio.
Proof.
  intros Hlen. unfold sum_axis0.
  rewrite <- (vmul_zeros M ratio Hlen) at 1. apply foldl_vadd_vmul.
Qed.

Lemma vadd_length (x y : list Qc) :
  length x = length y -> length (vadd x y) = length x.
Proof. intros Hl. unfold vadd. rewrite length_zip_with. lia. Qed.

Lemma foldl_vadd_length (M : nat) (joint : list (list Qc)) : forall acc,
  length acc = M -> Forall (fun row => length row = M) joint ->
  length (foldl vadd acc joint) = M.
Proof.
  induction joint as [|row joint IH]; intros acc Hacc Hrows; [exact Hacc|].
  inversion Hrows as [|? ? Hrow Hrest]; subst. simpl. apply IH; [|exact Hrest].
  rewrite vadd_length; congruence.
Qed.

Lemma vadd_pos (x y : list Qc) :
  Forall (fun a => (0 <= a)%Qc) x -> pos_vec y -> pos_vec (vadd x y).
Proof.
  unfold pos_vec, vadd. intros Hx. revert y.
  induction Hx as [|a x Ha _ IH]; intros y Hy; [constructor|].
  destruct Hy as [|b y Hb Hy]; [constructor|].
  simpl. constructor; [apply Qcplus_nonneg_pos; assumption | apply IH, Hy].
Qed.

Lemma pos_vec_nonneg (x : list Qc) : pos_vec x -> Forall (fun a => (0 <= a)%Qc) x.
Proof.
  intros Hx. eapply Forall_impl; [exact Hx|]. intros a. apply Qclt_le_weak.
Qed.

Lemma foldl_vadd_pos (joint : list (list Qc)) : forall acc,
  Forall (fun a => (0 <= a)%Qc) acc -> Forall pos_vec joint -> joint <> [] ->
  pos_vec (foldl vadd acc joint).
Proof.
  induction joint as [|row joint IH]; intros acc Hacc Hrows Hne; [congruence|].
  inversion Hrows as [|? ? Hrow Hrest]; subst. simpl.
  destruct joint as [|row' joint].
  - simpl. apply vadd_pos; assumption.
  - apply IH; [|exact Hrest|discriminate].
    apply pos_vec_nonneg, vadd_pos; assumption.
Qed.

Lemma vmul_vdiv_cancel (c l : list Qc) :
  pos_vec c -> length c = length l -> vmul c (vdiv l c) = l.
Proof.
  unfold vmul, vdiv. intros Hc. revert l.
  induction Hc as [|a c Ha _ IH]; intros l Hlen.
  - destruct l; [reflexivity | discriminate].
  - destruct l as [|b l]; [discriminate|]. simpl. f_equal.
    + apply Qcmult_div_r. apply not_eq_sym, Qclt_not_eq, Ha.
    + apply IH. simpl in Hlen. lia.
Qed.

Lemma has_width_Forall {A} (M : nat) (a : list (list A)) :
  has_width M a = true -> Forall (fun row => length row = M) a.
Proof.
  unfold has_width. intros Hw. apply Forall_forall. intros row Hin.
  rewrite forallb_forall in Hw. apply Nat.eqb_eq, Hw.
  apply list_elem_of_In. exact Hin.
Qed.

(** The column sums of the corrected joint of one feature. *)
Lemma corrected_joint_marginal (M : nat) (feat : list (list Z)) (latent_v : list Qc) :
  (0 < M)%nat -> feat <> [] ->
  Forall (fun row => length row = M) feat ->
  Forall (Forall (fun z => (0 <= z)%Z)) feat ->
  length latent_v = M ->
  sum_axis0 M (corrected_joint M (half / qn M) feat latent_v) = latent_v.
Proof.
  intros HM Hne Hw Hnn Hlen. unfold corrected_joint.
  set (joint := plus_prior (half / qn M) feat).
  assert (Hjw : Forall (fun row => length row = M) joint).
  { unfold joint, plus_prior. apply Forall_fmap.
    eapply Forall_impl; [exact Hw|]. intros row Hrow. simpl.
    rewrite length_map. exact Hrow. }
  assert (Hjp : Forall pos_vec joint).
  { unfold joint, plus_prior. apply Forall_fmap.
    eapply Forall_impl; [exact Hnn|]. intros row Hrow. simpl.
    apply plus_prior_row_pos; [apply prior_pos, HM | exact Hrow]. }
  assert (Hjne : joint <> []).
  { unfold joint, plus_prior. destruct feat; [congruence | discriminate]. }
  assert (Hsl : length (sum_axis0 M joint) = M).
  { unfold sum_axis0. apply foldl_vadd_length; [apply length_replicate | exact Hjw]. }
  assert (Hsp : pos_vec (sum_axis0 M joint)).
  { unfold sum_axis0. apply foldl_vadd_pos; [|exact Hjp|exact Hjne].
    apply Forall_replicate. apply Qcle_refl. }
  rewrite sum_axis0_vmul.
  - apply vmul_vdiv_cancel; [exact Hsp | congruence].
  - unfold vdiv. rewrite length_zip_with. lia.
Qed.

(** A row of [latent] sums to one. *)
Lemma normalized_row_sum (row : list Z) :
  row <> [] -> Forall (fun z => (0 <= z)%Z) row ->
  vsum (vscale_div (map (fun z => (qz z + half)%Qc) row)
                   (vsum (map (fun z => (qz z + half)%Qc) row))) = 1%Qc.
Proof.
  intros Hne Hnn. rewrite vsum_vscale_div.
  assert (Hpos : (0 < vsum (map (fun z => (qz z + half)%Qc) row))%Qc).
  { apply vsum_pos; [apply plus_prior_row_pos; [apply half_pos | exact Hnn]|].
    destruct row; [congruence | discriminate]. }
  field. apply not_eq_sym, Qclt_not_eq, Hpos.
Qed.

Lemma make_posterior_inr (grid : list (nat * nat * nat)) (ss : SuffStats) (p : Posterior) :
  make_posterior grid ss = inr p ->
  let M := length (hd [] (vert_ss ss)) in
  (0 < M)%nat
  /\ Forall (fun row => length row = M) (vert_ss ss)
  /\ length (feat_ss ss) = length (vert_ss ss)
  /\ Forall (fun table => Forall (fun row => length row = M) table) (feat_ss ss)
  /\ latent p = normalize_rows (plus_prior half (vert_ss ss))
  /\ observed_latent p
     = imap (fun v feat => corrected_joint M (half / qn M) feat (nth v (latent p) []))
            (feat_ss ss).
Proof.
  unfold make_posterior. destruct (shapes_ok grid ss) eqn:Hs; [|discriminate].
  destruct (length (hd [] (vert_ss ss)) =? 0)%nat eqn:HM; [discriminate|].
  intros Hp. injection Hp as <-. cbn zeta.
  apply Nat.eqb_neq in HM.
  unfold shapes_ok in Hs. destruct (vert_ss ss) as [|row0 rest] eqn:Ev; [discriminate|].
  simpl hd in *.
  repeat (apply andb_prop in Hs as [Hs ?]).
  repeat split.
  - lia.
  - apply has_width_Forall. assumption.
  - apply Nat.eqb_eq. assumption.
  - apply Forall_forall. intros table Hin.
    apply has_width_Forall.
    match goal with Hf : forallb (has_width _) _ = true |- _ =>
      rewrite forallb_forall in Hf; apply Hf, list_elem_of_In, Hin end.
Qed.

(** C7 (as amended). For a snapshot that [make_posterior] accepts, whose
    counts are not negative and whose features each have at least one
    category, the corrected feature-cluster joint of every vertex sums, over
    the categories, to the row of [latent] of that vertex, and that row sums
    to one. *)
Theorem posterior_marginals_agree (grid : list (nat * nat * nat)) (ss : SuffStats)
    (p : Posterior) (v : nat) :
  make_posterior grid ss = inr p ->
  nonneg_counts ss ->
  features_nonempty ss ->
  (v < length (vert_ss ss))%nat ->
  sum_axis0 (length (hd [] (vert_ss ss))) (nth v (observed_latent p) [])
  = nth v (latent p) []
  /\ vsum (nth v (latent p) []) = 1%Qc.
Proof.
  intros Hp [Hvn Hfn] Hne Hv.
  destruct (make_posterior_inr grid ss p Hp) as (HM & Hvw & Hfl & Hfw & Hlat & Hol).
  set (M := length (hd [] (vert_ss ss))) in *.
  destruct (lookup_lt_is_Some_2 (vert_ss ss) v Hv) as [vrow Evrow].
  assert (Hv' : (v < length (feat_ss ss))%nat) by lia.
  destruct (lookup_lt_is_Some_2 (feat_ss ss) v Hv') as [feat Efeat].
  assert (Hvlen : length vrow = M) by (eapply Forall_lookup_1 in Hvw; eassumption).
  assert (Hlatv : nth v (latent p) []
                  = vscale_div (map (fun z => (qz z + half)%Qc) vrow)
                               (vsum (map (fun z => (qz z + half)%Qc) vrow))).
  { rewrite Hlat. unfold normalize_rows, plus_prior.
    rewrite nth_lookup, !list_lookup_fmap, Evrow. reflexivity. }
  split.
  - rewrite Hol at 1. rewrite nth_lookup, list_lookup_imap, Efeat. simpl.
    apply corrected_joint_marginal.
    + exact HM.
    + eapply Forall_lookup_1 in Hne; eassumption.
    + eapply Forall_lookup_1 in Hfw; eassumption.
    + eapply Forall_lookup_1 in Hfn; eassumption.
    + rewrite Hlatv. unfold vscale_div. rewrite !length_map. exact Hvlen.
  - rewrite Hlatv. apply normalized_row_sum.
    + destruct vrow; [simpl in Hvlen; lia | discriminate].
    + eapply Forall_lookup_1 in Hvn; eassumption.
Qed.

Lemma posterior_marginals_agree_witness :
  sum_axis0 (length (hd [] (vert_ss snapshot_two_categories)))
            (nth 0 (observed_latent (posterior_of [] snapshot_two_categories)) [])
  = nth 0 (latent (posterior_of [] snapshot_two_categories)) []
  /\ vsum (nth 0 (latent (posterior_of [] snapshot_two_categories)) []) = 1%Qc.
Proof.
  apply (posterior_marginals_agree [] snapshot_two_categories
           (posterior_of [] snapshot_two_categories) 0).
  - reflexivity.
  - split; repeat constructor; discriminate.
  - repeat constructor. discriminate.
  - simpl. lia.
Defined.

(** C7, the claim as stated, fails on an accepted snapshot with a feature
    that has no category: the joint has no row, so its column sums are
    zero, while the row of [latent] is [1]. *)
Lemma posterior_marginal_of_empty_feature :
  exists p,
    make_posterior [] snapshot_no_category = inr p
    /\ map this (sum_axis0 1 (nth 0 (observed_latent p) [])) = [0%Q]
    /\ map this (nth 0 (latent p) []) = [1%Q]
    /\ sum_axis0 1 (nth 0 (observed_latent p) []) <> nth 0 (latent p) [].
Proof.
  eexists. split; [reflexivity|]. split; [reflexivity|]. split; [reflexivity|].
  intros Heq. apply (f_equal (map this)) in Heq. vm_compute in Heq. discriminate Heq.
Qed.

(** ** The posterior tables under queries *)

Section ServerProofs.
Context `{Collaborators}.


End ServerProofs.

(** C1, at the failing input. A [sample] call that requests one observed
    draw divides a column of [observed_latent] by its sum, in the posterior
    itself: the table after the call is not the table before it, and the
    same [logprob] query reads a different value before and after. *)
Theorem sample_overwrites_posterior :
  let s := server_zero in
  let s' := (server_sample s [[0; 0]]%Z [1%Z] (tape [])).1.2 in
  map (map (map this)) (observed_latent (_posterior s))
  = [[[1 # 4; 1 # 4]; [1 # 4; 1 # 4]]]%Q
  /\ map (map (map this)) (observed_latent (_posterior s'))
     = [[[1 # 2; 1 # 4]; [1 # 2; 1 # 4]]]%Q
  /\ _posterior s' <> _posterior s
  /\ log_terms (server_logprob s [[2; 0]]%Z (tape [])).1.1 = [5 # 12]%Q
  /\ log_terms (server_logprob s' [[2; 0]]%Z (tape [])).1.1 = [19 # 48]%Q.
Proof.
  cbv zeta. split; [vm_compute; reflexivity|]. split; [vm_compute; reflexivity|].
  split; [|split; vm_compute; reflexivity].
  intros Heq.
  apply (f_equal (fun p => map (map (map this)) (observed_latent p))) in Heq.
  vm_compute in Heq. discriminate Heq.
Qed.

(** ** sample_tree *)

Section SampleTreeProofs.
Context `{Collaborators}.

(** The loop of [sample_tree] over a grid, from any array of logits: it
    keeps the length, and leaves the entries that no column names. *)
Lemma edge_logits_fold (f : nat -> nat -> nat -> list (list Z) -> R)
    (count : nat -> nat -> error + list (list Z))
    (grid : list (nat * nat * nat)) : forall (logits result : list R),
  foldl (fun acc '(k, v1, v2) =>
           match acc with
           | inl e => inl e
           | inr edge_logits =>
               match count v1 v2 with
               | inl e => inl e
               | inr counts => inr (<[k := f k v1 v2 counts]> edge_logits)
               end
           end) (inr logits) grid = inr result ->
  length result = length logits
  /\ forall k, k ∉ map (fun '(e, _, _) => e) grid -> result !! k = logits !! k.
Proof.
  induction grid as [|[[e v1] v2] grid IH]; intros logits result Hfold.
  - simpl in Hfold. injection Hfold as <-. split; [reflexivity|]. intros; reflexivity.
  - simpl in Hfold. destruct (count v1 v2) as [err|counts].
    + exfalso. clear -Hfold. induction grid as [|[[e' v1'] v2'] grid IHg];
        simpl in Hfold; [discriminate | exact (IHg Hfold)].
    + destruct (IH _ _ Hfold) as [Hlen Hother]. split.
      * rewrite Hlen. apply length_insert.
      * intros k Hk. simpl in Hk. apply not_elem_of_cons in Hk as [Hne Hk].
        rewrite (Hother k Hk). apply list_lookup_insert_ne. congruence.
Qed.

(** The loop raises only on a column whose two vertices are the same. *)
Lemma edge_logits_fold_inr (f : nat -> nat -> nat -> list (list Z) -> R)
    (rows : list (list nat)) (M : nat) (grid : list (nat * nat * nat)) :
  Forall (fun '(_, v1, v2) => v1 <> v2) grid ->
  forall logits : list R,
  exists result,
    foldl (fun acc '(k, v1, v2) =>
             match acc with
             | inl e => inl e
             | inr edge_logits =>
                 match count_pairs rows v1 v2 M with
                 | inl e => inl e
                 | inr counts => inr (<[k := f k v1 v2 counts]> edge_logits)
                 end
             end) (inr logits) grid = inr result.
Proof.
  induction 1 as [|[[e v1] v2] grid Hne _ IH]; intros logits.
  - exists logits. reflexivity.
  - simpl. unfold count_pairs at 2.
    destruct (Nat.eqb_spec v1 v2) as [Heq|_]; [contradiction|]. apply IH.
Qed.

(** [sample_tree] writes one entry of [edge_logits] per column of the tree
    grid; every other entry of the [K] is the zero it was created with. *)
Lemma sample_tree_edge_logits_untouched (gammaln : R -> R) (t : TreeCatTrainer)
    (edge_logits : list R) (k : nat) :
  sample_tree_edge_logits gammaln t = inr edge_logits ->
  k ∉ map (fun '(e, _, _) => e) (tree_grid (tree t)) ->
  (k < trainer_K t)%nat ->
  length edge_logits = trainer_K t /\ edge_logits !! k = Some 0%R.
Proof.
  intros Hlogits Hk HK. unfold sample_tree_edge_logits in Hlogits.
  apply (edge_logits_fold
           (fun k v1 v2 counts =>
              (logprob_dc gammaln (plus_prior (_edge_prior (trainer_M t)) counts)
               - nth v1 (vertex_logits gammaln t) 0
               - nth v2 (vertex_logits gammaln t) 0)%R)
           (fun v1 v2 => count_pairs (assigned_assignments t) v1 v2 (trainer_M t)))
    in Hlogits.
  destruct Hlogits as [Hlen Hother]. split.
  - rewrite Hlen. apply length_replicate.
  - rewrite (Hother k Hk). apply lookup_replicate_2. exact HK.
Qed.

Lemma sample_tree_edge_logits_inr (gammaln : R -> R) (t : TreeCatTrainer) :
  Forall (fun '(_, v1, v2) => v1 <> v2) (tree_grid (tree t)) ->
  exists edge_logits,
    sample_tree_edge_logits gammaln t = inr edge_logits
    /\ length edge_logits = trainer_K t.
Proof.
  intros Hgrid. unfold sample_tree_edge_logits.
  destruct (edge_logits_fold_inr
              (fun k v1 v2 counts =>
                 (logprob_dc gammaln (plus_prior (_edge_prior (trainer_M t)) counts)
                  - nth v1 (vertex_logits gammaln t) 0
                  - nth v2 (vertex_logits gammaln t) 0)%R)
              (assigned_assignments t) (trainer_M t) (tree_grid (tree t)) Hgrid
              (replicate (trainer_K t) 0%R)) as [result Hresult].
  exists result. split; [exact Hresult|].
  apply (edge_logits_fold
           (fun k v1 v2 counts =>
              (logprob_dc gammaln (plus_prior (_edge_prior (trainer_M t)) counts)
               - nth v1 (vertex_logits gammaln t) 0
               - nth v2 (vertex_logits gammaln t) 0)%R)
           (fun v1 v2 => count_pairs (assigned_assignments t) v1 v2 (trainer_M t)))
    in Hresult.
  destruct Hresult as [Hlen _]. rewrite Hlen. apply length_replicate.
Qed.

End SampleTreeProofs.

(** C2, at the failing input. With three vertices there are [K = 3]
    candidate edges and two tree edges: [sample_tree] leaves the third entry
    of [edge_logits] at zero, whatever [gammaln] is. *)
Theorem sample_tree_skips_candidate_edges (gammaln : R -> R) :
  let t := trainer_three_features in
  trainer_K t = 3%nat
  /\ complete_grid (tree t) = [(0, 0, 1); (1, 0, 2); (2, 1, 2)]%nat
  /\ tree_grid (tree t) = [(0, 0, 1); (1, 1, 2)]%nat
  /\ exists edge_logits,
       sample_tree_edge_logits gammaln t = inr edge_logits
       /\ length edge_logits = 3%nat
       /\ edge_logits !! 2%nat = Some 0%R.
Proof.
  cbv zeta.
  assert (HK : trainer_K trainer_three_features = 3%nat) by (vm_compute; reflexivity).
  assert (Hg : tree_grid (tree trainer_three_features) = [(0, 0, 1); (1, 1, 2)]%nat)
    by (vm_compute; reflexivity).
  split; [exact HK|]. split; [vm_compute; reflexivity|]. split; [exact Hg|].
  destruct (sample_tree_edge_logits_inr gammaln trainer_three_features)
    as (edge_logits & Hlogits & Hlen).
  { rewrite Hg. repeat constructor; discriminate. }
  exists edge_logits. split; [exact Hlogits|].
  rewrite <- HK at 1.
  apply (sample_tree_edge_logits_untouched gammaln trainer_three_features edge_logits 2
           Hlogits).
  - rewrite Hg. simpl. intros Hin.
    apply elem_of_cons in Hin as [Hin|Hin]; [discriminate|].
    apply elem_of_cons in Hin as [Hin|Hin]; [discriminate|].
    apply elem_of_nil in Hin. exact Hin.
  - rewrite HK. lia.
Qed.

(** ** Training-side and serving-side log probabilities *)

Section LogprobComparison.
Context `{Collaborators}.

Lemma server_total_logprob_terms (t : TreeCatTrainer) (rng : RNG) :
  server_total_logprob t rng
  = Rsum (map (fun terms => Rsum (map (fun q => ln (Q2R q)) terms))
              (server_total_terms t rng)).
Proof.
  unfold server_total_logprob, server_total_terms. cbv zeta.
  rewrite map_map. f_equal. apply map_ext. intros row_id.
  unfold server_row_logprob, log_terms.
  destruct ((server_logprob _ _ rng).1.1); try reflexivity.
  unfold logprob_value. rewrite map_map. reflexivity.
Qed.

(** Two trainer states with all rows assigned that agree on the tree
    grid, the dimensions and the statistics have the same [logprob()]. *)
Lemma logprob_congruence (gammaln : R -> R) (t t' : TreeCatTrainer) :
  size (_assigned_rows t) = length (assignments t) ->
  size (_assigned_rows t') = length (assignments t') ->
  tree_grid (tree t) = tree_grid (tree t') ->
  _VEKM t = _VEKM t' ->
  suffstats t = suffstats t' ->
  logprob gammaln t = logprob gammaln t'.
Proof.
  intros Hn Hn' Hgrid Hdim Hss. unfold logprob.
  rewrite !decide_True by assumption.
  unfold suffstats in Hss. injection Hss as Hf Hv He.
  unfold vertex_logits, trainer_M, trainer_V.
  rewrite Hgrid, Hdim, Hf, Hv, He. reflexivity.
Qed.

(** C3 (as amended). The training-side [logprob()] does not raise on a
    state with all rows assigned, and it is a function of the tree grid, the
    dimensions and the sufficient statistics: two such states that agree on
    these have the same [logprob()], whatever their rows are. *)
Theorem logprob_determined_by_suffstats (gammaln : R -> R) (t t' : TreeCatTrainer) :
  size (_assigned_rows t) = length (assignments t) ->
  size (_assigned_rows t') = length (assignments t') ->
  tree_grid (tree t) = tree_grid (tree t') ->
  _VEKM t = _VEKM t' ->
  suffstats t = suffstats t' ->
  logprob gammaln t = logprob gammaln t'
  /\ exists x, logprob gammaln t = inr x.
Proof.
  intros Hn Hn' Hgrid Hdim Hss. split.
  - apply logprob_congruence; assumption.
  - unfold logprob. rewrite decide_True by assumption. eexists. reflexivity.
Qed.

End LogprobComparison.

(** [train] ends in these two states, for any [gammaln]. *)
Lemma trainer_split_is_final (gammaln : R -> R) :
  train gammaln 2 (trainer_of rows_split (example_config 1 1 0))
  = Some (None, trainer_split, tape [])
  /\ train gammaln 2 (trainer_of rows_together (example_config 1 1 0))
     = Some (None, trainer_together, tape []).
Proof. split; vm_compute; reflexivity. Qed.

Lemma logprob_determined_by_suffstats_witness :
  logprob (fun _ => 0%R) trainer_split = logprob (fun _ => 0%R) trainer_together
  /\ exists x, logprob (fun _ => 0%R) trainer_split = inr x.
Proof.
  apply (logprob_determined_by_suffstats (fun _ => 0%R) trainer_split trainer_together);
    vm_compute; reflexivity.
Defined.

Lemma ln_quarter_eighth :
  (ln (Q2R (1 # 2)) + 0 + (ln (Q2R (1 # 2)) + 0 + 0)
   <> ln (Q2R (1 # 8)) + 0 + (ln (Q2R 1) + 0 + 0))%R.
Proof.
  assert (H2 : Q2R (1 # 2) = (/ 2)%R) by (unfold Q2R; simpl; lra).
  assert (H8 : Q2R (1 # 8) = (/ 8)%R) by (unfold Q2R; simpl; lra).
  assert (H1 : Q2R 1 = 1%R) by (unfold Q2R; simpl; lra).
  rewrite H2, H8, H1, ln_1.
  assert (Hm : (ln (/ 2) + ln (/ 2) = ln (/ 4))%R).
  { rewrite <- ln_mult by lra. f_equal. lra. }
  assert (Hlt : (ln (/ 8) < ln (/ 4))%R) by (apply ln_increasing; lra).
  lra.
Qed.

(** C3, the claim as stated, fails: the two final trainer states have the
    same tree and the same sufficient statistics, hence the same
    training-side [logprob()] for any [gammaln], while the per-row server
    logprobs sum to [ln(1/4)] for one and to [ln(1/8)] for the other. *)
Lemma logprob_agreement_fails :
  ~ exists gammaln : R -> R,
      logprob_agreement gammaln trainer_split (tape [])
      /\ logprob_agreement gammaln trainer_together (tape []).
Proof.
  intros (gammaln & HA & HB). unfold logprob_agreement in HA, HB.
  assert (Heq : logprob gammaln trainer_split = logprob gammaln trainer_together).
  { apply (logprob_congruence gammaln trainer_split trainer_together);
      vm_compute; reflexivity. }
  rewrite HA, HB in Heq. injection Heq as Heq.
  rewrite !server_total_logprob_terms in Heq.
  assert (HtA : server_total_terms trainer_split (tape []) = [[1 # 2]; [1 # 2]]%Q)
    by (vm_compute; reflexivity).
  assert (HtB : server_total_terms trainer_together (tape []) = [[1 # 8]; [1%Q]]%Q)
    by (vm_compute; reflexivity).
  rewrite HtA, HtB in Heq. simpl in Heq.
  apply ln_quarter_eighth. exact Heq.
Qed.


(** ** Queries that leave the posterior alone *)

Section SampleFrame.
Context `{Collaborators}.

Lemma with_observed_latent_same (s : TreeCatServer) :
  with_observed_latent s (observed_latent (_posterior s)) = s.
Proof. destruct s as [tr cfg [o ol l ll] sch zr vem]. reflexivity. Qed.

(** With no observed draw requested, the loop of the ['sample'] branch
    writes neither [feat_sample] nor the tables of the posterior. *)
Lemma sample_fold_zero_counts (M : nat) (tr : TreeStructure)
    (edge_probs : list (list (list Qc))) (counts : list Z) (schedule : list visit) :
  (forall v, nth v counts 0%Z = 0%Z) ->
  forall acc,
    (foldl (sample_visit M tr edge_probs counts) acc schedule).1.1.2 = acc.1.1.2
    /\ (foldl (sample_visit M tr edge_probs counts) acc schedule).1.2 = acc.1.2.
Proof.
  intros Hzero. induction schedule as [|[[v parent] children] schedule IH]; intros acc.
  - split; reflexivity.
  - change (foldl (sample_visit M tr edge_probs counts) acc
                   ((v, parent, children) :: schedule))
      with (foldl (sample_visit M tr edge_probs counts)
                  (sample_visit M tr edge_probs counts acc (v, parent, children))
                  schedule).
    destruct (IH (sample_visit M tr edge_probs counts acc (v, parent, children)))
      as [IHs IHp].
    rewrite IHs, IHp.
    destruct acc as [[[[messages vert_sample] feat_sample] feat_probs] rng].
    unfold sample_visit.
    destruct (sample_from_probs _ rng) as [k rng'].
    rewrite Hzero. simpl. split; reflexivity.
Qed.

(** [sample] with all the requested counts zero returns zero arrays and
    leaves the server as it found it. *)
Lemma server_sample_zero_counts (s : TreeCatServer) (cond_data : list (list Z))
    (counts : list Z) (rng : RNG) :
  (forall v, nth v counts 0%Z = 0%Z) ->
  (server_sample s cond_data counts rng).1.2 = s
  /\ ((exists e, (server_sample s cond_data counts rng).1.1 = Raise e)
      \/ (server_sample s cond_data counts rng).1.1
         = Sample (map (fun col => replicate (length col) 0%Z) cond_data)).
Proof.
  intros Hzero. unfold server_sample.
  destruct cond_data as [|col0 cond_data];
    [split; [reflexivity | left; eexists; reflexivity]|].
  destruct (shapes_match s (col0 :: cond_data) && (length counts =? server_V s)%nat);
    [|split; [reflexivity | left; eexists; reflexivity]].
  unfold _propagate.
  destruct (upward _ _ _ _ _ _ _) as [messages logprob].
  rewrite decide_False by discriminate. rewrite decide_True by reflexivity.
  match goal with |- context [foldl ?f ?acc ?l] =>
    pose proof (sample_fold_zero_counts (server_M s) (_tree s)
                  (latent_latent (_posterior s)) counts l Hzero acc) as [Hs Hp];
    destruct (foldl f acc l) as [[[[m' vs'] fs'] fp'] rng'] end.
  simpl in Hs, Hp. subst fs' fp'. simpl.
  split; [apply with_observed_latent_same | right; reflexivity].
Qed.

End SampleFrame.

Lemma server_sample_zero_counts_witness :
  (server_sample server_zero [[0; 0]]%Z [0%Z] (tape [])).1.2 = server_zero
  /\ ((exists e, (server_sample server_zero [[0; 0]]%Z [0%Z] (tape [])).1.1 = Raise e)
      \/ (server_sample server_zero [[0; 0]]%Z [0%Z] (tape [])).1.1
         = Sample (map (fun col => replicate (length col) 0%Z) [[0; 0]]%Z)).
Proof.
  apply (server_sample_zero_counts (H := path_collaborators) server_zero [[0; 0]]%Z
           [0%Z] (tape [])).
  intros [|[|v]]; reflexivity.
Defined.

(** ** The schedule on the trainer *)

Section TrainOnSchedule.
Context `{Collaborators}.

Lemma _update_tree_frame (t : TreeCatTrainer) :
  _assigned_rows (_update_tree t).2 = _assigned_rows t
  /\ tree (_update_tree t).2 = tree t
  /\ _VEKM (_update_tree t).2 = _VEKM t
  /\ assignments (_update_tree t).2 = assignments t.
Proof.
  unfold _update_tree. destruct (foldl _ _ _) as [[e|] es]; repeat split; reflexivity.
Qed.

(** [_update_tree] raises only on a column whose two vertices are the same. *)
Lemma _update_tree_no_error (t : TreeCatTrainer) :
  Forall (fun '(_, v1, v2) => v1 <> v2) (tree_grid (tree t)) ->
  (_update_tree t).1 = None.
Proof.
  intros Hgrid. unfold _update_tree.
  assert (Hfold : forall es : list (list (list Z)), exists es',
            foldl (fun '(err, es) '(e, v1, v2) =>
                     match err with
                     | Some _ => (err, es)
                     | None =>
                         match count_pairs (assigned_assignments t) v1 v2 (trainer_M t) with
                         | inl e' => (Some e', es)
                         | inr counts => (None, <[e := map (map wrap32) counts]> es)
                         end
                     end) (@None error, es) (tree_grid (tree t)) = (None, es')).
  { induction Hgrid as [|[[e v1] v2] grid Hne _ IH]; intros es.
    - exists es. reflexivity.
    - simpl. unfold count_pairs at 2.
      destruct (Nat.eqb_spec v1 v2) as [Heq|_]; [contradiction|]. apply IH. }
  destruct (Hfold (_edge_ss t)) as [es' ->]. reflexivity.
Qed.


End TrainOnSchedule.

(** ** More on the annealing schedule *)

Section ScheduleOutcome.
Variable config : Config.
Variable num_rows : nat.
Variable row_ids : list nat.
Hypothesis epochs_ge_1 : (1 <= learning_annealing_epochs config)%Q.
Hypothesis init_rows_nonneg : (0 <= learning_annealing_init_rows config)%Q.
Hypothesis row_ids_shuffled : row_ids ≡ₚ seq 0 num_rows.

(** A full turn of the cycle, from any cursor, names every row once. *)
Lemma full_window (r : nat) :
  map (cycle_at row_ids) (seq r num_rows) ≡ₚ seq 0 num_rows.
Proof.
  apply submseteq_length_Permutation; [|rewrite length_map, !length_seq; lia].
  apply NoDup_submseteq.
  - apply NoDup_alt. intros i j x Hi Hj.
    rewrite list_lookup_fmap in Hi, Hj.
    destruct (seq r num_rows !! i) as [a|] eqn:Ea; [|discriminate].
    destruct (seq r num_rows !! j) as [b|] eqn:Eb; [|discriminate].
    apply lookup_seq in Ea as [-> Hlti]. apply lookup_seq in Eb as [-> Hltj].
    simpl in Hi, Hj. injection Hi as Hi. injection Hj as Hj.
    destruct (Nat.lt_trichotomy i j) as [Hlt | [-> | Hgt]]; [|reflexivity|].
    + exfalso. apply (cycle_at_neq num_rows row_ids row_ids_shuffled (r + i) (r + j));
        [lia | lia | congruence].
    + exfalso. apply (cycle_at_neq num_rows row_ids row_ids_shuffled (r + j) (r + i));
        [lia | lia | congruence].
  - intros x Hx. apply list_elem_of_fmap in Hx as (i & -> & Hi).
    apply elem_of_seq in Hi.
    rewrite <- row_ids_shuffled. unfold cycle_at.
    assert (Hlen : length row_ids = num_rows)
      by (rewrite row_ids_shuffled; apply length_seq).
    apply list_elem_of_In, nth_In. rewrite Hlen.
    apply Nat.mod_upper_bound. lia.
Qed.

(** The loop leaves the assigned set equal to a full window. *)
Lemma annealing_loop_replay_window (fuel : nat) : forall (g : annealing) acts,
  annealing_inv config num_rows g ->
  annealing_loop config num_rows row_ids fuel g = Some acts ->
  replay (list_to_set (window row_ids g)) acts = Some (list_to_set (seq 0 num_rows)).
Proof.
  assert (Hexit : forall g, annealing_inv config num_rows g ->
            (num_fresh g + num_stale g)%Z = Z.of_nat num_rows ->
            (list_to_set (window row_ids g) : gset nat) = list_to_set (seq 0 num_rows)).
  { intros g (Hsum & _ & Hd & _) Heq. unfold window.
    replace (row_to_add g - row_to_remove g)%nat with num_rows by lia.
    apply set_eq. intros x. rewrite !elem_of_list_to_set.
    rewrite (full_window (row_to_remove g)). reflexivity. }
  induction fuel as [|fuel IH]; intros g acts Hinv Hrun; simpl in Hrun.
  - destruct (Z.eqb_spec (num_fresh g + num_stale g) (Z.of_nat num_rows)) as [Heq|Hne];
      [|discriminate].
    injection Hrun as <-. simpl. f_equal. apply Hexit; assumption.
  - destruct (Z.eqb_spec (num_fresh g + num_stale g) (Z.of_nat num_rows)) as [Heq|Hne].
    + injection Hrun as <-. simpl. f_equal. apply Hexit; assumption.
    + pose proof (annealing_step_inv config num_rows row_ids epochs_ge_1 init_rows_nonneg
                    g Hinv Hne) as Hinv'.
      pose proof (annealing_step_replay config num_rows row_ids epochs_ge_1
                    init_rows_nonneg row_ids_shuffled g Hinv Hne) as Hstep.
      destruct (annealing_step config row_ids g) as [acts1 g']. simpl in *.
      destruct (annealing_loop config num_rows row_ids fuel g') as [rest|] eqn:E;
        [|discriminate].
      injection Hrun as <-. rewrite replay_app, Hstep. simpl.
      apply (IH g' rest Hinv' E).
Qed.

End ScheduleOutcome.

(** The loop of the binary64 generator leaves the assigned set equal to a
    full window. *)
Lemma annealing_loop_float_replay_window (me : positive) (ee : Z) (sampling_tree : bool)
    (num_rows : nat) (row_ids : list nat) :
  bounded 53 1024 me ee = true ->
  (mag 4503599627370496 (-52) <= mag me ee)%Z ->
  row_ids ≡ₚ seq 0 num_rows ->
  forall (fuel : nat) (g : annealing_float) acts,
    annealing_inv_float (S754_finite false me ee) num_rows g ->
    annealing_loop_float (S754_finite false me ee) sampling_tree num_rows row_ids fuel g
    = Some acts ->
    replay (list_to_set (window_float row_ids g)) acts
    = Some (list_to_set (seq 0 num_rows)).
Proof.
  intros Hb Hmag Hperm.
  assert (Hexit : forall g, annealing_inv_float (S754_finite false me ee) num_rows g ->
            (f_num_fresh g + f_num_stale g)%Z = Z.of_nat num_rows ->
            (list_to_set (window_float row_ids g) : gset nat)
            = list_to_set (seq 0 num_rows)).
  { intros g (Hsum & Hd & _) Heq. unfold window_float.
    replace (f_row_to_add g - f_row_to_remove g)%nat with num_rows by lia.
    apply set_eq. intros x. rewrite !elem_of_list_to_set.
    rewrite (full_window num_rows row_ids Hperm (f_row_to_remove g)). reflexivity. }
  induction fuel as [|fuel IH]; intros g acts Hinv Hrun; simpl in Hrun.
  - destruct (Z.eqb_spec (f_num_fresh g + f_num_stale g) (Z.of_nat num_rows))
      as [Heq|Hne]; [|discriminate].
    injection Hrun as <-. simpl. f_equal. apply Hexit; assumption.
  - destruct (Z.eqb_spec (f_num_fresh g + f_num_stale g) (Z.of_nat num_rows))
      as [Heq|Hne].
    + injection Hrun as <-. simpl. f_equal. apply Hexit; assumption.
    + pose proof (annealing_step_float_inv me ee sampling_tree num_rows row_ids Hb Hmag
                    g Hinv Hne) as Hinv'.
      pose proof (annealing_step_float_replay me ee sampling_tree num_rows row_ids Hb
                    Hmag Hperm g Hinv Hne) as Hstep.
      destruct (annealing_step_float _ sampling_tree row_ids g) as [acts1 g'].
      simpl in *.
      destruct (annealing_loop_float _ sampling_tree num_rows row_ids fuel g')
        as [rest|] eqn:E; [|discriminate].
      injection Hrun as <-. rewrite replay_app, Hstep. simpl.
      apply (IH g' rest Hinv' E).
Qed.

(** For a finite epoch count of at least [1.0] and an initial-rows value
    that is not negative, the list of actions the generator returns,
    followed from the empty assigned set, leaves every row of the data
    assigned. *)
Theorem schedule_assigns_every_row (num_rows : nat) (epochs init_rows : spec_float)
    (steps : Z) (row_ids : list nat) (fuel : nat) (acts : list action) :
  valid_binary 53 1024 epochs = true ->
  SFleb float_one epochs = true ->
  SFltb epochs (S754_infinity false) = true ->
  float_ge0 init_rows = true ->
  row_ids ≡ₚ seq 0 num_rows ->
  get_annealing_schedule_float num_rows epochs init_rows steps row_ids fuel = Some acts ->
  replay ∅ acts = Some (list_to_set (seq 0 num_rows)).
Proof.
  intros Hvalid Hge1 Hfinite Hinit Hperm Hrun.
  destruct (epochs_ge_1_spec epochs Hvalid Hge1 Hfinite) as (me & ee & -> & Hb & Hmag).
  pose proof (annealing_init_float_inv me ee num_rows init_rows Hinit) as Hinv.
  apply (annealing_loop_float_replay_window me ee (0 <? steps)%Z num_rows row_ids
           Hb Hmag Hperm fuel _ acts Hinv Hrun).
Qed.

Lemma schedule_assigns_every_row_witness :
  replay ∅ [add_row_action 2; sample_tree_action; add_row_action 0;
            remove_row_action 2; sample_tree_action; add_row_action 1;
            add_row_action 2]%nat
  = Some (list_to_set (seq 0 3)).
Proof.
  apply (schedule_assigns_every_row 3 (S754_finite false 5404319552844595 (-51))
           (float_of_Z 1) 1 [2; 0; 1]%nat 6); try reflexivity.
  apply (Permutation_trans (l' := [0; 2; 1]%nat)); [apply perm_swap|].
  apply perm_skip, perm_swap.
Defined.

(** *** A single epoch *)

Section SinglePass.
Variable config : Config.
Variable num_rows : nat.
Variable row_ids : list nat.
Hypothesis epochs_1 : (learning_annealing_epochs config == 1)%Q.

Lemma single_pass_loop (fuel : nat) : forall g : annealing,
  (0 <= state g)%Q ->
  (num_fresh g + num_stale g = Z.of_nat (row_to_add g))%Z ->
  (row_to_add g <= num_rows)%nat ->
  (num_rows - row_to_add g <= fuel)%nat ->
  exists acts,
    annealing_loop config num_rows row_ids fuel g = Some acts
    /\ removed acts = []
    /\ length (added acts) = (num_rows - row_to_add g)%nat.
Proof.
  induction fuel as [|fuel IH]; intros g Hstate Hsum Hle Hfuel; simpl.
  - destruct (Z.eqb_spec (num_fresh g + num_stale g) (Z.of_nat num_rows)) as [Heq|Hne];
      [|lia].
    exists []. repeat split. simpl. lia.
  - destruct (Z.eqb_spec (num_fresh g + num_stale g) (Z.of_nat num_rows)) as [Heq|Hne].
    { exists []. repeat split. simpl. lia. }
    pose proof (annealing_step_spec config row_ids g) as Hspec.
    destruct (annealing_step config row_ids g) as [acts1 g'].
    destruct Hspec as [(_ & Ha & Hr & Hst & Hacts & Hfs) | (Hb & _)].
    + destruct (IH g') as (rest & -> & Hrem & Hadd).
      * rewrite Hst. rewrite epochs_1.
        apply Qle_trans with (state g); [exact Hstate|].
        apply Qle_minus_iff. ring_simplify. discriminate.
      * lia.
      * lia.
      * lia.
      * exists (acts1 ++ rest). split; [reflexivity|].
        rewrite removed_app, added_app, length_app, Hrem, Hadd, Ha.
        destruct Hacts as [-> | ->]; simpl; split; try reflexivity; lia.
    + apply Qle_bool_iff in Hstate. congruence.
Qed.

End SinglePass.

(** With [learning_annealing_epochs = 1] the schedule is a single pass over
    the data: it removes no row and adds the rows once each, in the order
    of the shuffle. *)
Theorem schedule_single_pass (num_rows : nat) (config : Config) (row_ids : list nat)
    (fuel : nat) :
  (learning_annealing_epochs config == 1)%Q ->
  (0 <= learning_annealing_init_rows config)%Q ->
  length row_ids = num_rows ->
  (num_rows <= fuel)%nat ->
  exists acts,
    get_annealing_schedule num_rows config row_ids fuel = Some acts
    /\ removed acts = []
    /\ added acts = row_ids.
Proof.
  intros Hepochs Hinit Hlen Hfuel.
  destruct (single_pass_loop config num_rows row_ids Hepochs fuel (annealing_init config))
    as (acts & Hrun & Hrem & Hadd).
  - simpl. rewrite Hepochs. rewrite Qmult_1_l. exact Hinit.
  - reflexivity.
  - simpl. lia.
  - simpl. lia.
  - exists acts. split; [exact Hrun|]. split; [exact Hrem|].
    destruct (annealing_loop_rows config num_rows row_ids fuel _ _ Hrun) as [Hrows _].
    rewrite Hrows, Hadd. simpl. rewrite Nat.sub_0_r.
    apply list_eq. intros i. rewrite list_lookup_fmap.
    destruct (decide (i < num_rows)%nat) as [Hi|Hi].
    + rewrite lookup_seq_lt by exact Hi. simpl. unfold cycle_at.
      rewrite Hlen, Nat.mod_small by exact Hi.
      symmetry.
      destruct (nth_lookup_or_length row_ids i 0%nat) as [E|E]; [exact E | lia].
    + rewrite lookup_seq_ge by lia. simpl. symmetry.
      apply lookup_ge_None. lia.
Qed.

Lemma schedule_single_pass_witness :
  exists acts,
    get_annealing_schedule 3 (example_config 2 1 1) [2; 0; 1]%nat 3 = Some acts
    /\ removed acts = []
    /\ added acts = [2; 0; 1]%nat.
Proof.
  apply (schedule_single_pass 3 (example_config 2 1 1) [2; 0; 1]%nat 3).
  - reflexivity.
  - vm_compute. discriminate.
  - reflexivity.
  - lia.
Defined.

(** *** Tree sampling switched off *)

Lemma annealing_loop_no_sampling (config : Config) (num_rows : nat) (row_ids : list nat)
    (fuel : nat) : forall (g : annealing) acts,
  (learning_sample_tree_steps config <= 0)%Z ->
  annealing_loop config num_rows row_ids fuel g = Some acts ->
  sample_tree_action ∉ acts.
Proof.
  induction fuel as [|fuel IH]; intros g acts Hsteps Hrun; simpl in Hrun.
  - destruct (num_fresh g + num_stale g =? Z.of_nat num_rows)%Z; [|discriminate].
    injection Hrun as <-. apply not_elem_of_nil.
  - destruct (num_fresh g + num_stale g =? Z.of_nat num_rows)%Z.
    { injection Hrun as <-. apply not_elem_of_nil. }
    destruct (annealing_step config row_ids g) as [acts1 g'] eqn:Hstep.
    destruct (annealing_loop config num_rows row_ids fuel g') as [rest|] eqn:E;
      [|discriminate].
    injection Hrun as <-.
    unfold annealing_step in Hstep.
    assert (Hoff : (0 <? learning_sample_tree_steps config)%Z = false)
      by (apply Z.ltb_ge; exact Hsteps).
    rewrite Hoff in Hstep. simpl in Hstep.
    rewrite elem_of_app. intros [Hin | Hin]; [|exact (IH g' rest Hsteps E Hin)].
    destruct (Qle_bool 0 (state g)); injection Hstep as <- <-;
      apply list_elem_of_singleton in Hin; discriminate.
Qed.

(** With [learning_sample_tree_steps] at zero (or below) the schedule never
    asks for a tree: every action adds or removes one row. *)
Theorem schedule_without_sampling (num_rows : nat) (config : Config)
    (row_ids : list nat) (fuel : nat) (acts : list action) :
  (learning_sample_tree_steps config <= 0)%Z ->
  get_annealing_schedule num_rows config row_ids fuel = Some acts ->
  (sample_tree_action ∉ acts)
  /\ Z.of_nat (length acts) = (count_adds acts + count_removes acts)%Z.
Proof.
  intros Hsteps Hrun.
  pose proof (annealing_loop_no_sampling config num_rows row_ids fuel _ _ Hsteps Hrun)
    as Hnone.
  split; [exact Hnone|].
  clear Hrun. induction acts as [|a acts IH]; [reflexivity|].
  rewrite count_adds_cons, count_removes_cons.
  rewrite not_elem_of_cons in Hnone. destruct Hnone as [Hne Hnone].
  specialize (IH Hnone). simpl length.
  destruct a; simpl; try lia. congruence.
Qed.

Lemma schedule_without_sampling_witness :
  (sample_tree_action ∉ [add_row_action 1; remove_row_action 1; add_row_action 0;
                        add_row_action 1]%nat)
  /\ Z.of_nat (length [add_row_action 1; remove_row_action 1; add_row_action 0;
                       add_row_action 1]%nat)
     = (count_adds [add_row_action 1; remove_row_action 1; add_row_action 0;
                    add_row_action 1]%nat
        + count_removes [add_row_action 1; remove_row_action 1; add_row_action 0;
                         add_row_action 1]%nat)%Z.
Proof.
  apply (schedule_without_sampling 2 (example_config 1 (3 # 2) 0) [1; 0]%nat 4).
  - vm_compute. discriminate.
  - vm_compute. reflexivity.
Defined.

(** ** count_pairs *)

Lemma Zsum_app (x y : list Z) : Zsum (x ++ y) = (Zsum x + Zsum y)%Z.
Proof. induction x as [|a x IH]; simpl; [reflexivity | rewrite IH; lia]. Qed.

Lemma Zsum_Permutation (x y : list Z) : x ≡ₚ y -> Zsum x = Zsum y.
Proof. induction 1; simpl; lia. Qed.

Lemma Zsum_concat (a : list (list Z)) : Zsum (map Zsum a) = Zsum (concat a).
Proof.
  induction a as [|row a IH]; simpl; [reflexivity|]. rewrite Zsum_app, IH. reflexivity.
Qed.

Lemma Zsum_map_add {A} (f g : A -> Z) (l : list A) :
  Zsum (map (fun x => (f x + g x)%Z) l) = (Zsum (map f l) + Zsum (map g l))%Z.
Proof. induction l as [|x l IH]; simpl; [reflexivity | rewrite IH; lia]. Qed.

Lemma Zsum_map_ext {A} (f g : A -> Z) (l : list A) :
  (forall x, x ∈ l -> f x = g x) -> Zsum (map f l) = Zsum (map g l).
Proof.
  induction l as [|x l IH]; intros Hext; simpl; [reflexivity|].
  rewrite (Hext x), IH; [reflexivity | | left].
  intros y Hy. apply Hext. right. exact Hy.
Qed.

(** One unit spread over the indices below [n] lands on exactly one. *)
Lemma Zsum_indicator (p n : nat) :
  (p < n)%nat ->
  Zsum (map (fun k => if (p =? k)%nat then 1%Z else 0%Z) (seq 0 n)) = 1%Z.
Proof.
  induction n as [|n IH]; intros Hp; [lia|].
  rewrite seq_S, map_app, Zsum_app. simpl.
  destruct (Nat.eqb_spec p n) as [->|Hne].
  - rewrite (Zsum_map_ext _ (fun _ => 0%Z)).
    + assert (Hz : forall l : list nat, Zsum (map (fun _ => 0%Z) l) = 0%Z)
        by (induction l; simpl; lia).
      rewrite Hz. reflexivity.
    + intros k Hk. apply elem_of_seq in Hk.
      destruct (Nat.eqb_spec n k); [lia | reflexivity].
  - rewrite IH by lia. reflexivity.
Qed.

(** [np.bincount] over bins that hold every value counts every value. *)
Lemma bincount_total (pairs : list nat) (n : nat) :
  Forall (fun p => (p < n)%nat) pairs ->
  Zsum (map (fun k => Z.of_nat (count_occ Nat.eq_dec pairs k)) (seq 0 n))
  = Z.of_nat (length pairs).
Proof.
  induction 1 as [|p pairs Hp _ IH].
  - simpl. induction (seq 0 n); simpl; lia.
  - rewrite (Zsum_map_ext _ (fun k => ((if (p =? k)%nat then 1 else 0)
                                      + Z.of_nat (count_occ Nat.eq_dec pairs k))%Z)).
    + rewrite Zsum_map_add, IH, Zsum_indicator by exact Hp. simpl length. lia.
    + intros k _. simpl. destruct (Nat.eq_dec p k) as [->|Hne].
      * rewrite Nat.eqb_refl. lia.
      * destruct (Nat.eqb_spec p k); [contradiction | lia].
Qed.

(** The [reshape((M, M))] of a vector of [N * M] entries, read row by row. *)
Lemma reshape_concat {A} (g : nat -> A) (M N : nat) :
  concat (map (fun i => map (fun j => g (i * M + j)%nat) (seq 0 M)) (seq 0 N))
  = map g (seq 0 (N * M)).
Proof.
  induction N as [|N IH]; [reflexivity|].
  rewrite seq_S, map_app, concat_app, IH. simpl.
  replace (M + N * M)%nat with (N * M + M)%nat by lia.
  rewrite seq_app, map_app, app_nil_r. f_equal. simpl.
  apply list_eq. intros k. rewrite !list_lookup_fmap.
  destruct (decide (k < M)%nat) as [Hk|Hk].
  - rewrite !lookup_seq_lt by exact Hk. reflexivity.
  - rewrite !lookup_seq_ge by lia. reflexivity.
Qed.

Lemma pair_decode (a b i j M : nat) :
  (b < M)%nat -> (j < M)%nat ->
  (a * M + b = i * M + j)%nat <-> a = i /\ b = j.
Proof.
  intros Hb Hj. split; [|intros [-> ->]; reflexivity].
  intros Heq.
  assert (Ha : ((a * M + b) / M = a)%nat)
    by (rewrite Nat.div_add_l by lia; rewrite Nat.div_small by lia; lia).
  assert (Hi : ((i * M + j) / M = i)%nat)
    by (rewrite Nat.div_add_l by lia; rewrite Nat.div_small by lia; lia).
  assert (Hai : a = i) by (rewrite <- Ha, Heq; exact Hi).
  subst a. split; [reflexivity | lia].
Qed.

(** A bin of [count_pairs] is the tally of one pair of clusters. *)
Lemma bincount_pair_count (rows : list (list nat)) (v1 v2 M i j : nat) :
  Forall (fun row => (nth v2 row 0 < M)%nat) rows -> (j < M)%nat ->
  Z.of_nat (count_occ Nat.eq_dec
              (map (fun row => (nth v1 row 0 * M + nth v2 row 0)%nat) rows)
              (i * M + j)%nat)
  = pair_count rows v1 v2 i j.
Proof.
  intros Hrows Hj. unfold pair_count.
  induction Hrows as [|row rows Hb _ IH]; [reflexivity|].
  simpl. rewrite <- IH.
  destruct (Nat.eq_dec (nth v1 row 0 * M + nth v2 row 0) (i * M + j)) as [Heq|Hne].
  - apply pair_decode in Heq as [-> ->]; [|assumption..].
    rewrite !Nat.eqb_refl. simpl. lia.
  - destruct (Nat.eqb_spec (nth v1 row 0) i) as [E1|E1];
      destruct (Nat.eqb_spec (nth v2 row 0) j) as [E2|E2]; simpl; lia.
Qed.

Lemma count_pairs_distinct (rows : list (list nat)) (v1 v2 M : nat) :
  v1 <> v2 ->
  count_pairs rows v1 v2 M
  = inr (map (fun i =>
                map (fun j =>
                       Z.of_nat (count_occ Nat.eq_dec
                                   (map (fun row => (nth v1 row 0 * M + nth v2 row 0)%nat) rows)
                                   (i * M + j)%nat))
                    (seq 0 M))
             (seq 0 M)).
Proof.
  intros Hne. unfold count_pairs.
  destruct (Nat.eqb_spec v1 v2); [contradiction | reflexivity].
Qed.

Lemma rows_in_range_nth (V M : nat) (rows : list (list nat)) (v : nat) :
  rows_in_range V M rows -> (v < V)%nat ->
  Forall (fun row => (nth v row 0 < M)%nat) rows.
Proof.
  intros Hrows Hv. eapply Forall_impl; [exact Hrows|].
  intros row [Hlen Hrange]. simpl.
  rewrite Forall_forall in Hrange. apply Hrange.
  apply list_elem_of_In, nth_In. lia.
Qed.

(** The cells of the table [count_pairs] returns. *)
Lemma count_pairs_cell (rows : list (list nat)) (v1 v2 V M : nat) :
  rows_in_range V M rows -> (v2 < V)%nat -> v1 <> v2 ->
  exists counts,
    count_pairs rows v1 v2 M = inr counts
    /\ length counts = M
    /\ Forall (fun r => length r = M) counts
    /\ forall i j, (i < M)%nat -> (j < M)%nat ->
         look2 counts i j = Some (pair_count rows v1 v2 i j).
Proof.
  intros Hrows Hv2 Hne. eexists. split; [apply count_pairs_distinct; exact Hne|].
  split; [rewrite length_map, length_seq; reflexivity|].
  split.
  - apply Forall_forall. intros r Hr. apply list_elem_of_fmap in Hr as (i & -> & _).
    rewrite length_map, length_seq. reflexivity.
  - intros i j Hi Hj. unfold look2.
    rewrite list_lookup_fmap, lookup_seq_lt by exact Hi. simpl.
    rewrite list_lookup_fmap, lookup_seq_lt by exact Hj. simpl.
    f_equal. apply bincount_pair_count; [|exact Hj].
    eapply rows_in_range_nth; eassumption.
Qed.

(** For two different columns of an assignment matrix with entries in
    [range(M)], [count_pairs] returns an [M x M] table whose cell [(i, j)]
    counts the rows with clusters [i] at [v1] and [j] at [v2]; the cells
    add up to the number of rows. *)
Theorem count_pairs_counts (rows : list (list nat)) (v1 v2 V M : nat) :
  rows_in_range V M rows -> (v1 < V)%nat -> (v2 < V)%nat -> v1 <> v2 ->
  exists counts,
    count_pairs rows v1 v2 M = inr counts
    /\ length counts = M
    /\ Forall (fun r => length r = M) counts
    /\ (forall i j, (i < M)%nat -> (j < M)%nat ->
          get2 counts i j = pair_count rows v1 v2 i j)
    /\ table_total counts = Z.of_nat (length rows).
Proof.
  intros Hrows Hv1 Hv2 Hne.
  destruct (count_pairs_cell rows v1 v2 V M Hrows Hv2 Hne)
    as (counts & Hcounts & Hlen & Hwidth & Hcell).
  exists counts. split; [exact Hcounts|]. split; [exact Hlen|]. split; [exact Hwidth|].
  split.
  - intros i j Hi Hj. rewrite get2_look2, (Hcell i j Hi Hj). reflexivity.
  - rewrite count_pairs_distinct in Hcounts by exact Hne.
    injection Hcounts as <-. unfold table_total.
    rewrite Zsum_concat.
    rewrite (reshape_concat
               (fun k => Z.of_nat (count_occ Nat.eq_dec
                          (map (fun row => (nth v1 row 0 * M + nth v2 row 0)%nat) rows) k))
               M M).
    rewrite bincount_total; [rewrite length_map; reflexivity|].
    apply Forall_forall. intros p Hp. apply list_elem_of_fmap in Hp as (row & -> & Hrow).
    pose proof (rows_in_range_nth V M rows v1 Hrows Hv1) as H1.
    pose proof (rows_in_range_nth V M rows v2 Hrows Hv2) as H2.
    rewrite Forall_forall in H1, H2. specialize (H1 row Hrow). specialize (H2 row Hrow).
    simpl in H1, H2. nia.
Qed.

Lemma count_pairs_counts_witness :
  exists counts,
    count_pairs [[0; 1]; [1; 1]; [0; 1]]%nat 0 1 2 = inr counts
    /\ length counts = 2%nat
    /\ Forall (fun r => length r = 2%nat) counts
    /\ (forall i j, (i < 2)%nat -> (j < 2)%nat ->
          get2 counts i j = pair_count [[0; 1]; [1; 1]; [0; 1]]%nat 0 1 i j)
    /\ table_total counts = Z.of_nat (length [[0; 1]; [1; 1]; [0; 1]]%nat).
Proof.
  apply (count_pairs_counts [[0; 1]; [1; 1]; [0; 1]]%nat 0 1 2 2).
  - repeat constructor.
  - lia.
  - lia.
  - discriminate.
Defined.

Lemma pair_count_swap (rows : list (list nat)) (v1 v2 i j : nat) :
  pair_count rows v2 v1 j i = pair_count rows v1 v2 i j.
Proof.
  unfold pair_count. apply Zsum_map_ext. intros row _.
  rewrite andb_comm. reflexivity.
Qed.

(** Exchanging the two columns transposes the table of [count_pairs]. *)
Theorem count_pairs_swap (rows : list (list nat)) (v1 v2 V M : nat) :
  rows_in_range V M rows -> (v1 < V)%nat -> (v2 < V)%nat -> v1 <> v2 ->
  exists counts counts',
    count_pairs rows v1 v2 M = inr counts
    /\ count_pairs rows v2 v1 M = inr counts'
    /\ forall i j, (i < M)%nat -> (j < M)%nat -> get2 counts' j i = get2 counts i j.
Proof.
  intros Hrows Hv1 Hv2 Hne.
  destruct (count_pairs_cell rows v1 v2 V M Hrows Hv2 Hne) as (c & Hc & _ & _ & Hcell).
  destruct (count_pairs_cell rows v2 v1 V M Hrows Hv1 (not_eq_sym Hne))
    as (c' & Hc' & _ & _ & Hcell').
  exists c, c'. split; [exact Hc|]. split; [exact Hc'|].
  intros i j Hi Hj.
  rewrite !get2_look2, (Hcell i j Hi Hj), (Hcell' j i Hj Hi). simpl.
  apply pair_count_swap.
Qed.

Lemma count_pairs_swap_witness :
  exists counts counts',
    count_pairs [[0; 1]; [1; 1]; [0; 1]]%nat 0 1 2 = inr counts
    /\ count_pairs [[0; 1]; [1; 1]; [0; 1]]%nat 1 0 2 = inr counts'
    /\ forall i j, (i < 2)%nat -> (j < 2)%nat -> get2 counts' j i = get2 counts i j.
Proof.
  apply (count_pairs_swap [[0; 1]; [1; 1]; [0; 1]]%nat 0 1 2 2).
  - repeat constructor.
  - lia.
  - lia.
  - discriminate.
Defined.

(** ** The statistics as tallies of the assigned rows *)

Lemma wrap32_add_l (x d : Z) : wrap32 (wrap32 x + d) = wrap32 (x + d).
Proof.
  unfold wrap32.
  replace ((x + 2147483648) mod 4294967296 - 2147483648 + d + 2147483648)%Z
    with ((x + 2147483648) mod 4294967296 + d)%Z by lia.
  rewrite Zplus_mod_idemp_l. f_equal. f_equal. lia.
Qed.

Lemma tally_add (assignments : list (list nat)) (rows : gset nat) (row_id : nat)
    (a : list nat) (w : list nat -> nat -> Z) :
  row_id ∉ rows -> (row_id < length assignments)%nat ->
  tally (<[row_id := a]> assignments) ({[row_id]} ∪ rows) w
  = (w a row_id + tally assignments rows w)%Z.
Proof.
  intros Hnot Hlt. unfold tally.
  rewrite (Zsum_Permutation _ (map (fun r => w (nth r (<[row_id := a]> assignments) []) r)
                                   (row_id :: elements rows))).
  - simpl. f_equal.
    + rewrite nth_lookup, list_lookup_insert_eq by exact Hlt. reflexivity.
    + apply Zsum_map_ext. intros r Hr. apply elem_of_elements in Hr.
      rewrite !nth_lookup, list_lookup_insert_ne by (intros ->; contradiction).
      reflexivity.
  - apply Permutation_map. apply elements_union_singleton. exact Hnot.
Qed.

Lemma tally_other_rows (assignments : list (list nat)) (rows : gset nat) (row_id : nat)
    (a : list nat) (w : list nat -> nat -> Z) :
  row_id ∉ rows ->
  tally (<[row_id := a]> assignments) rows w = tally assignments rows w.
Proof.
  intros Hnot. unfold tally. apply Zsum_map_ext. intros r Hr.
  apply elem_of_elements in Hr.
  rewrite !nth_lookup, list_lookup_insert_ne by (intros ->; contradiction).
  reflexivity.
Qed.

Lemma tally_add_row (assignments : list (list nat)) (rows : gset nat) (row_id : nat)
    (w : list nat -> nat -> Z) :
  row_id ∉ rows ->
  tally assignments ({[row_id]} ∪ rows) w
  = (w (nth row_id assignments []) row_id + tally assignments rows w)%Z.
Proof.
  intros Hnot. unfold tally.
  rewrite (Zsum_Permutation _ (map (fun r => w (nth r assignments []) r)
                                   (row_id :: elements rows))); [reflexivity|].
  apply Permutation_map. apply elements_union_singleton. exact Hnot.
Qed.

Lemma tally_remove_row (assignments : list (list nat)) (rows : gset nat) (row_id : nat)
    (w : list nat -> nat -> Z) :
  row_id ∈ rows ->
  tally assignments (rows ∖ {[row_id]}) w
  = (tally assignments rows w + -1 * w (nth row_id assignments []) row_id)%Z.
Proof.
  intros Hin.
  assert (Hsplit : rows = {[row_id]} ∪ rows ∖ {[row_id]})
    by (apply union_difference_singleton_L; exact Hin).
  rewrite Hsplit at 2. rewrite tally_add_row by set_solver. lia.
Qed.

Lemma exact_vert_count_tally (assignments : list (list nat)) (rows : gset nat) (v m : nat) :
  exact_vert_count assignments (elements rows) v m
  = tally assignments rows (vert_weight v m).
Proof. reflexivity. Qed.

Lemma exact_edge_count_tally (assignments : list (list nat)) (rows : gset nat)
    (v1 v2 i j : nat) :
  exact_edge_count assignments (elements rows) v1 v2 i j
  = tally assignments rows (edge_weight v1 v2 i j).
Proof.
  unfold exact_edge_count, pair_count, tally. rewrite map_map. reflexivity.
Qed.

Lemma exact_feat_count_tally (data : list (list (list Z))) (assignments : list (list nat))
    (rows : gset nat) (v c m : nat) :
  exact_feat_count data assignments (elements rows) v c m
  = tally assignments rows (feat_weight data v c m).
Proof. reflexivity. Qed.

(** *** The cells [_update_tensors] writes *)

Lemma elem_of_zip_seq {A} (n : nat) (a : list A) (v : nat) (m : A) :
  (v, m) ∈ zip (seq 0 n) a <-> (v < n)%nat /\ a !! v = Some m.
Proof.
  rewrite list_elem_of_lookup. split.
  - intros [k Hk]. apply lookup_zip_with_Some in Hk as (v' & m' & Heq & Hv & Hm).
    injection Heq as -> ->. apply lookup_seq in Hv as [-> Hlt]. simpl. split; assumption.
  - intros [Hlt Hm]. exists v. apply lookup_zip_with_Some.
    exists v, m. split; [reflexivity|]. split; [|exact Hm].
    apply lookup_seq. split; [reflexivity | exact Hlt].
Qed.

Lemma grid_functional (grid : list (nat * nat * nat)) (e v1 v2 v1' v2' : nat) :
  NoDup (map (fun '(e, _, _) => e) grid) ->
  (e, v1, v2) ∈ grid -> (e, v1', v2') ∈ grid -> v1 = v1' /\ v2 = v2'.
Proof.
  induction grid as [|[[e0 a] b] grid IH]; intros Hnd H1 H2.
  - apply elem_of_nil in H1. contradiction.
  - simpl in Hnd. apply NoDup_cons in Hnd as [Hnot Hnd].
    assert (Hfresh : forall x y, (e0, x, y) ∈ grid -> False).
    { intros x y Hin. apply Hnot. apply list_elem_of_fmap.
      exists (e0, x, y). split; [reflexivity | exact Hin]. }
    apply elem_of_cons in H1 as [H1|H1]; apply elem_of_cons in H2 as [H2|H2].
    + injection H1 as -> -> ->. injection H2 as -> ->. split; reflexivity.
    + injection H1 as -> -> ->. exfalso. eapply Hfresh; eassumption.
    + injection H2 as -> -> ->. exfalso. eapply Hfresh; eassumption.
    + apply IH; assumption.
Qed.

Section UpdateTensors.
Variable t : TreeCatTrainer.
Variable row_id : nat.
Variable diff : Z.

Local Abbreviation a := (nth row_id (assignments t) []).

Lemma _update_tensors_frame :
  assignments (_update_tensors t row_id diff) = assignments t
  /\ _assigned_rows (_update_tensors t row_id diff) = _assigned_rows t
  /\ _data (_update_tensors t row_id diff) = _data t
  /\ tree (_update_tensors t row_id diff) = tree t
  /\ _VEKM (_update_tensors t row_id diff) = _VEKM t
  /\ _config (_update_tensors t row_id diff) = _config t
  /\ _schedule (_update_tensors t row_id diff) = _schedule t.
Proof. repeat split. Qed.

Lemma _update_tensors_vert_cell (v m : nat) (z : Z) :
  vertices (tree t) = seq 0 (length (_vert_ss t)) ->
  length a = length (_vert_ss t) ->
  look2 (_vert_ss (_update_tensors t row_id diff)) v m = Some z ->
  exists z0, look2 (_vert_ss t) v m = Some z0
             /\ z = if (nth v a 0 =? m)%nat then wrap32 (z0 + diff) else z0.
Proof.
  intros Hvert Hlen. unfold _update_tensors. simpl. unfold iadd_at2.
  rewrite (look2_scatter (fun i j => wrap32 (get2 (_vert_ss t) i j + diff))).
  rewrite Hvert.
  destruct (look2 (_vert_ss t) v m) as [z0|] eqn:Ez0;
    [|destruct (decide _); simpl; discriminate].
  assert (Hv : (v < length (_vert_ss t))%nat).
  { unfold look2 in Ez0. destruct (_vert_ss t !! v) as [row|] eqn:Erow; [|discriminate].
    apply lookup_lt_Some in Erow. exact Erow. }
  assert (Hnth : a !! v = Some (nth v a 0%nat)).
  { destruct (nth_lookup_or_length a v 0%nat) as [E|E]; [exact E | lia]. }
  exists z0. split; [reflexivity|].
  destruct (decide ((v, m) ∈ zip (seq 0 (length (_vert_ss t))) a)) as [Hin|Hout];
    simpl in H; injection H as <-.
  - apply elem_of_zip_seq in Hin as [_ Hm]. rewrite Hnth in Hm. injection Hm as ->.
    rewrite Nat.eqb_refl, get2_look2, Ez0. reflexivity.
  - destruct (Nat.eqb_spec (nth v a 0%nat) m) as [<-|Hne]; [|reflexivity].
    exfalso. apply Hout. apply elem_of_zip_seq. split; assumption.
Qed.

Lemma _update_tensors_edge_cell (e v1 v2 i j : nat) (z : Z) :
  NoDup (map (fun '(e, _, _) => e) (tree_grid (tree t))) ->
  (e, v1, v2) ∈ tree_grid (tree t) ->
  look3 (_edge_ss (_update_tensors t row_id diff)) e i j = Some z ->
  exists z0, look3 (_edge_ss t) e i j = Some z0
             /\ z = if (nth v1 a 0 =? i)%nat && (nth v2 a 0 =? j)%nat
                    then wrap32 (z0 + diff) else z0.
Proof.
  intros Hnd Hedge. unfold _update_tensors. simpl. unfold iadd_at3.
  rewrite (look3_scatter (fun e i j => wrap32 (get3 (_edge_ss t) e i j + diff))).
  destruct (look3 (_edge_ss t) e i j) as [z0|] eqn:Ez0;
    [|destruct (decide _); simpl; discriminate].
  exists z0. split; [reflexivity|].
  match goal with H : context [decide ?P] |- _ => destruct (decide P) as [Hin|Hout] end;
    simpl in H; injection H as <-.
  - apply list_elem_of_fmap in Hin as ([[e' v1'] v2'] & Heq & Hin).
    injection Heq as -> -> ->.
    destruct (grid_functional _ _ _ _ _ _ Hnd Hedge Hin) as [-> ->].
    rewrite !Nat.eqb_refl, get3_look3, Ez0. reflexivity.
  - destruct (Nat.eqb_spec (nth v1 a 0%nat) i) as [<-|Hne]; [|reflexivity].
    destruct (Nat.eqb_spec (nth v2 a 0%nat) j) as [<-|Hne]; [|reflexivity].
    exfalso. apply Hout. apply list_elem_of_fmap.
    exists (e, v1, v2). split; [reflexivity | exact Hedge].
Qed.

Lemma _update_tensors_feat_cell (v c m : nat) (z : Z) :
  length (_data t) = length (_feat_ss t) ->
  look3 (_feat_ss (_update_tensors t row_id diff)) v c m = Some z ->
  exists z0, look3 (_feat_ss t) v c m = Some z0
             /\ z = if (nth v a 0 =? m)%nat
                    then wrap32 (z0 + wrap8 (diff * nth c (nth row_id (nth v (_data t) []) []) 0))%Z
                    else z0.
Proof.
  intros Hlen. unfold _update_tensors. simpl. unfold look3 at 1.
  rewrite feat_update_lookup.
  destruct (_feat_ss t !! v) as [table|] eqn:Et; simpl; [|discriminate].
  destruct (_data t !! v) as [column|] eqn:Ec.
  2:{ apply lookup_ge_None in Ec. apply lookup_lt_Some in Et. lia. }
  unfold look3. rewrite Et. simpl.
  unfold look2, iadd_column. rewrite list_lookup_imap.
  destruct (table !! c) as [row|] eqn:Erow; simpl; [|discriminate].
  rewrite (nth_lookup (_data t) v), Ec. simpl.
  destruct (Nat.eqb_spec (nth v a 0%nat) m) as [<-|Hne].
  - rewrite list_lookup_alter_eq.
    destruct (row !! nth v a 0%nat) as [z0|]; simpl; [|discriminate].
    intros Hz. injection Hz as <-. exists z0. split; [reflexivity|].
    f_equal. f_equal.
    rewrite (nth_lookup (map _ _)), list_lookup_fmap, (nth_lookup (nth row_id column [])).
    destruct (nth row_id column [] !! c); simpl; [reflexivity|].
    rewrite Z.mul_0_r. reflexivity.
  - rewrite list_lookup_alter_ne by exact Hne.
    intros Hz. exists z. split; [exact Hz | reflexivity].
Qed.

End UpdateTensors.

(** *** Shapes under [_update_tensors] *)

Lemma same_shape2_width (M : nat) (a b : list (list Z)) :
  same_shape2 a b -> Forall (fun row => length row = M) a ->
  Forall (fun row => length row = M) b.
Proof.
  induction 1 as [|r1 r2 a b Hr _ IH]; intros Ha; [constructor|].
  apply Forall_cons in Ha as [H1 Ha]. constructor; [congruence | apply IH; exact Ha].
Qed.

Lemma same_shape3_width (M : nat) (a b : list (list (list Z))) :
  same_shape3 a b ->
  Forall (fun mat => length mat = M /\ Forall (fun row => length row = M) mat) a ->
  Forall (fun mat => length mat = M /\ Forall (fun row => length row = M) mat) b.
Proof.
  induction 1 as [|m1 m2 a b Hm _ IH]; intros Ha; [constructor|].
  apply Forall_cons in Ha as [[Hl Hw] Ha]. constructor; [|apply IH; exact Ha].
  split.
  - rewrite <- (Forall2_length _ _ _ Hm). exact Hl.
  - eapply same_shape2_width; eassumption.
Qed.

Lemma iadd_column_width (M : nat) (table : list (list Z)) (m : nat) (xs : list Z) :
  Forall (fun row => length row = M) table ->
  Forall (fun row => length row = M) (iadd_column table m xs).
Proof.
  intros Ht. apply Forall_lookup_2. intros c row Hrow.
  unfold iadd_column in Hrow. rewrite list_lookup_imap in Hrow.
  destruct (table !! c) as [row0|] eqn:E; [|discriminate].
  simpl in Hrow. injection Hrow as <-. rewrite length_alter.
  eapply Forall_lookup_1 in Ht; eassumption.
Qed.

Lemma feat_update_length (F : nat -> list (list Z) -> list (list Z) -> list (list Z))
    (pairs : list (nat * list (list Z))) : forall fs : list (list (list Z)),
  length (foldl (fun fs '(v, column) => alter (F v column) v fs) fs pairs) = length fs.
Proof.
  induction pairs as [|[v column] pairs IH]; intros fs; simpl; [reflexivity|].
  rewrite IH. apply length_alter.
Qed.

Section UpdateTensorsShape.
Variable t : TreeCatTrainer.
Variable row_id : nat.
Variable diff : Z.

Lemma _update_tensors_shaped :
  trainer_shaped t -> trainer_shaped (_update_tensors t row_id diff).
Proof.
  unfold trainer_shaped, trainer_V, trainer_E, trainer_M, trainer_K.
  change (_VEKM (_update_tensors t row_id diff)) with (_VEKM t).
  change (tree (_update_tensors t row_id diff)) with (tree t).
  change (_data (_update_tensors t row_id diff)) with (_data t).
  change (assignments (_update_tensors t row_id diff)) with (assignments t).
  change (_assigned_rows (_update_tensors t row_id diff)) with (_assigned_rows t).
  destruct (_VEKM t) as [[[V E] K] M].
  intros (HM & HV & HE & Htree & Hvl & Hvw & Hel & Hew & Hfl & Hfw & Hdl & Hdc & Hrows & Has).
  assert (Hv2 : same_shape2 (_vert_ss t) (_vert_ss (_update_tensors t row_id diff)))
    by apply (same_shape2_scatter (fun i j => wrap32 (get2 (_vert_ss t) i j + diff))).
  assert (He3 : same_shape3 (_edge_ss t) (_edge_ss (_update_tensors t row_id diff)))
    by apply (same_shape3_scatter (fun e i j => wrap32 (get3 (_edge_ss t) e i j + diff))).
  refine (conj HM (conj HV (conj HE (conj Htree (conj _ (conj _ (conj _ (conj _
            (conj _ (conj _ (conj Hdl (conj Hdc (conj Hrows Has))))))))))))).
  - rewrite <- (Forall2_length _ _ _ Hv2). exact Hvl.
  - eapply same_shape2_width; eassumption.
  - rewrite <- (Forall2_length _ _ _ He3). exact Hel.
  - eapply same_shape3_width; eassumption.
  - unfold _update_tensors. simpl. rewrite feat_update_length. exact Hfl.
  - apply Forall_lookup_2. intros v table Htable.
    unfold _update_tensors in Htable. simpl in Htable.
    rewrite feat_update_lookup in Htable.
    destruct (_feat_ss t !! v) as [table0|] eqn:E0; [|discriminate].
    simpl in Htable. injection Htable as <-.
    eapply Forall_lookup_1 in Hfw; [|exact E0].
    destruct (_data t !! v); [apply iadd_column_width|]; exact Hfw.
Qed.

End UpdateTensorsShape.

(** *** Tallies under [_update_tensors] *)

Lemma data_cell_range (data : list (list (list Z))) (v row_id c : nat) :
  Forall (Forall (Forall (fun x => (0 <= x <= 127)%Z))) data ->
  (0 <= nth c (nth row_id (nth v data []) []) 0 <= 127)%Z.
Proof.
  intros Hdata. rewrite !nth_lookup.
  destruct (data !! v) as [column|] eqn:Ev; simpl; [|lia].
  eapply Forall_lookup_1 in Hdata; [|exact Ev].
  destruct (column !! row_id) as [row|] eqn:Er; simpl; [|lia].
  eapply Forall_lookup_1 in Hdata; [|exact Er].
  destruct (row !! c) as [x|] eqn:Ec; simpl; [|lia].
  eapply Forall_lookup_1 in Hdata; [|exact Ec]. exact Hdata.
Qed.

Lemma _update_tensors_match (t : TreeCatTrainer) (row_id : nat) (diff : Z)
    (rows rows' : gset nat) :
  diff = 1%Z \/ diff = (-1)%Z ->
  trainer_shaped t ->
  (row_id < length (assignments t))%nat ->
  stats_match t rows ->
  (forall w, tally (assignments t) rows' w
             = (tally (assignments t) rows w
                + diff * w (nth row_id (assignments t) []) row_id)%Z) ->
  stats_match (_update_tensors t row_id diff) rows'.
Proof.
  intros Hdiff Hshaped Hrow (Hvert & Hedge & Hfeat) Htally.
  unfold trainer_shaped, trainer_V, trainer_E, trainer_M, trainer_K in Hshaped.
  destruct (_VEKM t) as [[[V E] K] M].
  destruct Hshaped
    as (HM & HV & HE & (Hvs & _ & Hnd & _) & Hvl & _ & _ & _ & Hfl & _ & Hdl & Hdc & Hrows & _).
  assert (Hlen : length (nth row_id (assignments t) []) = V).
  { destruct (nth_lookup_or_length (assignments t) row_id []) as [E0|E0]; [|lia].
    eapply Forall_lookup_1 in Hrows; [|exact E0]. tauto. }
  unfold stats_match.
  change (tree (_update_tensors t row_id diff)) with (tree t).
  change (_data (_update_tensors t row_id diff)) with (_data t).
  change (assignments (_update_tensors t row_id diff)) with (assignments t).
  split; [|split].
  - intros v m z Hz.
    apply _update_tensors_vert_cell in Hz as (z0 & Hz0 & ->); [| congruence | congruence].
    rewrite exact_vert_count_tally, Htally, <- exact_vert_count_tally.
    rewrite (Hvert v m z0 Hz0). unfold vert_weight.
    destruct (nth v (nth row_id (assignments t) []) 0 =? m)%nat.
    + rewrite wrap32_add_l. f_equal. lia.
    + f_equal. lia.
  - intros e v1 v2 i j z Hin Hz.
    apply (_update_tensors_edge_cell t row_id diff e v1 v2) in Hz as (z0 & Hz0 & ->);
      [| exact Hnd | exact Hin].
    rewrite exact_edge_count_tally, Htally, <- exact_edge_count_tally.
    rewrite (Hedge e v1 v2 i j z0 Hin Hz0). unfold edge_weight.
    destruct ((nth v1 (nth row_id (assignments t) []) 0 =? i)%nat
              && (nth v2 (nth row_id (assignments t) []) 0 =? j)%nat).
    + rewrite wrap32_add_l. f_equal. lia.
    + f_equal. lia.
  - intros v c m z Hz.
    apply _update_tensors_feat_cell in Hz as (z0 & Hz0 & ->); [| congruence].
    rewrite exact_feat_count_tally, Htally, <- exact_feat_count_tally.
    rewrite (Hfeat v c m z0 Hz0). unfold feat_weight.
    pose proof (data_cell_range (_data t) v row_id c Hdc) as Hcell.
    destruct (nth v (nth row_id (assignments t) []) 0 =? m)%nat.
    + rewrite wrap32_add_l. f_equal. f_equal. unfold wrap8.
      destruct Hdiff as [-> | ->]; rewrite Z.mod_small; lia.
    + f_equal. lia.
Qed.

(** *** The clusters [add_row] draws *)

Lemma vmul_length_le (x y : list Qc) : (length (vmul x y) <= length x)%nat.
Proof. unfold vmul. rewrite length_zip_with. lia. Qed.

Lemma vdiv_length_le (x y : list Qc) : (length (vdiv x y) <= length x)%nat.
Proof. unfold vdiv. rewrite length_zip_with. lia. Qed.

Lemma vscale_div_length (x : list Qc) (c : Qc) : length (vscale_div x c) = length x.
Proof. unfold vscale_div. apply length_map. Qed.

Lemma nth_length_le {A} (M : nat) (rows : list (list A)) (v : nat) :
  Forall (fun r => (length r <= M)%nat) rows -> (length (nth v rows []) <= M)%nat.
Proof.
  intros Hrows. rewrite nth_lookup.
  destruct (rows !! v) as [r|] eqn:E; simpl; [|lia].
  eapply Forall_lookup_1 in Hrows; [|exact E]. exact Hrows.
Qed.

Lemma fold_units_message_length (units : list nat) : forall message obs_lat lat,
  (length (fold_units units (message, obs_lat, lat)).1.1 <= length message)%nat.
Proof.
  induction units as [|c units IH]; intros message obs_lat lat; simpl; [lia|].
  unfold fold_units in *. simpl.
  etransitivity; [apply IH | apply vmul_length_le].
Qed.

Lemma child_fold_short (M : nat) (tr : TreeStructure) (edge_probs : list (list (list Qc)))
    (vert_probs : list (list Qc)) (v : nat) (acc : list (list Qc) * list Qc) (child : nat) :
  Forall (fun r => (length r <= M)%nat) acc.1 ->
  Forall (fun r => (length r <= M)%nat)
         (child_fold M tr edge_probs vert_probs v acc child).1.
Proof.
  destruct acc as [messages sums]. simpl. intros Hshort.
  apply Forall_insert; [exact Hshort|].
  rewrite vscale_div_length.
  etransitivity; [apply vdiv_length_le|].
  etransitivity; [apply vmul_length_le|].
  apply nth_length_le. exact Hshort.
Qed.

Lemma upward_visit_short (M : nat) (tr : TreeStructure)
    (feat_table : nat -> list (list Qc)) (data_row : nat -> list Z)
    (edge_probs : list (list (list Qc))) (vert_probs : list (list Qc))
    (acc : list (list Qc) * list Qc) (s : visit) :
  Forall (fun r => (length r <= M)%nat) acc.1 ->
  Forall (fun r => (length r <= M)%nat)
         (upward_visit M tr feat_table data_row edge_probs vert_probs acc s).1.
Proof.
  destruct acc as [messages sums]. destruct s as [[v parent] children].
  simpl. intros Hshort.
  pose proof (fold_units_message_length (units_of (data_row v)) (nth v messages [])
                (feat_table v) (sum_axis0 M (feat_table v))) as Hlen.
  unfold fold_in.
  destruct (fold_units _ _) as [[message obs_lat] lat]. simpl in Hlen.
  assert (Hstart : Forall (fun r => (length r <= M)%nat)
                          (<[v := message]> messages, sums).1).
  { simpl. apply Forall_insert; [exact Hshort|].
    etransitivity; [exact Hlen | apply nth_length_le; exact Hshort]. }
  revert Hstart. generalize (<[v := message]> messages, sums).
  induction children as [|child children IH]; intros acc Hacc; simpl; [exact Hacc|].
  apply IH. apply child_fold_short. exact Hacc.
Qed.

Lemma upward_short (M : nat) (tr : TreeStructure) (schedule : list visit)
    (feat_table : nat -> list (list Qc)) (data_row : nat -> list Z)
    (edge_probs : list (list (list Qc))) (vert_probs : list (list Qc)) :
  Forall (fun r => (length r <= M)%nat) vert_probs ->
  Forall (fun r => (length r <= M)%nat)
         (upward M tr schedule feat_table data_row edge_probs vert_probs).1.
Proof.
  intros Hshort. unfold upward.
  assert (Hstart : Forall (fun r => (length r <= M)%nat)
                          (vert_probs, @nil Qc).1) by exact Hshort.
  revert Hstart. generalize (vert_probs, @nil Qc).
  induction (reverse schedule) as [|s rest IH]; intros acc Hacc; simpl; [exact Hacc|].
  apply IH. apply upward_visit_short. exact Hacc.
Qed.

Lemma plus_prior_width (M : nat) (prior : Qc) (ss : list (list Z)) :
  Forall (fun row => length row = M) ss ->
  Forall (fun r => (length r <= M)%nat) (plus_prior prior ss).
Proof.
  intros Hss. unfold plus_prior. apply Forall_fmap.
  eapply Forall_impl; [exact Hss|]. intros row Hrow. simpl in *.
  rewrite length_map. lia.
Qed.

Section Operations.
Context `{Collaborators}.

Lemma downward_draws (M : nat) (tr : TreeStructure) (edge_probs : list (list (list Qc)))
    (vert_probs : list (list Qc)) (schedule : list visit) :
  draws_in_range M ->
  forall acc : list (list Qc) * list nat * RNG,
    Forall (fun r => (length r <= M)%nat) acc.1.1 ->
    Forall (fun k => (k < M)%nat) acc.1.2 ->
    let acc' := foldl (add_row_downward_visit M tr edge_probs vert_probs) acc schedule in
    length acc'.1.2 = length acc.1.2 /\ Forall (fun k => (k < M)%nat) acc'.1.2.
Proof.
  intros Hdraws.
  induction schedule as [|[[v parent] children] schedule IH]; intros acc Hshort Hrange;
    simpl; [split; [reflexivity | exact Hrange]|].
  destruct acc as [[messages a] rng]. simpl in Hshort, Hrange.
  unfold add_row_downward_visit at 2.
  set (message := vscale_div _ _).
  assert (Hmessage : (length message <= M)%nat).
  { subst message. rewrite vscale_div_length.
    destruct parent as [p|]; [|apply nth_length_le; exact Hshort].
    etransitivity; [apply vdiv_length_le|].
    etransitivity; [apply vmul_length_le|].
    apply nth_length_le. exact Hshort. }
  pose proof (Hdraws message rng Hmessage) as Hk.
  destruct (sample_from_probs message rng) as [k rng']. simpl in Hk.
  destruct (IH (<[v := message]> messages, <[v := k]> a, rng')) as [Hlen Hall].
  - simpl. apply Forall_insert; assumption.
  - simpl. apply Forall_insert; assumption.
  - simpl in Hlen. rewrite length_insert in Hlen. split; assumption.
Qed.

(** [add_row] on a row that is not assigned, with the row it draws. *)
Lemma add_row_drawn (t : TreeCatTrainer) (row_id : nat) (rng : RNG) :
  trainer_shaped t -> draws_in_range (trainer_M t) ->
  row_id ∉ _assigned_rows t ->
  (row_id < length (assignments t))%nat ->
  exists a rng',
    add_row t row_id rng
    = (None,
       _update_tensors
         (with_assigned (with_assignments t (<[row_id := a]> (assignments t)))
                        ({[row_id]} ∪ _assigned_rows t))
         row_id 1,
       rng')
    /\ length a = trainer_V t
    /\ Forall (fun k => (k < trainer_M t)%nat) a.
Proof.
  intros Hshaped Hdraws Hnot Hrow. unfold add_row.
  rewrite decide_False by assumption. rewrite decide_False by lia.
  unfold trainer_shaped in Hshaped.
  destruct Hshaped as (_ & _ & _ & _ & _ & Hvw & _ & _ & _ & _ & _ & _ & Hrows & _).
  pose proof (upward_short (trainer_M t) (tree t) (_schedule t)
                (fun v => plus_prior (_feat_prior (trainer_M t)) (nth v (_feat_ss t) []))
                (fun v => nth row_id (nth v (_data t) []) [])
                (map (plus_prior (_edge_prior (trainer_M t))) (_edge_ss t))
                (plus_prior _vert_prior (_vert_ss t))
                (plus_prior_width _ _ _ Hvw)) as Hshort.
  destruct (upward _ _ _ _ _ _ _) as [messages sums]. simpl in Hshort.
  assert (Hrow0 : length (nth row_id (assignments t) []) = trainer_V t
                  /\ Forall (fun k => (k < trainer_M t)%nat) (nth row_id (assignments t) [])).
  { destruct (nth_lookup_or_length (assignments t) row_id []) as [E0|E0]; [|lia].
    eapply Forall_lookup_1 in Hrows; [|exact E0]. exact Hrows. }
  destruct Hrow0 as [Hlen0 Hrange0].
  pose proof (downward_draws (trainer_M t) (tree t)
                (map (plus_prior (_edge_prior (trainer_M t))) (_edge_ss t))
                (plus_prior _vert_prior (_vert_ss t)) (_schedule t) Hdraws
                (messages, nth row_id (assignments t) [], rng) Hshort Hrange0) as Hdown.
  simpl in Hdown.
  destruct (foldl _ _ _) as [[messages' a] rng']. simpl in Hdown.
  destruct Hdown as [Hlen Hrange].
  exists a, rng'. split; [reflexivity|]. split; [congruence | exact Hrange].
Qed.

Lemma with_assignments_shaped (t : TreeCatTrainer) (row_id : nat) (a : list nat)
    (rows : gset nat) :
  trainer_shaped t ->
  length a = trainer_V t -> Forall (fun k => (k < trainer_M t)%nat) a ->
  (forall r, r ∈ rows -> (r < length (assignments t))%nat) ->
  trainer_shaped (with_assigned (with_assignments t (<[row_id := a]> (assignments t))) rows).
Proof.
  unfold trainer_shaped, trainer_V, trainer_E, trainer_M, trainer_K. simpl.
  destruct (_VEKM t) as [[[V E] K] M].
  intros (HM & HV & HE & Htree & Hvl & Hvw & Hel & Hew & Hfl & Hfw & Hdl & Hdc & Hrows & Has)
         Hlen Hrange Hin.
  refine (conj HM (conj HV (conj HE (conj Htree (conj Hvl (conj Hvw (conj Hel (conj Hew
            (conj Hfl (conj Hfw (conj Hdl (conj Hdc (conj _ _))))))))))))).
  - apply Forall_insert; [exact Hrows | split; assumption].
  - intros r Hr. rewrite length_insert. apply Hin. exact Hr.
Qed.

Lemma with_assigned_shaped (t : TreeCatTrainer) (rows : gset nat) :
  trainer_shaped t ->
  (forall r, r ∈ rows -> (r < length (assignments t))%nat) ->
  trainer_shaped (with_assigned t rows).
Proof.
  unfold trainer_shaped, trainer_V, trainer_E, trainer_M, trainer_K. simpl.
  destruct (_VEKM t) as [[[V E] K] M].
  intros (HM & HV & HE & Htree & Hvl & Hvw & Hel & Hew & Hfl & Hfw & Hdl & Hdc & Hrows & Has)
         Hin.
  refine (conj HM (conj HV (conj HE (conj Htree (conj Hvl (conj Hvw (conj Hel (conj Hew
            (conj Hfl (conj Hfw (conj Hdl (conj Hdc (conj Hrows Hin))))))))))))).
Qed.

(** [add_row] keeps the shapes and keeps the statistics equal to the
    tallies. *)
Lemma add_row_invariant (t : TreeCatTrainer) (row_id : nat) (rng : RNG) :
  trainer_shaped t -> stats_exact t -> draws_in_range (trainer_M t) ->
  row_id ∉ _assigned_rows t ->
  (row_id < length (assignments t))%nat ->
  (add_row t row_id rng).1.1 = None
  /\ trainer_shaped (add_row t row_id rng).1.2
  /\ stats_exact (add_row t row_id rng).1.2
  /\ _assigned_rows (add_row t row_id rng).1.2 = {[row_id]} ∪ _assigned_rows t
  /\ length (assignments (add_row t row_id rng).1.2) = length (assignments t)
  /\ _VEKM (add_row t row_id rng).1.2 = _VEKM t
  /\ _config (add_row t row_id rng).1.2 = _config t.
Proof.
  intros Hshaped Hexact Hdraws Hnot Hrow.
  destruct (add_row_drawn t row_id rng Hshaped Hdraws Hnot Hrow)
    as (a & rng' & -> & Hlen & Hrange).
  simpl.
  set (t1 := with_assigned (with_assignments t (<[row_id := a]> (assignments t)))
                           ({[row_id]} ∪ _assigned_rows t)).
  assert (Hshaped1 : trainer_shaped t1).
  { apply with_assignments_shaped; try assumption.
    intros r Hr. apply elem_of_union in Hr as [Hr|Hr].
    - apply elem_of_singleton in Hr. subst r. exact Hrow.
    - unfold trainer_shaped in Hshaped. apply Hshaped. exact Hr. }
  split; [reflexivity|].
  split; [apply _update_tensors_shaped; exact Hshaped1|].
  split; [|split; [reflexivity|]; split; [apply length_insert|]; split; reflexivity].
  unfold stats_exact.
  change (_assigned_rows (_update_tensors t1 row_id 1)) with ({[row_id]} ∪ _assigned_rows t).
  apply (_update_tensors_match t1 row_id 1 (_assigned_rows t)).
  - left; reflexivity.
  - exact Hshaped1.
  - simpl. rewrite length_insert. exact Hrow.
  - destruct Hexact as (Hv & He & Hf). unfold stats_match. simpl.
    split; [|split].
    + intros v m z Hz. rewrite exact_vert_count_tally, tally_other_rows by exact Hnot.
      apply (Hv v m z Hz).
    + intros e v1 v2 i j z Hin Hz.
      rewrite exact_edge_count_tally, tally_other_rows by exact Hnot.
      rewrite <- exact_edge_count_tally. apply (He e v1 v2 i j z Hin Hz).
    + intros v c m z Hz. rewrite exact_feat_count_tally, tally_other_rows by exact Hnot.
      apply (Hf v c m z Hz).
  - intros w. simpl. rewrite tally_add_row by exact Hnot. lia.
Qed.

(** So does [remove_row]. *)
Lemma remove_row_invariant (t : TreeCatTrainer) (row_id : nat) (rng : RNG) :
  trainer_shaped t -> stats_exact t ->
  row_id ∈ _assigned_rows t ->
  (remove_row t row_id rng).1.1 = None
  /\ trainer_shaped (remove_row t row_id rng).1.2
  /\ stats_exact (remove_row t row_id rng).1.2
  /\ _assigned_rows (remove_row t row_id rng).1.2 = _assigned_rows t ∖ {[row_id]}
  /\ assignments (remove_row t row_id rng).1.2 = assignments t
  /\ _VEKM (remove_row t row_id rng).1.2 = _VEKM t
  /\ _config (remove_row t row_id rng).1.2 = _config t
  /\ (remove_row t row_id rng).2 = rng.
Proof.
  intros Hshaped Hexact Hin.
  assert (Hrow : (row_id < length (assignments t))%nat)
    by (unfold trainer_shaped in Hshaped; apply Hshaped; exact Hin).
  unfold remove_row. rewrite decide_True by exact Hin.
  rewrite decide_False by (simpl; lia). simpl.
  set (t1 := with_assigned t (_assigned_rows t ∖ {[row_id]})).
  assert (Hshaped1 : trainer_shaped t1).
  { apply with_assigned_shaped; [exact Hshaped|].
    intros r Hr. unfold trainer_shaped in Hshaped. apply Hshaped. set_solver. }
  split; [reflexivity|].
  split; [apply _update_tensors_shaped; exact Hshaped1|].
  split; [|repeat split].
  unfold stats_exact.
  change (_assigned_rows (_update_tensors t1 row_id (-1)))
    with (_assigned_rows t ∖ {[row_id]}).
  apply (_update_tensors_match t1 row_id (-1) (_assigned_rows t)).
  - right; reflexivity.
  - exact Hshaped1.
  - exact Hrow.
  - exact Hexact.
  - intros w. simpl. apply tally_remove_row. exact Hin.
Qed.

End Operations.

(** *** sample_tree and _update_tree *)

Lemma pair_count_Permutation (rows rows' : list (list nat)) (v1 v2 i j : nat) :
  rows ≡ₚ rows' -> pair_count rows v1 v2 i j = pair_count rows' v1 v2 i j.
Proof.
  intros Hperm. unfold pair_count. apply Zsum_Permutation, Permutation_map. exact Hperm.
Qed.

(** The slices the loop of [_update_tree] writes. *)
Lemma slices_fold (T : nat -> nat -> list (list Z)) (grid : list (nat * nat * nat)) :
  NoDup (map (fun '(e, _, _) => e) grid) ->
  forall es : list (list (list Z)),
    let es' := foldl (fun es '(e, v1, v2) => <[e := T v1 v2]> es) es grid in
    length es' = length es
    /\ (forall e v1 v2, (e, v1, v2) ∈ grid -> (e < length es)%nat ->
          es' !! e = Some (T v1 v2))
    /\ (forall e, e ∉ map (fun '(e, _, _) => e) grid -> es' !! e = es !! e).
Proof.
  induction grid as [|[[e0 a] b] grid IH]; intros Hnd es; simpl.
  - split; [reflexivity|]. split; [|reflexivity].
    intros e v1 v2 Hin. apply elem_of_nil in Hin. contradiction.
  - simpl in Hnd. apply NoDup_cons in Hnd as [Hnot Hnd].
    destruct (IH Hnd (<[e0 := T a b]> es)) as (Hlen & Hin & Hout).
    rewrite length_insert in Hlen, Hin.
    split; [exact Hlen|]. split.
    + intros e v1 v2 He Hlt. apply elem_of_cons in He as [He|He].
      * injection He as -> -> ->. rewrite (Hout e0 Hnot).
        apply list_lookup_insert_eq. exact Hlt.
      * apply (Hin e v1 v2 He Hlt).
    + intros e He. apply not_elem_of_cons in He as [Hne He].
      rewrite (Hout e He). apply list_lookup_insert_ne. congruence.
Qed.

Section SampleTree.
Context `{Collaborators}.

Lemma _update_tree_slices (t : TreeCatTrainer) :
  Forall (fun '(_, v1, v2) => v1 <> v2) (tree_grid (tree t)) ->
  _update_tree t
  = (None,
     with_tree t (tree t) (make_propagation_schedule (tree_grid (tree t)))
       (foldl (fun es '(e, v1, v2) =>
                 <[e := map (map wrap32)
                          match count_pairs (assigned_assignments t) v1 v2 (trainer_M t) with
                          | inr counts => counts
                          | inl _ => []
                          end]> es)
              (_edge_ss t) (tree_grid (tree t)))).
Proof.
  intros Hgrid. unfold _update_tree.
  assert (Hfold : forall es : list (list (list Z)),
            foldl (fun '(err, es) '(e, v1, v2) =>
                     match err with
                     | Some _ => (err, es)
                     | None =>
                         match count_pairs (assigned_assignments t) v1 v2 (trainer_M t) with
                         | inl e' => (Some e', es)
                         | inr counts => (None, <[e := map (map wrap32) counts]> es)
                         end
                     end) (@None error, es) (tree_grid (tree t))
            = (None,
               foldl (fun es '(e, v1, v2) =>
                        <[e := map (map wrap32)
                                 match count_pairs (assigned_assignments t) v1 v2
                                         (trainer_M t) with
                                 | inr counts => counts
                                 | inl _ => []
                                 end]> es)
                     es (tree_grid (tree t)))).
  { induction Hgrid as [|[[e v1] v2] grid Hne _ IH]; intros es; [reflexivity|].
    simpl. rewrite (count_pairs_distinct _ _ _ _ Hne). apply IH. }
  rewrite Hfold. reflexivity.
Qed.

Lemma assigned_assignments_in_range (t : TreeCatTrainer) :
  trainer_shaped t ->
  rows_in_range (trainer_V t) (trainer_M t) (assigned_assignments t).
Proof.
  intros Hshaped. unfold trainer_shaped in Hshaped.
  destruct Hshaped as (_ & _ & _ & _ & _ & _ & _ & _ & _ & _ & _ & _ & Hrows & Has).
  unfold assigned_assignments, rows_in_range. apply Forall_fmap, Forall_forall.
  intros r Hr. rewrite merge_sort_Permutation in Hr. apply elem_of_elements in Hr.
  specialize (Has r Hr). simpl.
  destruct (nth_lookup_or_length (assignments t) r []) as [E0|E0]; [|lia].
  eapply Forall_lookup_1 in Hrows; [|exact E0]. exact Hrows.
Qed.

Lemma look2_wrap32 (counts : list (list Z)) (i j : nat) :
  look2 (map (map wrap32) counts) i j = wrap32 <$> look2 counts i j.
Proof.
  unfold look2. rewrite list_lookup_fmap.
  destruct (counts !! i) as [row|]; simpl; [|reflexivity].
  apply list_lookup_fmap.
Qed.

(** [_update_tree] leaves every slice of a tree edge equal to the
    [count_pairs] of its two vertices. *)
Lemma _update_tree_invariant (t : TreeCatTrainer) :
  trainer_shaped t ->
  (forall v m z, look2 (_vert_ss t) v m = Some z ->
     z = wrap32 (exact_vert_count (assignments t) (elements (_assigned_rows t)) v m)) ->
  (forall v c m z, look3 (_feat_ss t) v c m = Some z ->
     z = wrap32 (exact_feat_count (_data t) (assignments t)
                   (elements (_assigned_rows t)) v c m)) ->
  (_update_tree t).1 = None
  /\ trainer_shaped (_update_tree t).2
  /\ stats_exact (_update_tree t).2.
Proof.
  intros Hshaped Hvert Hfeat.
  pose proof (assigned_assignments_in_range t Hshaped) as Hrange.
  unfold trainer_shaped, trainer_V, trainer_E, trainer_M, trainer_K in *.
  destruct (_VEKM t) as [[[V E] K] M] eqn:Edims.
  destruct Hshaped
    as (HM & HV & HE & Htree & Hvl & Hvw & Hel & Hew & Hfl & Hfw & Hdl & Hdc & Hrows & Has).
  pose proof Htree as (Hvs & Hgl & Hnd & Hgrid & HK).
  assert (Hdistinct : Forall (fun '(_, v1, v2) => v1 <> v2) (tree_grid (tree t))).
  { eapply Forall_impl; [exact Hgrid|]. intros [[e v1] v2]. tauto. }
  rewrite (_update_tree_slices t Hdistinct). simpl.
  unfold trainer_M. rewrite Edims.
  set (T := fun v1 v2 : nat =>
              map (map wrap32)
                  match count_pairs (assigned_assignments t) v1 v2 M with
                  | inr counts => counts
                  | inl _ => []
                  end).
  destruct (slices_fold T (tree_grid (tree t)) Hnd (_edge_ss t)) as (Hlen & Hin & Hout).
  fold T in Hlen, Hin, Hout |- *.
  set (es' := foldl (fun es '(e, v1, v2) => <[e := T v1 v2]> es) (_edge_ss t)
                    (tree_grid (tree t))) in *.
  assert (Hcells : forall e v1 v2, (e, v1, v2) ∈ tree_grid (tree t) ->
            exists counts,
              es' !! e = Some (map (map wrap32) counts)
              /\ length counts = M
              /\ Forall (fun r => length r = M) counts
              /\ forall i j, (i < M)%nat -> (j < M)%nat ->
                   look2 counts i j
                   = Some (pair_count (assigned_assignments t) v1 v2 i j)).
  { intros e v1 v2 He.
    rewrite Forall_forall in Hgrid. pose proof (Hgrid _ He) as (HeE & Hv1 & Hv2 & Hne).
    destruct (count_pairs_cell (assigned_assignments t) v1 v2 V M Hrange Hv2 Hne)
      as (counts & Hcounts & Hcl & Hcw & Hcell).
    exists counts. split; [|split; [exact Hcl|]; split; [exact Hcw | exact Hcell]].
    rewrite (Hin e v1 v2 He) by lia. unfold T. rewrite Hcounts. reflexivity. }
  split; [reflexivity|]. split.
  - unfold trainer_shaped, trainer_V, trainer_E, trainer_M, trainer_K. simpl.
    rewrite ?Edims.
    refine (conj HM (conj HV (conj HE (conj Htree (conj Hvl (conj Hvw (conj _ (conj _
              (conj Hfl (conj Hfw (conj Hdl (conj Hdc (conj Hrows Has))))))))))))).
    + transitivity (length (_edge_ss t)); [exact Hlen | exact Hel].
    + change (Forall (fun mat => length mat = M /\ Forall (fun row => length row = M) mat)
                     es').
      apply Forall_lookup_2. intros e mat Hmat.
      destruct (decide (e ∈ map (fun '(e, _, _) => e) (tree_grid (tree t)))) as [He|He].
      * apply list_elem_of_fmap in He as ([[e' v1] v2] & -> & He).
        destruct (Hcells e' v1 v2 He) as (counts & Hslice & Hcl & Hcw & _).
        rewrite Hslice in Hmat. injection Hmat as <-.
        split; [rewrite length_map; exact Hcl|].
        apply Forall_fmap. eapply Forall_impl; [exact Hcw|].
        intros r Hr. simpl. rewrite length_map. exact Hr.
      * rewrite (Hout e He) in Hmat. eapply Forall_lookup_1 in Hew; eassumption.
  - unfold stats_exact, stats_match. simpl. split; [exact Hvert|]. split; [|exact Hfeat].
    intros e v1 v2 i j z He Hz.
    destruct (Hcells e v1 v2 He) as (counts & Hslice & Hcl & Hcw & Hcell).
    change (look3 es' e i j = Some z) in Hz.
    unfold look3 in Hz. rewrite Hslice in Hz. simpl in Hz.
    rewrite look2_wrap32 in Hz.
    destruct (look2 counts i j) as [z0|] eqn:Ez0; [|discriminate].
    simpl in Hz. injection Hz as <-.
    assert (Hi : (i < M)%nat).
    { unfold look2 in Ez0. destruct (counts !! i) as [row|] eqn:Erow; [|discriminate].
      apply lookup_lt_Some in Erow. lia. }
    assert (Hj : (j < M)%nat).
    { unfold look2 in Ez0. destruct (counts !! i) as [row|] eqn:Erow; [|discriminate].
      simpl in Ez0. apply lookup_lt_Some in Ez0.
      eapply Forall_lookup_1 in Hcw; [|exact Erow]. simpl in Hcw. lia. }
    rewrite (Hcell i j Hi Hj) in Ez0. injection Ez0 as <-.
    f_equal. unfold exact_edge_count, assigned_assignments.
    apply pair_count_Permutation, Permutation_map, merge_sort_Permutation.
Qed.

(** [sample_tree] raises nothing, keeps the shapes and keeps the
    statistics equal to the tallies, for whatever tree the collaborator
    returns. *)
Lemma sample_tree_invariant (gammaln : R -> R) (t : TreeCatTrainer) (rng : RNG) :
  trainer_shaped t -> stats_exact t -> set_edges_shaped ->
  (sample_tree gammaln t rng).1.1 = None
  /\ trainer_shaped (sample_tree gammaln t rng).1.2
  /\ stats_exact (sample_tree gammaln t rng).1.2
  /\ _assigned_rows (sample_tree gammaln t rng).1.2 = _assigned_rows t
  /\ assignments (sample_tree gammaln t rng).1.2 = assignments t
  /\ _VEKM (sample_tree gammaln t rng).1.2 = _VEKM t
  /\ _config (sample_tree gammaln t rng).1.2 = _config t.
Proof.
  intros Hshaped (Hvert & _ & Hfeat) Hset.
  pose proof Hshaped as Hshaped0.
  unfold trainer_shaped in Hshaped.
  destruct Hshaped
    as (HM & HV & HE & Htree & Hvl & Hvw & Hel & Hew & Hfl & Hfw & Hdl & Hdc & Hrows & Has).
  pose proof Htree as (Hvs & Hgl & Hnd & Hgrid & HK).
  assert (Hdistinct : Forall (fun '(_, v1, v2) => v1 <> v2) (tree_grid (tree t))).
  { eapply Forall_impl; [exact Hgrid|]. intros [[e v1] v2]. tauto. }
  unfold sample_tree.
  destruct (sample_tree_edge_logits_inr gammaln t Hdistinct) as (logits & -> & Hlen).
  rewrite decide_True by (rewrite Hlen; symmetry; exact HK).
  destruct (structure_sample_tree _ _ _ _ rng) as [edges rng'].
  set (t1 := with_tree t (set_edges (tree t) edges) (_schedule t) (_edge_ss t)).
  assert (Hshaped1 : trainer_shaped t1).
  { unfold trainer_shaped, trainer_V, trainer_E, trainer_M, trainer_K. simpl.
    unfold trainer_V, trainer_E, trainer_M, trainer_K in *.
    destruct (_VEKM t) as [[[V E] K] M].
    refine (conj HM (conj HV (conj HE (conj _ (conj Hvl (conj Hvw (conj Hel (conj Hew
              (conj Hfl (conj Hfw (conj Hdl (conj Hdc (conj Hrows Has))))))))))))).
    apply Hset. exact Htree. }
  destruct (_update_tree_invariant t1 Hshaped1 Hvert Hfeat) as (Herr & Hshaped2 & Hexact2).
  destruct (_update_tree_frame t1) as (Hrows2 & Htree2 & Hdims2 & Hassign2).
  assert (Hconfig2 : _config (_update_tree t1).2 = _config t).
  { unfold _update_tree. destruct (foldl _ _ _) as [[e|] es]; reflexivity. }
  destruct (_update_tree t1) as [err t2]. simpl in Herr, Hshaped2, Hexact2, Hrows2, Hassign2,
    Hdims2, Hconfig2 |- *.
  subst err.
  split; [reflexivity|]. split; [exact Hshaped2|]. split; [exact Hexact2|].
  split; [exact Hrows2|]. split; [exact Hassign2|]. split; [exact Hdims2 | exact Hconfig2].
Qed.

End SampleTree.

(** ** More on make_posterior *)

Lemma vsum_vadd (x y : list Qc) :
  length x = length y -> vsum (vadd x y) = (vsum x + vsum y)%Qc.
Proof.
  unfold vadd. revert y. induction x as [|a x IH]; intros y Hlen.
  - destruct y; [simpl; ring | discriminate].
  - destruct y as [|b y]; [discriminate|]. simpl. rewrite IH by (simpl in Hlen; lia).
    ring.
Qed.

Lemma vsum_zeros (M : nat) : vsum (replicate M 0%Qc) = 0%Qc.
Proof. induction M as [|M IH]; simpl; [reflexivity | rewrite IH; ring]. Qed.

(** Summing a table by rows or by columns gives the same total. *)
Lemma vsum_sum_axis (M : nat) (table : list (list Qc)) :
  Forall (fun row => length row = M) table ->
  vsum (sum_axis1 table) = vsum (sum_axis0 M table).
Proof.
  intros Hw. unfold sum_axis0, sum_axis1.
  assert (Hgen : forall acc, length acc = M ->
            vsum (foldl vadd acc table) = (vsum acc + vsum (map vsum table))%Qc).
  { induction Hw as [|row table Hrow _ IH]; intros acc Hacc; simpl; [ring|].
    rewrite IH by (rewrite vadd_length; congruence).
    rewrite vsum_vadd by congruence. ring. }
  rewrite Hgen by apply length_replicate. rewrite vsum_zeros. ring.
Qed.

Lemma make_posterior_tables (grid : list (nat * nat * nat)) (ss : SuffStats) (p : Posterior) :
  make_posterior grid ss = inr p ->
  let M := length (hd [] (vert_ss ss)) in
  Forall (fun mat => length mat = M /\ Forall (fun row => length row = M) mat) (edge_ss ss)
  /\ length grid = (length (vert_ss ss) - 1)%nat
  /\ length (edge_ss ss) = (length (vert_ss ss) - 1)%nat
  /\ latent_latent p = normalize_slices (map (plus_prior (half / qn M)) (edge_ss ss))
  /\ observed p = map sum_axis1 (observed_latent p).
Proof.
  unfold make_posterior. destruct (shapes_ok grid ss) eqn:Hs; [|discriminate].
  destruct (length (hd [] (vert_ss ss)) =? 0)%nat eqn:HM; [discriminate|].
  intros Hp. injection Hp as <-. cbn zeta.
  unfold shapes_ok in Hs. destruct (vert_ss ss) as [|row0 rest] eqn:Ev; [discriminate|].
  simpl hd in *.
  repeat (apply andb_prop in Hs as [Hs ?]).
  split; [|split; [apply Nat.eqb_eq; assumption|];
           split; [apply Nat.eqb_eq; assumption|]; split; reflexivity].
  apply Forall_forall. intros mat Hin.
  match goal with Hf : forallb _ (edge_ss ss) = true |- _ =>
    rewrite forallb_forall in Hf; apply list_elem_of_In, Hf in Hin end.
  apply andb_prop in Hin as [Hl Hw].
  split; [apply Nat.eqb_eq, Hl | apply has_width_Forall, Hw].
Qed.

Lemma scaled_total (joint : list (list Qc)) (s : Qc) :
  vsum (map vsum (map (fun row => vscale_div row s) joint))
  = (vsum (map vsum joint) / s)%Qc.
Proof.
  induction joint as [|row joint IH]; simpl.
  - unfold Qcdiv. ring.
  - rewrite vsum_vscale_div, IH. unfold Qcdiv. ring.
Qed.

Lemma plus_prior_total_pos (prior : Qc) (mat : list (list Z)) (M : nat) :
  (0 < prior)%Qc -> (0 < M)%nat ->
  mat <> [] -> Forall (fun row => length row = M) mat ->
  Forall (Forall (fun z => (0 <= z)%Z)) mat ->
  (0 < vsum (map vsum (plus_prior prior mat)))%Qc.
Proof.
  intros Hprior HM Hne Hw Hnn. apply vsum_pos.
  - unfold plus_prior. apply Forall_fmap, Forall_fmap, Forall_forall.
    intros row Hrow. simpl. apply vsum_pos.
    + apply plus_prior_row_pos; [exact Hprior|].
      rewrite Forall_forall in Hnn. apply Hnn, Hrow.
    + rewrite Forall_forall in Hw. specialize (Hw row Hrow).
      destruct row; [simpl in Hw; lia | discriminate].
  - unfold plus_prior. destruct mat; [congruence | discriminate].
Qed.

(** For a snapshot that [make_posterior] accepts, with counts that are not
    negative and at least one category per feature, every table of the
    posterior is a probability distribution: each slice of [latent_latent]
    and each row of [observed] sums to one. *)
Theorem posterior_tables_sum_to_one (grid : list (nat * nat * nat)) (ss : SuffStats)
    (p : Posterior) :
  make_posterior grid ss = inr p ->
  nonneg_counts ss -> nonneg_edge_counts ss -> features_nonempty ss ->
  length (latent_latent p) = (length (latent p) - 1)%nat
  /\ length (observed p) = length (latent p)
  /\ Forall (fun slice => vsum (map vsum slice) = 1%Qc) (latent_latent p)
  /\ Forall (fun row => vsum row = 1%Qc) (observed p).
Proof.
  intros Hp [Hvn Hfn] Hen Hne.
  destruct (make_posterior_inr grid ss p Hp) as (HM & Hvw & Hfl & Hfw & Hlat & Hol).
  destruct (make_posterior_tables grid ss p Hp) as (Hew & _ & Hel & Hll & Hobs).
  set (M := length (hd [] (vert_ss ss))) in *.
  assert (Hlatlen : length (latent p) = length (vert_ss ss)).
  { rewrite Hlat. unfold normalize_rows, plus_prior. rewrite !length_map. reflexivity. }
  split; [|split; [|split]].
  - rewrite Hll, Hlatlen. unfold normalize_slices. rewrite !length_map. exact Hel.
  - rewrite Hobs, Hol, length_map, length_imap, Hlatlen. exact Hfl.
  - rewrite Hll. unfold normalize_slices. apply Forall_fmap, Forall_fmap, Forall_forall.
    intros mat Hmat. simpl.
    unfold nonneg_edge_counts in Hen. rewrite Forall_forall in Hew, Hen.
    destruct (Hew mat Hmat) as [Hml Hmw]. specialize (Hen mat Hmat).
    rewrite scaled_total.
    assert (Hpos : (0 < vsum (map vsum (plus_prior (half / qn M) mat)))%Qc).
    { apply (plus_prior_total_pos _ _ M); try assumption.
      - apply prior_pos, HM.
      - destruct mat; [simpl in Hml; lia | discriminate]. }
    unfold Qcdiv. apply Qcmult_inv_r. apply not_eq_sym, Qclt_not_eq, Hpos.
  - rewrite Hobs. apply Forall_fmap, Forall_lookup_2. intros v table Htable. simpl.
    rewrite Hol in Htable. rewrite list_lookup_imap in Htable.
    destruct (feat_ss ss !! v) as [feat|] eqn:Efeat; [|discriminate].
    simpl in Htable. injection Htable as <-.
    assert (Hv : (v < length (vert_ss ss))%nat)
      by (apply lookup_lt_Some in Efeat; lia).
    destruct (lookup_lt_is_Some_2 (vert_ss ss) v Hv) as [vrow Evrow].
    assert (Hvlen : length vrow = M) by (eapply Forall_lookup_1 in Hvw; eassumption).
    assert (Hlatv : nth v (latent p) []
                    = vscale_div (map (fun z => (qz z + half)%Qc) vrow)
                                 (vsum (map (fun z => (qz z + half)%Qc) vrow))).
    { rewrite Hlat. unfold normalize_rows, plus_prior.
      rewrite nth_lookup, !list_lookup_fmap, Evrow. reflexivity. }
    assert (Hfeatw : Forall (fun row => length row = M) feat)
      by (eapply Forall_lookup_1 in Hfw; eassumption).
    rewrite (vsum_sum_axis M).
    + rewrite corrected_joint_marginal.
      * rewrite Hlatv. apply normalized_row_sum.
        -- destruct vrow; [simpl in Hvlen; lia | discriminate].
        -- eapply Forall_lookup_1 in Hvn; eassumption.
      * exact HM.
      * eapply Forall_lookup_1 in Hne; eassumption.
      * exact Hfeatw.
      * eapply Forall_lookup_1 in Hfn; eassumption.
      * rewrite Hlatv. unfold vscale_div. rewrite !length_map. exact Hvlen.
    + unfold corrected_joint, plus_prior. apply Forall_fmap, Forall_fmap.
      eapply Forall_impl; [exact Hfeatw|]. intros row Hrow. simpl.
      unfold vmul, vdiv. rewrite !length_zip_with, length_map.
      rewrite Hlatv. unfold vscale_div. rewrite !length_map.
      unfold sum_axis0.
      rewrite (foldl_vadd_length M); [simpl in Hrow; lia | apply length_replicate |].
      apply Forall_fmap. eapply Forall_impl; [exact Hfeatw|].
      intros row' Hrow'. simpl. rewrite length_map. exact Hrow'.
Qed.

Lemma posterior_tables_sum_to_one_witness :
  let p := posterior_of [(0, 0, 1)]%nat snapshot_two_vertices in
  length (latent_latent p) = (length (latent p) - 1)%nat
  /\ length (observed p) = length (latent p)
  /\ Forall (fun slice => vsum (map vsum slice) = 1%Qc) (latent_latent p)
  /\ Forall (fun row => vsum row = 1%Qc) (observed p).
Proof.
  apply (posterior_tables_sum_to_one [(0, 0, 1)]%nat snapshot_two_vertices).
  - reflexivity.
  - split; repeat constructor; discriminate.
  - repeat constructor; discriminate.
  - repeat constructor; discriminate.
Defined.

(** *** Statistics of a trainer, as a snapshot *)

Lemma Forall_has_width {A} (M : nat) (a : list (list A)) :
  Forall (fun row => length row = M) a -> has_width M a = true.
Proof.
  intros Ha. unfold has_width. apply forallb_forall. intros row Hin.
  apply Nat.eqb_eq. rewrite Forall_forall in Ha. apply Ha, list_elem_of_In, Hin.
Qed.

(** [make_posterior] accepts the statistics of a shaped trainer. *)
Lemma make_posterior_of_shaped (t : TreeCatTrainer) :
  trainer_shaped t ->
  exists p, make_posterior (tree_grid (tree t)) (suffstats t) = inr p.
Proof.
  unfold trainer_shaped, trainer_V, trainer_E, trainer_M, trainer_K.
  destruct (_VEKM t) as [[[V E] K] M].
  intros (HM & HV & HE & (_ & Hgl & _) & Hvl & Hvw & Hel & Hew & Hfl & Hfw & _).
  unfold make_posterior.
  assert (Hok : shapes_ok (tree_grid (tree t)) (suffstats t) = true
                /\ length (hd [] (vert_ss (suffstats t))) = M).
  { unfold shapes_ok, suffstats. cbn [vert_ss edge_ss feat_ss].
    destruct (_vert_ss t) as [|row0 rest] eqn:Ev; [simpl in Hvl; lia|].
    assert (Hrow0 : length row0 = M) by (apply Forall_cons in Hvw; tauto).
    simpl hd. rewrite Hrow0. split; [|reflexivity].
    apply andb_true_intro; split;
      [apply andb_true_intro; split;
       [apply andb_true_intro; split;
        [apply andb_true_intro; split; [apply andb_true_intro; split|]|]|]|].
    - apply Nat.eqb_eq. lia.
    - apply Forall_has_width. exact Hvw.
    - apply Nat.eqb_eq. lia.
    - apply forallb_forall. intros mat Hin. apply list_elem_of_In in Hin.
      rewrite Forall_forall in Hew. destruct (Hew mat Hin) as [Hl Hw].
      apply andb_true_intro. split; [apply Nat.eqb_eq, Hl | apply Forall_has_width, Hw].
    - apply Nat.eqb_eq. lia.
    - apply forallb_forall. intros table Hin. apply list_elem_of_In in Hin.
      rewrite Forall_forall in Hfw. apply Forall_has_width, Hfw, Hin. }
  destruct Hok as [-> ->].
  destruct (Nat.eqb_spec M 0) as [|_]; [lia|]. eexists. reflexivity.
Qed.

Lemma corrected_joint_width (M : nat) (prior : Qc) (feat : list (list Z))
    (latent_v : list Qc) :
  Forall (fun row => length row = M) feat -> length latent_v = M ->
  Forall (fun row => length row = M) (corrected_joint M prior feat latent_v).
Proof.
  intros Hw Hlen. unfold corrected_joint, plus_prior. apply Forall_fmap, Forall_fmap.
  eapply Forall_impl; [exact Hw|]. intros row Hrow. simpl in Hrow |- *.
  unfold vmul, vdiv. rewrite !length_zip_with, length_map.
  unfold sum_axis0.
  rewrite (foldl_vadd_length M); [lia | apply length_replicate |].
  apply Forall_fmap. eapply Forall_impl; [exact Hw|].
  intros row' Hrow'. simpl in Hrow' |- *. rewrite length_map. exact Hrow'.
Qed.

(** *** The posterior of statistics that are all zero *)

Lemma vsum_replicate (n : nat) (c : Qc) : vsum (replicate n c) = (qn n * c)%Qc.
Proof.
  induction n as [|n IH]; simpl.
  - change (qn 0) with 0%Qc. ring.
  - rewrite IH, qn_S. ring.
Qed.

Lemma vscale_div_replicate (n : nat) (c s : Qc) :
  vscale_div (replicate n c) s = replicate n (c / s)%Qc.
Proof. unfold vscale_div. apply (fmap_replicate (fun a => (a / s)%Qc)). Qed.

Lemma plus_prior_zeros (prior : Qc) (K M : nat) :
  plus_prior prior (replicate K (replicate M 0%Z)) = replicate K (replicate M prior).
Proof.
  unfold plus_prior.
  change (map (map (fun z => (qz z + prior)%Qc)) (replicate K (replicate M 0%Z)))
    with (map (fun z => (qz z + prior)%Qc) <$> replicate K (replicate M 0%Z)).
  rewrite fmap_replicate. f_equal.
  change (map (fun z => (qz z + prior)%Qc) (replicate M 0%Z))
    with ((fun z => (qz z + prior)%Qc) <$> replicate M 0%Z).
  rewrite fmap_replicate. f_equal. change (qz 0) with 0%Qc. ring.
Qed.

Lemma sum_axis0_replicate (M K : nat) (c : Qc) :
  sum_axis0 M (replicate K (replicate M c)) = replicate M (qn K * c)%Qc.
Proof.
  unfold sum_axis0.
  assert (Hgen : forall n a, foldl vadd (replicate M a) (replicate n (replicate M c))
                             = replicate M (a + qn n * c)%Qc).
  { induction n as [|n IH]; intros a; simpl.
    - f_equal. change (qn 0) with 0%Qc. ring.
    - unfold vadd at 2. rewrite zip_with_replicate, IH. f_equal. rewrite qn_S. ring. }
  rewrite Hgen. f_equal. ring.
Qed.

Lemma qn_neq_0 (n : nat) : (0 < n)%nat -> qn n <> 0%Qc.
Proof. intros Hn. apply not_eq_sym, Qclt_not_eq, qn_pos, Hn. Qed.

Lemma half_neq_0 : half <> 0%Qc.
Proof. discriminate. Qed.

(** With all statistics at zero, as [__init__] leaves them, every table
    of the posterior is uniform: the Jeffreys priors cancel out. *)
Theorem make_posterior_of_zeros (grid : list (nat * nat * nat)) (M : nat) (Ks : list nat) :
  (0 < M)%nat -> Ks <> [] -> Forall (fun K => (0 < K)%nat) Ks ->
  length grid = (length Ks - 1)%nat ->
  make_posterior grid (zero_snapshot M Ks) = inr (uniform_posterior M Ks).
Proof.
  intros HM Hne HK Hgrid.
  pose proof (qn_neq_0 M HM) as HqM. pose proof half_neq_0 as Hhalf.
  unfold make_posterior.
  assert (Hok : shapes_ok grid (zero_snapshot M Ks) = true
                /\ length (hd [] (vert_ss (zero_snapshot M Ks))) = M).
  { unfold shapes_ok, zero_snapshot. cbn [vert_ss edge_ss feat_ss].
    destruct Ks as [|K0 Ks']; [congruence|].
    remember (K0 :: Ks') as Ks eqn:EKs.
    assert (HV : length Ks = S (length Ks')) by (rewrite EKs; reflexivity).
    rewrite HV. cbn [replicate hd]. rewrite length_replicate.
    split; [|reflexivity].
    change (replicate M 0%Z :: replicate (length Ks') (replicate M 0%Z))
      with (replicate (S (length Ks')) (replicate M 0%Z)).
    rewrite !length_replicate.
    apply andb_true_intro; split;
      [apply andb_true_intro; split;
       [apply andb_true_intro; split;
        [apply andb_true_intro; split; [apply andb_true_intro; split|]|]|]|].
    - apply Nat.eqb_eq. rewrite Hgrid, HV. reflexivity.
    - apply Forall_has_width, Forall_replicate, length_replicate.
    - apply Nat.eqb_eq. reflexivity.
    - apply forallb_forall. intros mat Hin. apply list_elem_of_In in Hin.
      apply elem_of_replicate in Hin as [-> _].
      rewrite length_replicate, Nat.eqb_refl. simpl.
      apply Forall_has_width, Forall_replicate, length_replicate.
    - apply Nat.eqb_eq. rewrite length_map. exact HV.
    - apply forallb_forall. intros table Hin. apply list_elem_of_In in Hin.
      apply list_elem_of_fmap in Hin as (K & -> & _).
      apply Forall_has_width, Forall_replicate, length_replicate. }
  destruct Hok as [-> ->].
  destruct (Nat.eqb_spec M 0) as [|_]; [lia|]. f_equal.
  unfold zero_snapshot, uniform_posterior. cbn [vert_ss edge_ss feat_ss].
  assert (Hlatent : normalize_rows (plus_prior half (replicate (length Ks) (replicate M 0%Z)))
                    = replicate (length Ks) (replicate M (1 / qn M)%Qc)).
  { rewrite plus_prior_zeros. unfold normalize_rows.
    change (map (fun row => vscale_div row (vsum row)) (replicate (length Ks) (replicate M half)))
      with ((fun row => vscale_div row (vsum row)) <$> replicate (length Ks) (replicate M half)).
    rewrite fmap_replicate. f_equal.
    rewrite vscale_div_replicate, vsum_replicate. f_equal. field. split; assumption. }
  assert (Hjoint : observed_latent (uniform_posterior M Ks)
                   = imap (fun v feat =>
                             corrected_joint M (half / qn M) feat
                               (nth v (replicate (length Ks) (replicate M (1 / qn M)%Qc)) []))
                          (map (fun K => replicate K (replicate M 0%Z)) Ks)).
  { unfold uniform_posterior. cbn [observed_latent].
    apply list_eq. intros v.
    rewrite list_lookup_imap, !list_lookup_fmap.
    destruct (Ks !! v) as [K|] eqn:EK; simpl; [|reflexivity].
    f_equal.
    assert (HKpos : (0 < K)%nat) by (eapply Forall_lookup_1 in HK; eassumption).
    pose proof (qn_neq_0 K HKpos) as HqK.
    rewrite nth_lookup, lookup_replicate_2 by (apply lookup_lt_Some in EK; exact EK).
    simpl. unfold corrected_joint. rewrite plus_prior_zeros, sum_axis0_replicate.
    unfold vdiv. rewrite zip_with_replicate.
    change (map (fun row => vmul row (replicate M (1 / qn M / (qn K * (half / qn M)))%Qc))
                (replicate K (replicate M (half / qn M)%Qc)))
      with ((fun row => vmul row (replicate M (1 / qn M / (qn K * (half / qn M)))%Qc))
              <$> replicate K (replicate M (half / qn M)%Qc)).
    rewrite fmap_replicate. unfold vmul. rewrite zip_with_replicate.
    f_equal. f_equal. field. repeat split; assumption. }
  f_equal.
  - (* observed *)
    rewrite <- Hlatent in Hjoint. rewrite <- Hjoint.
    unfold uniform_posterior. cbn [observed_latent]. rewrite map_map.
    apply map_ext_in. intros K HinK. apply list_elem_of_In in HinK.
    assert (HKpos : (0 < K)%nat) by (rewrite Forall_forall in HK; apply HK, HinK).
    pose proof (qn_neq_0 K HKpos) as HqK.
    unfold sum_axis1.
    change (map vsum (replicate K (replicate M (1 / (qn K * qn M))%Qc)))
      with (vsum <$> replicate K (replicate M (1 / (qn K * qn M))%Qc)).
    rewrite fmap_replicate, vsum_replicate. f_equal. field. split; assumption.
  - rewrite Hlatent. symmetry. exact Hjoint.
  - exact Hlatent.
  - unfold normalize_slices.
    change (map (plus_prior (half / qn M)) (replicate (length Ks - 1) (replicate M (replicate M 0%Z))))
      with (plus_prior (half / qn M) <$> replicate (length Ks - 1) (replicate M (replicate M 0%Z))).
    rewrite fmap_replicate, plus_prior_zeros.
    match goal with |- map ?f (replicate ?n ?x) = _ =>
      change (map f (replicate n x)) with (f <$> replicate n x) end.
    rewrite fmap_replicate. f_equal. cbv beta zeta.
    assert (Hs : vsum (map vsum (replicate M (replicate M (half / qn M)%Qc)))
                 = (qn M * (qn M * (half / qn M)))%Qc).
    { change (map vsum (replicate M (replicate M (half / qn M)%Qc)))
        with (vsum <$> replicate M (replicate M (half / qn M)%Qc)).
      rewrite fmap_replicate, !vsum_replicate. reflexivity. }
    rewrite Hs.
    match goal with |- map ?f (replicate ?n ?x) = _ =>
      change (map f (replicate n x)) with (f <$> replicate n x) end.
    rewrite fmap_replicate, vscale_div_replicate. f_equal. f_equal.
    field. split; assumption.
Qed.

Lemma make_posterior_of_zeros_witness :
  make_posterior [(0, 0, 1)]%nat (zero_snapshot 2 [2; 3]%nat)
  = inr (uniform_posterior 2 [2; 3]%nat).
Proof.
  apply (make_posterior_of_zeros [(0, 0, 1)]%nat 2 [2; 3]%nat).
  - lia.
  - discriminate.
  - repeat constructor.
  - reflexivity.
Defined.

(** *** From [__init__] to the end of [train] *)

Lemma look2_replicate (V M : nat) (x z : Z) (v m : nat) :
  look2 (replicate V (replicate M x)) v m = Some z -> z = x.
Proof.
  unfold look2. intros Hz.
  destruct (replicate V (replicate M x) !! v) as [row|] eqn:Erow; [|discriminate].
  apply lookup_replicate in Erow as [-> _]. simpl in Hz.
  apply lookup_replicate in Hz as [-> _]. reflexivity.
Qed.

Section TrainInvariant.
Context `{Collaborators}.

(** The state [__init__] builds is shaped, with all statistics at the
    tallies of no row. *)
Lemma TreeCatTrainer_init_invariant (data : list (list (list Z))) (config : Config)
    (t : TreeCatTrainer) :
  data_counts data ->
  new_tree_shaped (length data) ->
  TreeCatTrainer_init data config = inr t ->
  trainer_shaped t /\ stats_exact t
  /\ _assigned_rows t = ∅
  /\ length (assignments t) = length (hd [] data)
  /\ _config t = config
  /\ trainer_M t = model_num_clusters config
  /\ _data t = data.
Proof.
  intros Hdata [Hnum Htree] Hinit. unfold TreeCatTrainer_init in Hinit.
  destruct data as [|column0 data0]; [discriminate|].
  remember (column0 :: data0) as data eqn:Edata.
  assert (Hlen : (0 < length data)%nat) by (rewrite Edata; simpl; lia).
  rewrite (map_wrap8_id data Hdata) in Hinit.
  destruct (forallb _ data); [|discriminate].
  rewrite Hnum in Hinit.
  destruct (Nat.ltb_spec 128 (model_num_clusters config)) as [|HM128]; [discriminate|].
  destruct (Nat.eqb_spec (model_num_clusters config) 0) as [|HM0]; [discriminate|].
  injection Hinit as <-.
  split; [|split; [|split; [reflexivity|]; split; [rewrite Edata; apply length_replicate|];
                   repeat split]].
  - unfold trainer_shaped, trainer_V, trainer_E, trainer_M, trainer_K.
    cbn [_VEKM tree _vert_ss _edge_ss _feat_ss _data assignments _assigned_rows].
    rewrite !length_replicate, length_map.
    refine (conj _ (conj Hlen (conj eq_refl (conj Htree (conj eq_refl (conj _ (conj eq_refl
              (conj _ (conj eq_refl (conj _ (conj eq_refl (conj Hdata (conj _ _))))))))))))).
    + lia.
    + apply Forall_replicate, length_replicate.
    + apply Forall_replicate. split; [apply length_replicate|].
      apply Forall_replicate, length_replicate.
    + apply Forall_fmap, Forall_forall. intros column _. simpl.
      apply Forall_replicate, length_replicate.
    + apply Forall_replicate. split; [apply length_replicate|].
      apply Forall_replicate. lia.
    + intros r Hr. apply elem_of_empty in Hr. contradiction.
  - unfold stats_exact, stats_match.
    cbn [_VEKM tree _vert_ss _edge_ss _feat_ss _data assignments _assigned_rows].
    rewrite elements_empty.
    split; [|split].
    + intros v m z Hz. apply look2_replicate in Hz. subst z. reflexivity.
    + intros e v1 v2 i j z _ Hz. unfold look3 in Hz.
      destruct (replicate _ _ !! e) as [mat|] eqn:Emat; [|discriminate].
      apply lookup_replicate in Emat as [-> _]. simpl in Hz.
      apply look2_replicate in Hz. subst z. reflexivity.
    + intros v c m z Hz. unfold look3 in Hz. rewrite list_lookup_fmap in Hz.
      destruct (data !! v) as [column|]; [|discriminate]. simpl in Hz.
      apply look2_replicate in Hz. subst z. reflexivity.
Qed.

(** The loop of [train] keeps the invariant along a stream of actions
    that respects the preconditions of [add_row] and [remove_row]. *)
Lemma run_actions_invariant (gammaln : R -> R) (acts : list action) :
  set_edges_shaped ->
  forall (t : TreeCatTrainer) (rng : RNG) (S' : gset nat),
    trainer_shaped t -> stats_exact t -> draws_in_range (trainer_M t) ->
    Forall (fun r => r < length (assignments t))%nat (added acts) ->
    replay (_assigned_rows t) acts = Some S' ->
    (run_actions gammaln acts t rng).1.1 = None
    /\ trainer_shaped (run_actions gammaln acts t rng).1.2
    /\ stats_exact (run_actions gammaln acts t rng).1.2
    /\ _assigned_rows (run_actions gammaln acts t rng).1.2 = S'
    /\ length (assignments (run_actions gammaln acts t rng).1.2) = length (assignments t)
    /\ _VEKM (run_actions gammaln acts t rng).1.2 = _VEKM t
    /\ _config (run_actions gammaln acts t rng).1.2 = _config t.
Proof.
  intros Hset. induction acts as [|a acts IH];
    intros t rng S' Hshaped Hexact Hdraws Hrows Hreplay.
  - simpl in *. injection Hreplay as <-.
    split; [reflexivity|]. split; [exact Hshaped|]. split; [exact Hexact|].
    repeat split.
  - simpl in Hreplay. simpl run_actions.
    destruct a as [row_id | row_id |]; simpl in Hreplay.
    + destruct (decide (row_id ∈ _assigned_rows t)) as [Hin|Hnot]; [discriminate|].
      simpl in Hrows. apply Forall_cons in Hrows as [Hrow Hrows].
      destruct (add_row_invariant t row_id rng Hshaped Hexact Hdraws Hnot Hrow)
        as (Herr & Hshaped' & Hexact' & Hset' & Hlen' & Hdims' & Hconfig').
      destruct (add_row t row_id rng) as [[err t'] rng']. simpl in *. subst err.
      destruct (IH t' rng' S') as (I1 & I2 & I3 & I4 & I5 & I6 & I7).
      * exact Hshaped'.
      * exact Hexact'.
      * unfold trainer_M in *. rewrite Hdims'. exact Hdraws.
      * rewrite Hlen'. exact Hrows.
      * rewrite Hset'. exact Hreplay.
      * split; [exact I1|]. split; [exact I2|]. split; [exact I3|]. split; [exact I4|].
        repeat split; congruence.
    + destruct (decide (row_id ∈ _assigned_rows t)) as [Hin|Hnot]; [|discriminate].
      simpl in Hrows.
      destruct (remove_row_invariant t row_id rng Hshaped Hexact Hin)
        as (Herr & Hshaped' & Hexact' & Hset' & Hassign' & Hdims' & Hconfig' & _).
      destruct (remove_row t row_id rng) as [[err t'] rng']. simpl in *. subst err.
      destruct (IH t' rng' S') as (I1 & I2 & I3 & I4 & I5 & I6 & I7).
      * exact Hshaped'.
      * exact Hexact'.
      * unfold trainer_M in *. rewrite Hdims'. exact Hdraws.
      * rewrite Hassign'. exact Hrows.
      * rewrite Hset'. exact Hreplay.
      * split; [exact I1|]. split; [exact I2|]. split; [exact I3|]. split; [exact I4|].
        repeat split; congruence.
    + simpl in Hrows.
      destruct (sample_tree_invariant gammaln t rng Hshaped Hexact Hset)
        as (Herr & Hshaped' & Hexact' & Hset' & Hassign' & Hdims' & Hconfig').
      destruct (sample_tree gammaln t rng) as [[err t'] rng']. simpl in *. subst err.
      destruct (IH t' rng' S') as (I1 & I2 & I3 & I4 & I5 & I6 & I7).
      * exact Hshaped'.
      * exact Hexact'.
      * unfold trainer_M in *. rewrite Hdims'. exact Hdraws.
      * rewrite Hassign'. exact Hrows.
      * rewrite Hset'. exact Hreplay.
      * split; [exact I1|]. split; [exact I2|]. split; [exact I3|]. split; [exact I4|].
        repeat split; congruence.
Qed.

(** The rows a schedule adds are rows of the data. *)
Lemma schedule_adds_rows (num_rows : nat) (config : Config) (row_ids : list nat)
    (fuel : nat) (acts : list action) :
  row_ids ≡ₚ seq 0 num_rows ->
  get_annealing_schedule num_rows config row_ids fuel = Some acts ->
  Forall (fun r => r < num_rows)%nat (added acts).
Proof.
  intros Hperm Hrun.
  destruct (decide (num_rows = 0)%nat) as [->|Hpos].
  { unfold get_annealing_schedule in Hrun.
    destruct fuel; simpl in Hrun; injection Hrun as <-; constructor. }
  destruct (annealing_loop_rows config num_rows row_ids fuel _ _ Hrun) as [Hadded _].
  rewrite Hadded. apply Forall_fmap, Forall_forall. intros i _. simpl.
  unfold cycle_at.
  assert (Hlen : length row_ids = num_rows) by (rewrite Hperm; apply length_seq).
  assert (Hin : nth (i mod length row_ids) row_ids 0%nat ∈ row_ids).
  { apply list_elem_of_In, nth_In. rewrite Hlen. apply Nat.mod_upper_bound. exact Hpos. }
  revert Hin. generalize (nth (i mod length row_ids) row_ids 0%nat). intros x Hin.
  rewrite Hperm in Hin. apply elem_of_seq in Hin. lia.
Qed.

Lemma train_invariant (gammaln : R -> R) (fuel : nat) (t : TreeCatTrainer) :
  trainer_shaped t -> stats_exact t -> _assigned_rows t = ∅ ->
  (1 <= learning_annealing_epochs (_config t))%Q ->
  (0 <= learning_annealing_init_rows (_config t))%Q ->
  shuffle_permutes -> draws_in_range (trainer_M t) -> set_edges_shaped -> gc_keeps_grid ->
  (schedule_fuel (length (assignments t)) (_config t) <= fuel)%nat ->
  exists t' rng',
    train gammaln fuel t = Some (None, t', rng')
    /\ _assigned_rows t' = list_to_set (seq 0 (length (assignments t)))
    /\ length (assignments t') = length (assignments t)
    /\ stats_exact t'
    /\ _VEKM t' = _VEKM t
    /\ exists s, serve_model (tree t') (suffstats t') (_config t') = inr s.
Proof.
  intros Hshaped Hexact Hempty Hepochs Hinit Hshuffle Hdraws Hset Hgc Hfuel.
  unfold train.
  pose proof (Hshuffle (seq 0 (length (assignments t))) (random_seed (seed (_config t))))
    as Hperm.
  destruct (random_shuffle _ _) as [row_ids rng]. simpl in Hperm.
  destruct (annealing_loop_terminates (_config t) (length (assignments t)) row_ids
              Hepochs Hinit (schedule_fuel (length (assignments t)) (_config t))
              (annealing_init (_config t)))
    as (acts & Hrun & _).
  { apply annealing_init_inv; assumption. }
  { unfold schedule_fuel. simpl. lia. }
  pose proof (annealing_loop_more_fuel _ _ _ _ _ _ _ Hrun Hfuel) as Hrun'.
  unfold get_annealing_schedule. rewrite Hrun'.
  pose proof (annealing_loop_replay_window (_config t) (length (assignments t)) row_ids
                Hepochs Hinit Hperm fuel (annealing_init (_config t)) acts
                (annealing_init_inv _ _ Hepochs) Hrun') as Hreplay.
  change (list_to_set (window row_ids (annealing_init (_config t))))
    with (∅ : gset nat) in Hreplay.
  rewrite <- Hempty in Hreplay.
  destruct (run_actions_invariant gammaln acts Hset t rng _ Hshaped Hexact Hdraws
              (schedule_adds_rows _ _ _ _ _ Hperm Hrun') Hreplay)
    as (Herr & Hshaped' & Hexact' & Hset' & Hlen' & Hdims' & _).
  destruct (run_actions gammaln acts t rng) as [[err t'] rng']. simpl in *. subst err.
  exists (finish t'), rng'. split; [reflexivity|].
  split; [exact Hset'|]. split; [exact Hlen'|].
  split; [|split; [exact Hdims'|]].
  - destruct Hexact' as (Hv & He & Hf). unfold stats_exact, stats_match, finish. simpl.
    split; [exact Hv|]. split; [|exact Hf].
    intros e v1 v2 i j z Hin. rewrite Hgc in Hin. apply He. exact Hin.
  - destruct (make_posterior_of_shaped t' Hshaped') as [p Hp].
    unfold serve_model, TreeCatServer_init, finish. simpl. rewrite Hgc.
    change (suffstats (with_tree t' (gc (tree t')) (_schedule t') (_edge_ss t')))
      with (suffstats t').
    rewrite Hp. eexists. reflexivity.
Qed.

End TrainInvariant.

(** *** What the operations of the trainer never touch *)

Section TrainerFrame.
Context `{Collaborators}.

Lemma add_row_data (t : TreeCatTrainer) (row_id : nat) (rng : RNG) :
  _data (add_row t row_id rng).1.2 = _data t
  /\ _config (add_row t row_id rng).1.2 = _config t.
Proof.
  unfold add_row. destruct (decide _); [split; reflexivity|].
  destruct (decide _); [split; reflexivity|].
  destruct (upward _ _ _ _ _ _ _) as [messages sums].
  destruct (foldl _ _ _) as [[messages' a] rng']. split; reflexivity.
Qed.

Lemma remove_row_data (t : TreeCatTrainer) (row_id : nat) (rng : RNG) :
  _data (remove_row t row_id rng).1.2 = _data t
  /\ _config (remove_row t row_id rng).1.2 = _config t.
Proof.
  unfold remove_row. destruct (decide _); [|split; reflexivity].
  destruct (decide _); split; reflexivity.
Qed.

Lemma _update_tree_data (t : TreeCatTrainer) :
  _data (_update_tree t).2 = _data t
  /\ _config (_update_tree t).2 = _config t
  /\ _vert_ss (_update_tree t).2 = _vert_ss t
  /\ _feat_ss (_update_tree t).2 = _feat_ss t.
Proof.
  unfold _update_tree. destruct (foldl _ _ _) as [[e|] es]; repeat split; reflexivity.
Qed.

Lemma sample_tree_data (gammaln : R -> R) (t : TreeCatTrainer) (rng : RNG) :
  _data (sample_tree gammaln t rng).1.2 = _data t
  /\ _config (sample_tree gammaln t rng).1.2 = _config t
  /\ _vert_ss (sample_tree gammaln t rng).1.2 = _vert_ss t
  /\ _feat_ss (sample_tree gammaln t rng).1.2 = _feat_ss t.
Proof.
  unfold sample_tree. destruct (sample_tree_edge_logits gammaln t); [repeat split|].
  destruct (decide _); [|repeat split].
  destruct (structure_sample_tree _ _ _ _ rng) as [edges rng'].
  pose proof (_update_tree_data
                (with_tree t (set_edges (tree t) edges) (_schedule t) (_edge_ss t))) as Hd.
  destruct (_update_tree _) as [err t']. exact Hd.
Qed.

Lemma run_actions_data (gammaln : R -> R) (acts : list action) :
  forall (t : TreeCatTrainer) (rng : RNG),
    _data (run_actions gammaln acts t rng).1.2 = _data t
    /\ _config (run_actions gammaln acts t rng).1.2 = _config t.
Proof.
  induction acts as [|a acts IH]; intros t rng; [split; reflexivity|].
  simpl.
  assert (Hstep : _data (match a with
                         | add_row_action row_id => add_row t row_id rng
                         | remove_row_action row_id => remove_row t row_id rng
                         | sample_tree_action => sample_tree gammaln t rng
                         end).1.2 = _data t
                  /\ _config (match a with
                              | add_row_action row_id => add_row t row_id rng
                              | remove_row_action row_id => remove_row t row_id rng
                              | sample_tree_action => sample_tree gammaln t rng
                              end).1.2 = _config t).
  { destruct a; [apply add_row_data | apply remove_row_data |].
    destruct (sample_tree_data gammaln t rng) as (Hd & Hc & _). split; assumption. }
  destruct (match a with
            | add_row_action row_id => add_row t row_id rng
            | remove_row_action row_id => remove_row t row_id rng
            | sample_tree_action => sample_tree gammaln t rng
            end) as [[[e|] t'] rng']; simpl in Hstep |- *; [exact Hstep|].
  destruct (IH t' rng') as [I1 I2]. destruct Hstep as [H1 H2].
  split; congruence.
Qed.

End TrainerFrame.

(** *** The statistics stay exact *)

(** [add_row] of a row that is not assigned raises nothing; it draws for
    the row [V] cluster ids below [M], leaves the assignments of the other
    rows alone, and leaves every cell of [vert_ss], [edge_ss] and [feat_ss]
    equal, modulo [2^32], to the tally of the assigned rows. *)
Theorem add_row_keeps_statistics_exact `{Collaborators} (t : TreeCatTrainer)
    (row_id : nat) (rng : RNG) :
  trainer_shaped t -> stats_exact t -> draws_in_range (trainer_M t) ->
  row_id ∉ _assigned_rows t ->
  (row_id < length (assignments t))%nat ->
  let t' := (add_row t row_id rng).1.2 in
  (add_row t row_id rng).1.1 = None
  /\ _assigned_rows t' = {[row_id]} ∪ _assigned_rows t
  /\ (forall r, r <> row_id -> assignments t' !! r = assignments t !! r)
  /\ rows_in_range (trainer_V t) (trainer_M t) (assignments t')
  /\ _data t' = _data t
  /\ stats_exact t'.
Proof.
  intros Hshaped Hexact Hdraws Hnot Hrow t'. subst t'.
  destruct (add_row_invariant t row_id rng Hshaped Hexact Hdraws Hnot Hrow)
    as (Herr & Hshaped' & Hexact' & Hset' & _ & Hdims' & _).
  split; [exact Herr|]. split; [exact Hset'|].
  split; [|split; [|split; [apply (add_row_data t row_id rng) | exact Hexact']]].
  - intros r Hr.
    destruct (add_row_drawn t row_id rng Hshaped Hdraws Hnot Hrow) as (a & rng' & -> & _).
    simpl. apply list_lookup_insert_ne. congruence.
  - unfold trainer_shaped in Hshaped'.
    unfold trainer_V, trainer_M in *. rewrite Hdims' in Hshaped'. apply Hshaped'.
Qed.

(** [remove_row] of an assigned row raises nothing, draws nothing, keeps
    the assignments, and leaves the statistics equal to the tallies of the
    rows that stay assigned. *)
Theorem remove_row_keeps_statistics_exact `{Collaborators} (t : TreeCatTrainer)
    (row_id : nat) (rng : RNG) :
  trainer_shaped t -> stats_exact t ->
  row_id ∈ _assigned_rows t ->
  let t' := (remove_row t row_id rng).1.2 in
  remove_row t row_id rng = (None, t', rng)
  /\ _assigned_rows t' = _assigned_rows t ∖ {[row_id]}
  /\ assignments t' = assignments t
  /\ _data t' = _data t
  /\ stats_exact t'.
Proof.
  intros Hshaped Hexact Hin t'. subst t'.
  destruct (remove_row_invariant t row_id rng Hshaped Hexact Hin)
    as (Herr & _ & Hexact' & Hset' & Hassign' & _ & _ & Hrng).
  split.
  - destruct (remove_row t row_id rng) as [[err t'] rng']. simpl in Herr, Hrng.
    subst err rng'. reflexivity.
  - split; [exact Hset'|]. split; [exact Hassign'|].
    split; [apply (remove_row_data t row_id rng) | exact Hexact'].
Qed.


(** *** The clamped collaborators meet the assumptions *)

Lemma clamped_draws_in_range (M : nat) :
  (0 < M)%nat -> draws_in_range (H := clamped_collaborators) M.
Proof.
  intros HM probs rng Hlen. destruct rng as [|k rng]; simpl; lia.
Qed.

Lemma clamped_set_edges_shaped : set_edges_shaped (H := clamped_collaborators).
Proof. intros V E K tr edges Htree. exact Htree. Qed.

Lemma clamped_shuffle_permutes : shuffle_permutes (H := clamped_collaborators).
Proof. intros l rng. reflexivity. Qed.

Lemma clamped_gc_keeps_grid : gc_keeps_grid (H := clamped_collaborators).
Proof. intros tr. reflexivity. Qed.

Lemma clamped_new_tree_shaped_2 : new_tree_shaped (H := clamped_collaborators) 2.
Proof.
  split; [reflexivity|]. unfold tree_shaped. simpl.
  split; [reflexivity|]. split; [reflexivity|].
  split; [apply NoDup_singleton|]. split; [|reflexivity].
  repeat constructor; lia.
Qed.

Lemma data_two_features_counts : data_counts data_two_features.
Proof. unfold data_counts, data_two_features. repeat constructor; lia. Qed.

Lemma trainer_two_features_invariant :
  trainer_shaped trainer_two_features /\ stats_exact trainer_two_features.
Proof.
  destruct (TreeCatTrainer_init_invariant (H := clamped_collaborators)
              data_two_features (example_config 2 (3 # 2) 1) trainer_two_features)
    as (Hshaped & Hexact & _).
  - exact data_two_features_counts.
  - exact clamped_new_tree_shaped_2.
  - reflexivity.
  - split; assumption.
Qed.

Lemma add_row_keeps_statistics_exact_witness :
  (add_row (H := clamped_collaborators) trainer_two_features 0 [1%nat]).1.1 = None
  /\ _assigned_rows (add_row (H := clamped_collaborators) trainer_two_features 0 [1%nat]).1.2
     = {[0%nat]} ∪ _assigned_rows trainer_two_features
  /\ (forall r, r <> 0%nat ->
        assignments (add_row (H := clamped_collaborators) trainer_two_features 0 [1%nat]).1.2
          !! r
        = assignments trainer_two_features !! r)
  /\ rows_in_range (trainer_V trainer_two_features) (trainer_M trainer_two_features)
       (assignments (add_row (H := clamped_collaborators) trainer_two_features 0 [1%nat]).1.2)
  /\ _data (add_row (H := clamped_collaborators) trainer_two_features 0 [1%nat]).1.2
     = _data trainer_two_features
  /\ stats_exact (add_row (H := clamped_collaborators) trainer_two_features 0 [1%nat]).1.2.
Proof.
  apply (add_row_keeps_statistics_exact (H := clamped_collaborators)
           trainer_two_features 0 [1%nat]).
  - apply trainer_two_features_invariant.
  - apply trainer_two_features_invariant.
  - apply clamped_draws_in_range. vm_compute. lia.
  - change (0%nat ∉ (∅ : gset nat)). apply not_elem_of_empty.
  - vm_compute. lia.
Defined.


Lemma remove_row_keeps_statistics_exact_witness :
  let t := (add_row (H := clamped_collaborators) trainer_two_features 0 [1%nat]).1.2 in
  remove_row (H := clamped_collaborators) t 0 []
  = (None, (remove_row (H := clamped_collaborators) t 0 []).1.2, [])
  /\ _assigned_rows (remove_row (H := clamped_collaborators) t 0 []).1.2
     = _assigned_rows t ∖ {[0%nat]}
  /\ assignments (remove_row (H := clamped_collaborators) t 0 []).1.2 = assignments t
  /\ _data (remove_row (H := clamped_collaborators) t 0 []).1.2 = _data t
  /\ stats_exact (remove_row (H := clamped_collaborators) t 0 []).1.2.
Proof.
  intros t.
  destruct (add_row_invariant (H := clamped_collaborators) trainer_two_features 0 [1%nat])
    as (_ & Hshaped & Hexact & Hset & _).
  - apply trainer_two_features_invariant.
  - apply trainer_two_features_invariant.
  - apply clamped_draws_in_range. vm_compute. lia.
  - change (0%nat ∉ (∅ : gset nat)). apply not_elem_of_empty.
  - vm_compute. lia.
  - apply (remove_row_keeps_statistics_exact (H := clamped_collaborators) t 0 []).
    + exact Hshaped.
    + exact Hexact.
    + subst t. rewrite Hset. apply elem_of_union_l, elem_of_singleton. reflexivity.
Defined.


(** *** __init__ *)

Lemma forallb_lengths {A} (n : nat) (l : list (list A)) :
  forallb (fun column => (length column =? n)%nat) l = true
  <-> Forall (fun column => length column = n) l.
Proof.
  induction l as [|column l IH]; simpl.
  - split; [constructor | reflexivity].
  - rewrite andb_true_iff, IH, Forall_cons, Nat.eqb_eq. reflexivity.
Qed.

Lemma wrapped_lengths (n : nat) (data : list (list (list Z))) :
  Forall (fun column => length column = n) (map (map (map wrap8)) data)
  <-> Forall (fun column => length column = n) data.
Proof.
  rewrite Forall_fmap. apply Forall_proper; [|reflexivity].
  intros column. simpl. rewrite length_map. reflexivity.
Qed.


Lemma TreeCatTrainer_init_succeeds `{Collaborators} (data : list (list (list Z)))
    (config : Config) :
  data <> [] ->
  Forall (fun column => length column = length (hd [] data)) data ->
  (1 <= model_num_clusters config <= 128)%nat ->
  exists t, TreeCatTrainer_init data config = inr t.
Proof.
  intros Hne Hcols HM. unfold TreeCatTrainer_init.
  destruct data as [|column0 data0]; [contradiction|].
  remember (column0 :: data0) as data eqn:Edata.
  assert (Hhd : length (hd [] data) = length column0) by (rewrite Edata; reflexivity).
  rewrite Hhd in Hcols.
  apply (proj2 (wrapped_lengths _ _)) in Hcols.
  apply (proj2 (forallb_lengths _ _)) in Hcols. rewrite Hcols.
  destruct (Nat.ltb_spec 128 (model_num_clusters config)) as [Hbig|_]; [lia|].
  destruct (Nat.eqb_spec (model_num_clusters config) 0) as [Hzero|_]; [lia|].
  eexists. reflexivity.
Qed.

(** *** train_model *)



(** *** What the tallies add up to *)

Lemma Zsum_exchange {A B} (f : A -> B -> Z) (xs : list A) (ys : list B) :
  Zsum (map (fun x => Zsum (map (fun y => f x y) ys)) xs)
  = Zsum (map (fun y => Zsum (map (fun x => f x y) xs)) ys).
Proof.
  induction xs as [|x xs IH]; simpl.
  - induction ys as [|y ys IHy]; simpl; [reflexivity | rewrite <- IHy; reflexivity].
  - rewrite IH, <- Zsum_map_add. reflexivity.
Qed.

Lemma Zsum_indicator_bounds {A} (P : A -> bool) (l : list A) :
  (0 <= Zsum (map (fun x => if P x then 1 else 0) l) <= Z.of_nat (length l))%Z.
Proof.
  induction l as [|x l IH]; simpl; [lia|]. destruct (P x); lia.
Qed.

Lemma wrap32_small (z : Z) : (0 <= z < 2147483648)%Z -> wrap32 z = z.
Proof. intros Hz. unfold wrap32. rewrite Z.mod_small; lia. Qed.

(** With fewer than [2^31] rows assigned, every row of [vert_ss] adds up
    to the number of assigned rows: each assigned row is counted once at
    every vertex. *)
Theorem vert_ss_rows_count_assigned (t : TreeCatTrainer) (v : nat) :
  trainer_shaped t -> stats_exact t ->
  (Z.of_nat (size (_assigned_rows t)) < 2147483648)%Z ->
  (v < trainer_V t)%nat ->
  length (nth v (_vert_ss t) []) = trainer_M t
  /\ Forall (fun z => (0 <= z)%Z) (nth v (_vert_ss t) [])
  /\ Zsum (nth v (_vert_ss t) []) = Z.of_nat (size (_assigned_rows t)).
Proof.
  intros Hshaped (Hvert & _ & _) Hsize Hv.
  unfold trainer_shaped in Hshaped.
  destruct Hshaped as (HM & HV & _ & _ & Hvl & Hvw & _ & _ & _ & _ & _ & _ & Hrows & Has).
  set (V := trainer_V t) in *. set (M := trainer_M t) in *.
  set (rows := elements (_assigned_rows t)) in *.
  assert (Hlen : size (_assigned_rows t) = length rows) by reflexivity.
  destruct (lookup_lt_is_Some_2 (_vert_ss t) v) as [row Erow]; [lia|].
  rewrite (nth_lookup (_vert_ss t)), Erow. simpl.
  assert (Hrowlen : length row = M) by (eapply Forall_lookup_1 in Hvw; eassumption).
  assert (Hrow : row = map (fun m => exact_vert_count (assignments t) rows v m) (seq 0 M)).
  { apply list_eq. intros m. rewrite list_lookup_fmap.
    destruct (decide (m < M)%nat) as [Hm|Hm].
    - rewrite lookup_seq_lt by exact Hm. simpl.
      destruct (lookup_lt_is_Some_2 row m) as [z Ez]; [lia|].
      rewrite Ez. f_equal.
      rewrite (Hvert v m z) by (unfold look2; rewrite Erow; exact Ez).
      apply wrap32_small. unfold exact_vert_count.
      pose proof (Zsum_indicator_bounds
                    (fun r => (nth v (nth r (assignments t) []) 0 =? m)%nat) rows).
      lia.
    - rewrite lookup_seq_ge, lookup_ge_None_2 by lia. reflexivity. }
  split; [exact Hrowlen|]. split.
  - rewrite Hrow. apply Forall_fmap, Forall_forall. intros m _. simpl.
    unfold exact_vert_count.
    apply (Zsum_indicator_bounds
             (fun r => (nth v (nth r (assignments t) []) 0 =? m)%nat) rows).
  - rewrite Hrow, Hlen. unfold exact_vert_count.
    rewrite <- (Zsum_exchange
                  (fun r m => if (nth v (nth r (assignments t) []) 0 =? m)%nat
                              then 1%Z else 0%Z) rows (seq 0 M)).
    rewrite (Zsum_map_ext _ (fun _ => 1%Z)).
    + clear. induction rows as [|r rows IH]; simpl; lia.
    + intros r Hr. apply Zsum_indicator.
      apply elem_of_elements in Hr. specialize (Has r Hr).
      destruct (nth_lookup_or_length (assignments t) r []) as [E0|E0]; [|lia].
      eapply Forall_lookup_1 in Hrows; [|exact E0]. destruct Hrows as [Hal Har].
      rewrite Forall_forall in Har. apply Har, list_elem_of_In, nth_In. lia.
Qed.

Lemma vert_ss_rows_count_assigned_witness :
  let t := (add_row (H := clamped_collaborators) trainer_two_features 0 [1%nat]).1.2 in
  length (nth 1 (_vert_ss t) []) = trainer_M t
  /\ Forall (fun z => (0 <= z)%Z) (nth 1 (_vert_ss t) [])
  /\ Zsum (nth 1 (_vert_ss t) []) = Z.of_nat (size (_assigned_rows t)).
Proof.
  intros t.
  destruct (add_row_invariant (H := clamped_collaborators) trainer_two_features 0 [1%nat])
    as (_ & Hshaped & Hexact & _).
  - apply trainer_two_features_invariant.
  - apply trainer_two_features_invariant.
  - apply clamped_draws_in_range. vm_compute. lia.
  - change (0%nat ∉ (∅ : gset nat)). apply not_elem_of_empty.
  - vm_compute. lia.
  - apply (vert_ss_rows_count_assigned t 1).
    + exact Hshaped.
    + exact Hexact.
    + vm_compute. reflexivity.
    + vm_compute. lia.
Defined.

(** *** Removing every row again *)

Lemma cells2_zero (a : list (list Z)) :
  (forall i j z, look2 a i j = Some z -> z = 0%Z) ->
  Forall (Forall (fun z => z = 0%Z)) a.
Proof.
  intros Hcells. apply Forall_lookup_2. intros i row Hrow.
  apply Forall_lookup_2. intros j z Hz.
  apply (Hcells i j z). unfold look2. rewrite Hrow. exact Hz.
Qed.



(** ** More on the queries of the server *)

Section SampleTouches.
Context `{Collaborators}.

(** The loop of the ['sample'] branch writes [feat_sample] and the tables
    of the posterior only at features with a requested count. *)
Lemma sample_fold_untouched (M : nat) (tr : TreeStructure)
    (edge_probs : list (list (list Qc))) (counts : list Z) (schedule : list visit)
    (v : nat) :
  nth v counts 0%Z = 0%Z ->
  forall acc,
    let acc' := foldl (sample_visit M tr edge_probs counts) acc schedule in
    acc'.1.1.2 !! v = acc.1.1.2 !! v
    /\ acc'.1.2 !! v = acc.1.2 !! v.
Proof.
  intros Hzero. induction schedule as [|[[v' parent] children] schedule IH]; intros acc.
  - split; reflexivity.
  - change (foldl (sample_visit M tr edge_probs counts) acc
                   ((v', parent, children) :: schedule))
      with (foldl (sample_visit M tr edge_probs counts)
                  (sample_visit M tr edge_probs counts acc (v', parent, children))
                  schedule).
    cbv zeta in IH |- *.
    destruct (IH (sample_visit M tr edge_probs counts acc (v', parent, children)))
      as (I1 & I2).
    rewrite I1, I2.
    destruct acc as [[[[messages vert_sample] feat_sample] feat_probs] rng].
    unfold sample_visit.
    destruct (sample_from_probs _ rng) as [k rng'].
    destruct (Z.eqb_spec (nth v' counts 0%Z) 0) as [Hv'|Hv']; [split; reflexivity|].
    destruct (random_multinomial _ _ rng') as [draw rng''].
    assert (Hne : v' <> v) by congruence.
    simpl. rewrite !list_lookup_insert_ne by exact Hne.
    split; reflexivity.
Qed.

Lemma sample_fold_lengths (M : nat) (tr : TreeStructure)
    (edge_probs : list (list (list Qc))) (counts : list Z) (schedule : list visit) :
  forall acc,
    let acc' := foldl (sample_visit M tr edge_probs counts) acc schedule in
    length acc'.1.1.2 = length acc.1.1.2 /\ length acc'.1.2 = length acc.1.2.
Proof.
  induction schedule as [|[[v' parent] children] schedule IH]; intros acc.
  - split; reflexivity.
  - change (foldl (sample_visit M tr edge_probs counts) acc
                   ((v', parent, children) :: schedule))
      with (foldl (sample_visit M tr edge_probs counts)
                  (sample_visit M tr edge_probs counts acc (v', parent, children))
                  schedule).
    cbv zeta in IH |- *.
    destruct (IH (sample_visit M tr edge_probs counts acc (v', parent, children)))
      as (I1 & I2).
    rewrite I1, I2.
    destruct acc as [[[[messages vert_sample] feat_sample] feat_probs] rng].
    unfold sample_visit.
    destruct (sample_from_probs _ rng) as [k rng'].
    destruct (nth v' counts 0 =? 0)%Z; [split; reflexivity|].
    destruct (random_multinomial _ _ rng') as [draw rng''].
    simpl. rewrite !length_insert. split; reflexivity.
Qed.

End SampleTouches.


(** *** The column that [sample] normalises *)

Lemma Qcdiv_1_r (x : Qc) : (x / 1)%Qc = x.
Proof. unfold Qcdiv. change (/ 1)%Qc with 1%Qc. ring. Qed.

Lemma column_normalize_column (k : nat) (table : list (list Qc)) :
  column k (normalize_column k table)
  = vscale_div (column k table) (vsum (column k table)).
Proof.
  unfold normalize_column, column, vscale_div. rewrite !map_map.
  apply map_ext. intros row.
  rewrite !nth_lookup.
  destruct (decide (k < length row)%nat) as [Hk|Hk].
  - rewrite list_lookup_alter_eq.
    destruct (row !! k) as [x|] eqn:E; [reflexivity|].
    apply lookup_ge_None in E. lia.
  - rewrite list_lookup_alter_eq, (lookup_ge_None_2 row k) by lia. simpl.
    unfold Qcdiv. ring.
Qed.



(** *** Serving the statistics of a trainer *)

(** The statistics of a shaped trainer are a snapshot [serve_model]
    accepts; the server it builds expects, for every feature, a row with one
    count per category of the feature. *)
Theorem shaped_statistics_are_servable `{Collaborators} (t : TreeCatTrainer) :
  trainer_shaped t ->
  exists s,
    serve_model (tree t) (suffstats t) (_config t) = inr s
    /\ _tree s = tree t
    /\ _zero_row s = map (fun table => length table) (_feat_ss t)
    /\ length (latent (_posterior s)) = trainer_V t.
Proof.
  intros Hshaped.
  destruct (make_posterior_of_shaped t Hshaped) as [p Hp].
  destruct (make_posterior_inr _ _ _ Hp) as (_ & _ & _ & _ & Hlat & Hol).
  destruct (make_posterior_tables _ _ _ Hp) as (_ & _ & _ & _ & Hobs).
  unfold serve_model, TreeCatServer_init. rewrite Hp.
  eexists. split; [reflexivity|]. simpl.
  split; [reflexivity|]. split.
  - rewrite Hobs, Hol, map_map. unfold suffstats. simpl.
    apply list_eq. intros v. rewrite !list_lookup_fmap, list_lookup_imap.
    destruct (_feat_ss t !! v) as [table|]; simpl; [|reflexivity].
    f_equal. unfold sum_axis1, corrected_joint, plus_prior. rewrite !length_map.
    reflexivity.
  - rewrite Hlat. unfold normalize_rows, plus_prior, suffstats. simpl.
    rewrite !length_map. unfold trainer_shaped in Hshaped. tauto.
Qed.

Lemma shaped_statistics_are_servable_witness :
  exists s,
    serve_model (H := clamped_collaborators) (tree trainer_two_features)
      (suffstats trainer_two_features) (_config trainer_two_features) = inr s
    /\ _tree s = tree trainer_two_features
    /\ _zero_row s = map (fun table => length table) (_feat_ss trainer_two_features)
    /\ length (latent (_posterior s)) = trainer_V trainer_two_features.
Proof.
  apply (shaped_statistics_are_servable (H := clamped_collaborators) trainer_two_features).
  apply trainer_two_features_invariant.
Defined.

(** *** One observation at a model of one feature *)

Lemma units_of_zeros (g : nat -> nat) (n : nat) :
  concat (imap (fun i count => replicate (Z.to_nat count) (g i)) (replicate n 0%Z)) = [].
Proof.
  revert g. induction n as [|n IH]; intros g; [reflexivity|].
  simpl. apply (IH (g ∘ S)).
Qed.

Lemma units_of_unit_row (K c : nat) : units_of (unit_row K c) = [c].
Proof.
  unfold units_of, unit_row. rewrite imap_app, concat_app.
  rewrite (units_of_zeros (fun i => i)). simpl.
  rewrite length_replicate, Nat.add_0_r.
  rewrite (units_of_zeros (fun i => (c + S i)%nat)). reflexivity.
Qed.

Lemma unit_row_length (K c : nat) : (c < K)%nat -> length (unit_row K c) = K.
Proof.
  intros Hc. unfold unit_row. rewrite length_app. simpl. rewrite !length_replicate. lia.
Qed.

Lemma vscale_div_pos (x : list Qc) (s : Qc) :
  pos_vec x -> (0 < s)%Qc -> pos_vec (vscale_div x s).
Proof.
  intros Hx Hs. unfold pos_vec, vscale_div. apply Forall_fmap.
  eapply Forall_impl; [exact Hx|]. intros a Ha. simpl.
  unfold Qcdiv. apply Qcmult_pos_pos; [exact Ha | apply Qcinv_pos, Hs].
Qed.

(** One count unit of category [c] folded into the marginal of a feature
    leaves row [c] of the joint as the message. *)
Lemma fold_in_unit_row (M K c : nat) (latent_v : list Qc) (table : list (list Qc))
    (row : list Qc) :
  pos_vec latent_v -> sum_axis0 M table = latent_v ->
  table !! c = Some row -> length row = length latent_v ->
  (fold_in M latent_v table (unit_row K c)).1.1 = row.
Proof.
  intros Hpos Hmarg Hrow Hlen. unfold fold_in. rewrite units_of_unit_row.
  unfold fold_units. simpl. rewrite Hmarg, (nth_lookup table), Hrow. simpl.
  apply vmul_vdiv_cancel; [exact Hpos | congruence].
Qed.



